(** * stcwallet: transaction construction and key custody

    A shallow embedding of [wallet/createtx.go] and of the parts of
    [wallet/wallet.go] that decide when an output may be spent and when the
    address manager is locked.

    Go's fixed-width integers are values of [Z] in the range of their type;
    every arithmetic operation of the source is followed by the wrap-around
    of its type.  Maps are stdpp [gmap]s. *)

From Stdlib Require Import ZArith Lia List Bool String.
From Stdlib Require Import Sorting.Permutation Sorting.Sorted.
From Stdlib Require Import Floats.SpecFloat.
From stdpp Require Import base countable gmap.

Local Open Scope Z_scope.

(* ===================================================================== *)
(** ** Machine integers *)
(* ===================================================================== *)

Module GoInt.

(** Two's-complement wrap-around of a [bits]-wide signed integer. *)
Definition wrap (bits : Z) (z : Z) : Z :=
  (z + 2 ^ (bits - 1)) mod 2 ^ bits - 2 ^ (bits - 1).

Definition int32 (z : Z) : Z := wrap 32 z.
Definition int64 (z : Z) : Z := wrap 64 z.
(** Go's [int] on the 64-bit platforms the wallet is built for. *)
Definition int (z : Z) : Z := wrap 64 z.

Definition MaxInt32 : Z := 2 ^ 31 - 1.
Definition MinInt32 : Z := - 2 ^ 31.
Definition MaxInt64 : Z := 2 ^ 63 - 1.
Definition MinInt64 : Z := - 2 ^ 63.

Definition is_int32 (z : Z) : Prop := MinInt32 <= z <= MaxInt32.
Definition is_int64 (z : Z) : Prop := MinInt64 <= z <= MaxInt64.

End GoInt.
Import GoInt.

(* ===================================================================== *)
(** ** Size estimates ([createtx.go], the constant block) *)
(* ===================================================================== *)

(** 4 bytes of version, 4 bytes of locktime, 2 varints. *)
Definition txOverheadEstimate : Z := 4 + 4 + 1 + 1.

(** Best-case signature script redeeming a P2PKH output. *)
Definition sigScriptEstimate : Z := 1 + 70 + 1 + 33 + 1.

(** 32 bytes of sha, 4 of output index, 4 of sequence, and the script. *)
Definition txInEstimate : Z := 32 + 4 + 4 + sigScriptEstimate.

Definition pkScriptEstimate : Z := 1 + 1 + 1 + 20 + 1 + 1.

Definition txOutEstimate : Z := 8 + 1 + pkScriptEstimate.

(** [func estimateTxSize(numInputs, numOutputs int) int] *)
Definition estimateTxSize (numInputs numOutputs : Z) : Z :=
  int (int (txOverheadEstimate + int (txInEstimate * numInputs))
       + int (txOutEstimate * numOutputs)).

(* ===================================================================== *)
(** ** Confirmations ([wallet.go]) *)
(* ===================================================================== *)

(** [func confirms(txHeight, curHeight int32) int32] *)
Definition confirms (txHeight curHeight : Z) : Z :=
  if (txHeight =? -1) || (txHeight >? curHeight) then 0
  else int32 (int32 (curHeight - txHeight) + 1).

(** [func confirmed(minconf, txHeight, curHeight int32) bool] *)
Definition confirmed (minconf txHeight curHeight : Z) : bool :=
  confirms txHeight curHeight >=? minconf.

(* ===================================================================== *)
(** ** The packages the wallet imports *)
(* ===================================================================== *)

Definition Script := list Byte.byte.

(** Errors raised by code outside package [wallet], kept by their text. *)
Definition ext_error := string.

(** Values of Go's multiple results [(T, error)] coming from outside. *)
Definition result (A : Type) : Type := (ext_error + A)%type.

Module coinutil.

(** [coinutil.Amount] is an [int64] number of satoshi.  The unit
    constants are those of [amount.go] in the btcutil family. *)
Definition SatoshiPerBitcent : Z := 1000000.
Definition SatoshiPerBitcoin : Z := 100000000.
Definition MaxSatoshi : Z := 21000000 * SatoshiPerBitcoin.

(** The address kinds behind the [coinutil.Address] interface. *)
Inductive Address :=
| AddressPubKeyHash (hash160 : list Byte.byte)
| AddressScriptHash (hash160 : list Byte.byte)
| AddressPubKey (serialized : list Byte.byte).

End coinutil.
Import coinutil.

Module chaincfg.
Inductive Params := MainNetParams | TestNet3Params | SimNetParams.
End chaincfg.

Module wire.

(** [wire.OutPoint]: the 32-byte transaction hash, read as a 256-bit
    number, and the output index ([uint32]). *)
Record OutPoint := mkOutPoint { Hash : N; Index : N }.

Record txin := mkTxIn {
  PreviousOutPoint : OutPoint;
  SignatureScript : Script;
  Sequence : Z
}.

Record txout := mkTxOut { Value : Z; PkScript : Script }.

Record MsgTx := mkMsgTx {
  Version : Z;
  TxIn : list txin;
  TxOut : list txout;
  LockTime : Z
}.

Definition TxVersion : Z := 1.
Definition MaxTxInSequenceNum : Z := 4294967295.

Definition NewMsgTx : MsgTx := mkMsgTx TxVersion [] [] 0.

Definition NewTxIn (prevOut : OutPoint) (signatureScript : Script) : txin :=
  mkTxIn prevOut signatureScript MaxTxInSequenceNum.

Definition NewTxOut (value : Z) (pkScript : Script) : txout :=
  mkTxOut value pkScript.

Definition AddTxIn (msg : MsgTx) (ti : txin) : MsgTx :=
  mkMsgTx (Version msg) (TxIn msg ++ [ti]) (TxOut msg) (LockTime msg).

Definition AddTxOut (msg : MsgTx) (to : txout) : MsgTx :=
  mkMsgTx (Version msg) (TxIn msg) (TxOut msg ++ [to]) (LockTime msg).

Definition set_TxOut (msg : MsgTx) (outs : list txout) : MsgTx :=
  mkMsgTx (Version msg) (TxIn msg) outs (LockTime msg).

Definition set_TxIn (msg : MsgTx) (ins : list txin) : MsgTx :=
  mkMsgTx (Version msg) ins (TxOut msg) (LockTime msg).

(** [msg.TxIn[i].SignatureScript = sigscript] *)
Definition set_SignatureScript (msg : MsgTx) (i : nat) (sigscript : Script)
  : MsgTx :=
  set_TxIn msg
    (alter (fun ti => mkTxIn (PreviousOutPoint ti) sigscript (Sequence ti))
           i (TxIn msg)).

(** The consensus serialization: number of bytes of a variable-length
    integer, of an input, of an output and of the whole transaction. *)
Definition VarIntSerializeSize (val : Z) : Z :=
  if val <? 253 then 1
  else if val <=? 65535 then 3
  else if val <=? 4294967295 then 5
  else 9.

Definition txin_SerializeSize (ti : txin) : Z :=
  let n := Z.of_nat (length (SignatureScript ti)) in
  40 + VarIntSerializeSize n + n.

Definition txout_SerializeSize (to : txout) : Z :=
  let n := Z.of_nat (length (PkScript to)) in
  8 + VarIntSerializeSize n + n.

Definition sumZ (l : list Z) : Z := fold_right Z.add 0 l.

Definition consensusSerializeSize (msg : MsgTx) : Z :=
  8 + VarIntSerializeSize (Z.of_nat (length (TxIn msg)))
    + VarIntSerializeSize (Z.of_nat (length (TxOut msg)))
    + sumZ (map txin_SerializeSize (TxIn msg))
    + sumZ (map txout_SerializeSize (TxOut msg)).

End wire.

#[global] Instance OutPoint_eq_dec : EqDecision wire.OutPoint.
Proof. solve_decision. Defined.

#[global] Instance OutPoint_countable : Countable wire.OutPoint.
Proof.
  refine (inj_countable' (fun op => (wire.Hash op, wire.Index op))
                         (fun p => wire.mkOutPoint (fst p) (snd p)) _).
  intros []. reflexivity.
Defined.

Module wtxmgr.

(** [wtxmgr.Credit]: an unspent output; [Height] is -1 when unmined. *)
Record Credit := mkCredit {
  OutPoint : wire.OutPoint;
  Height : Z;
  Amount : Z;
  PkScript : Script;
  FromCoinBase : bool
}.

End wtxmgr.

Module txscript.
Inductive ScriptClass :=
| NonStandardTy | PubKeyTy | PubKeyHashTy | ScriptHashTy | MultiSigTy
| NullDataTy.
End txscript.

Module blockchain.
Definition CoinbaseMaturity : Z := 100.
End blockchain.

Module waddrmgr.

Record BlockStamp := mkBlockStamp { Height : Z; Hash : N }.

Definition PrivateKey := N.

(** What [Manager.Address] hands out: an address with a key
    ([ManagedPubKeyAddress]) or a script address without one. *)
Inductive ManagedAddress :=
| ManagedPubKeyAddress (PrivKey : result PrivateKey) (compressed : bool)
| ManagedScriptAddress (compressed : bool).

Definition Compressed (ai : ManagedAddress) : bool :=
  match ai with
  | ManagedPubKeyAddress _ c => c
  | ManagedScriptAddress c => c
  end.

(** The read-only face of [*waddrmgr.Manager] used while a
    transaction is built. *)
Record Manager := mkManager {
  Address : coinutil.Address -> result ManagedAddress;
  AddrAccount : coinutil.Address -> result Z
}.

End waddrmgr.

(** Everything else the wallet calls but does not define: address
    decoding, the script library, serialization, sorting and the clock-seeded
    random source.  [Int31n k n] is the draw of the [k]-th generator
    created during one call. *)
Record World := mkWorld {
  DecodeAddress : string -> chaincfg.Params -> result Address;
  PayToAddrScript : Address -> result Script;
  ExtractPkScriptAddrs :
    Script -> chaincfg.Params ->
    txscript.ScriptClass * list Address * Z * option ext_error;
  SignatureScript :
    wire.MsgTx -> nat -> Script -> waddrmgr.PrivateKey -> bool -> result Script;
  NewEngine : Script -> wire.MsgTx -> nat -> option ext_error;
  Execute : Script -> wire.MsgTx -> nat -> option ext_error;
  SerializeSize : wire.MsgTx -> Z;
  sortReverseByAmount : list wtxmgr.Credit -> list wtxmgr.Credit;
  Int31n : nat -> Z -> Z
}.

(** What the callers may rely on from those packages. *)
Record WorldOK (W : World) : Prop := mkWorldOK {
  sort_perm : forall l, Permutation (sortReverseByAmount W l) l;
  sort_sorted : forall l,
    StronglySorted (fun a b => wtxmgr.Amount b <= wtxmgr.Amount a)
                   (sortReverseByAmount W l);
  Int31n_range : forall k n, 0 < n -> 0 <= Int31n W k n < n
}.

(* ===================================================================== *)
(** ** Errors and outcomes of package [wallet] *)
(* ===================================================================== *)

Inductive error :=
| InsufficientFundsError (in_ out fee : Z)
| ErrUnsupportedTransactionType
| ErrNonPositiveAmount
| ErrNegativeFee
| Errorf (format : string) (cause : ext_error)
| ErrPrevOutputsMismatch (numPrev numIn : nat)
| ErrExternal (cause : ext_error).

(** A call returns a value, returns an error, panics, or (for the one
    unbounded loop) is cut off after the given number of iterations. *)
Inductive outcome (A : Type) :=
| Ok (a : A)
| Err (e : error)
| Panic
| OutOfFuel.
Arguments Ok {A} a.
Arguments Err {A} e.
Arguments Panic {A}.
Arguments OutOfFuel {A}.

Definition bind {A B} (m : outcome A) (k : A -> outcome B) : outcome B :=
  match m with
  | Ok a => k a
  | Err e => Err e
  | Panic => Panic
  | OutOfFuel => OutOfFuel
  end.

Notation "x <- m ;; k" := (bind m (fun x => k))
  (at level 100, m at next level, right associativity).

(** [v, err := f(...); if err != nil { return fmt.Errorf(format, err) }] *)
Definition wrapErr {A} (format : string) (r : result A) : outcome A :=
  match r with
  | inl e => Err (Errorf format e)
  | inr a => Ok a
  end.

(** [v, err := f(...); if err != nil { return err }] *)
Definition passErr {A} (r : result A) : outcome A :=
  match r with
  | inl e => Err (ErrExternal e)
  | inr a => Ok a
  end.

(** Sums without wrap-around, to state what the wrapped sums of the
    source amount to. *)
Definition sumAmounts (l : list wtxmgr.Credit) : Z :=
  wire.sumZ (map wtxmgr.Amount l).

Definition sumPairs (pairs : list (string * Z)) : Z :=
  wire.sumZ (map snd pairs).

Definition nonNegative (c : wtxmgr.Credit) : Prop := 0 <= wtxmgr.Amount c.

(* ===================================================================== *)
(** ** Fees ([createtx.go]) *)
(* ===================================================================== *)

(** [func feeForSize(incr coinutil.Amount, sz int) coinutil.Amount];
    Go's [/] truncates towards zero. *)
Definition feeForSize (incr : Z) (sz : Z) : Z :=
  int64 (int (1 + Z.quot sz 1000) * incr).

(** [func chainDepth(target, current int32) int32] *)
Definition chainDepth (target current : Z) : Z :=
  if target =? -1 then 0
  else int32 (int32 (current - target) + 1).

(** IEEE 754 binary64, as [float64]. *)
Definition float64 := spec_float.
Definition float64_of_int (z : Z) : float64 := binary_normalize 53 1024 z 0 false.
Definition float64_div (x y : float64) : float64 := SFdiv 53 1024 x y.
Definition float64_mul (x y : float64) : float64 := SFmul 53 1024 x y.
Definition float64_gt (x y : float64) : bool := SFltb y x.

Definition blocksPerDayEstimate : float64 := float64_of_int 144.
Definition txSizeEstimate : float64 := float64_of_int 250.
Definition threshold : float64 :=
  float64_div (float64_mul (float64_of_int SatoshiPerBitcoin) blocksPerDayEstimate)
              txSizeEstimate.

(** The loop of [allowNoFeeTx]: [weightedSum += int64(Amount) * int64(depth)]. *)
Definition weightedSum (curHeight : Z) (txouts : list wtxmgr.Credit) : Z :=
  fold_left
    (fun acc txout =>
       let depth := chainDepth (wtxmgr.Height txout) curHeight in
       int64 (acc + int64 (wtxmgr.Amount txout * depth)))
    txouts 0.

(** [func allowNoFeeTx(curHeight int32, txouts []wtxmgr.Credit, txSize int) bool] *)
Definition allowNoFeeTx (curHeight : Z) (txouts : list wtxmgr.Credit)
  (txSize : Z) : bool :=
  let priority :=
    float64_div (float64_of_int (weightedSum curHeight txouts))
                (float64_of_int txSize) in
  float64_gt priority threshold.

(** [func minimumFee(incr, txLen, outputs, prevOutputs, height, disallowFree)] *)
Definition minimumFee (incr : Z) (txLen : Z) (outputs : list wire.txout)
  (prevOutputs : list wtxmgr.Credit) (height : Z) (disallowFree : bool) : Z :=
  let allowFree :=
    if negb disallowFree then allowNoFeeTx height prevOutputs txLen else false in
  let fee := feeForSize incr txLen in
  let fee := if allowFree && (txLen <? 1000) then 0 else fee in
  if (fee <? incr)
     && existsb (fun txOut => wire.Value txOut <? SatoshiPerBitcent) outputs
  then incr
  else if (fee <? 0) || (fee >? MaxSatoshi) then MaxSatoshi
  else fee.

(** The minimum fee as section 4.1 of the specification words it, to be
    compared with [minimumFee]: (1) the fee for the size, (2) zero when
    free transactions are allowed, the transaction is free-eligible and
    smaller than 1000 bytes, (3) the increment when the fee is below it and
    some output is below one bitcent, (4) clamped to [0, max_amount]. *)
Definition clamp (lo hi x : Z) : Z := Z.max lo (Z.min hi x).

Definition fee_steps_1_2 (incr : Z) (txLen : Z)
  (prevOutputs : list wtxmgr.Credit) (height : Z) (disallowFree : bool) : Z :=
  if negb disallowFree && allowNoFeeTx height prevOutputs txLen
     && (txLen <? 1000)
  then 0
  else feeForSize incr txLen.

Definition anyBelowBitcent (outputs : list wire.txout) : bool :=
  existsb (fun txOut => wire.Value txOut <? SatoshiPerBitcent) outputs.

Definition minimumFee_by_steps (incr : Z) (txLen : Z)
  (outputs : list wire.txout) (prevOutputs : list wtxmgr.Credit)
  (height : Z) (disallowFree : bool) : Z :=
  let fee := fee_steps_1_2 incr txLen prevOutputs height disallowFree in
  let fee := if (fee <? incr) && anyBelowBitcent outputs then incr else fee in
  clamp 0 MaxSatoshi fee.

(* ===================================================================== *)
(** ** Building the transaction ([createtx.go]) *)
(* ===================================================================== *)

(** [CreatedTx]; a nil [ChangeAddr] is [None]. *)
Record CreatedTx := mkCreatedTx {
  MsgTx : wire.MsgTx;
  ChangeAddr : option Address;
  ChangeIndex : Z
}.

Section CreateTx.

Variable W : World.
Variable chainParams : chaincfg.Params.

(** [func addOutputs(msgtx, pairs, chainParams) (coinutil.Amount, error)];
    [pairs] lists the map in the order the [range] visits it.  The
    transaction is updated in place, so it is returned as well. *)
Fixpoint addOutputs_from (minAmount : Z) (msgtx : wire.MsgTx)
  (pairs : list (string * Z)) : wire.MsgTx * Z * option error :=
  match pairs with
  | [] => (msgtx, minAmount, None)
  | (addrStr, amt) :: rest =>
    if amt <=? 0 then (msgtx, minAmount, Some ErrNonPositiveAmount)
    else
      let minAmount := int64 (minAmount + amt) in
      match DecodeAddress W addrStr chainParams with
      | inl e => (msgtx, minAmount, Some (Errorf "cannot decode address: %s" e))
      | inr addr =>
        match PayToAddrScript W addr with
        | inl e =>
          (msgtx, minAmount, Some (Errorf "cannot create txout script: %s" e))
        | inr pkScript =>
          let txout := wire.NewTxOut (int64 amt) pkScript in
          addOutputs_from minAmount (wire.AddTxOut msgtx txout) rest
        end
      end
  end.

Definition addOutputs (msgtx : wire.MsgTx) (pairs : list (string * Z))
  : wire.MsgTx * Z * option error :=
  addOutputs_from 0 msgtx pairs.

(** Exchange the elements at [r] and [c]:
    [s[r], s[c] = s[c], s[r]]; an index out of range panics. *)
Definition swap {A} (s : list A) (r c : nat) : outcome (list A) :=
  match s !! r, s !! c with
  | Some x, Some y => Ok (<[r := y]> (<[c := x]> s))
  | _, _ => Panic
  end.

(** [func addChange(msgtx, change, changeAddr) (int, error)];
    [k] numbers the random generator created by this call. *)
Definition addChange (k : nat) (msgtx : wire.MsgTx) (change : Z)
  (changeAddr : Address) : outcome (wire.MsgTx * Z) :=
  pkScript <- wrapErr "cannot create txout script: %s"
                      (PayToAddrScript W changeAddr) ;;
  let msgtx := wire.AddTxOut msgtx (wire.NewTxOut (int64 change) pkScript) in
  let n := int32 (Z.of_nat (length (wire.TxOut msgtx))) in
  if n <=? 0 then Panic
  else
    let r := Int31n W k n in
    let c := (length (wire.TxOut msgtx) - 1)%nat in
    if r <? 0 then Panic
    else
      outs <- swap (wire.TxOut msgtx) (Z.to_nat r) c ;;
      Ok (wire.set_TxOut msgtx outs, int r).

Variable mgr : waddrmgr.Manager.

(** The body of the loop of [signMsgTx] for input [i]. *)
Definition signInput (msgtx : wire.MsgTx) (i : nat) (output : wtxmgr.Credit)
  : outcome wire.MsgTx :=
  let '(_, addrs, _, _) :=
    ExtractPkScriptAddrs W (wtxmgr.PkScript output) chainParams in
  match addrs with
  | [addr] =>
    match addr with
    | AddressPubKeyHash _ =>
      ai <- wrapErr "cannot get address info: %v" (waddrmgr.Address mgr addr) ;;
      match ai with
      | waddrmgr.ManagedPubKeyAddress PrivKey _ =>
        privkey <- wrapErr "cannot get private key: %v" PrivKey ;;
        sigscript <- wrapErr "cannot create sigscript: %s"
                       (SignatureScript W msgtx i (wtxmgr.PkScript output)
                                        privkey (waddrmgr.Compressed ai)) ;;
        Ok (wire.set_SignatureScript msgtx i sigscript)
      | _ => Panic
      end
    | _ => Err ErrUnsupportedTransactionType
    end
  | _ => Ok msgtx
  end.

Fixpoint signInputs (msgtx : wire.MsgTx) (i : nat)
  (prevOutputs : list wtxmgr.Credit) : outcome wire.MsgTx :=
  match prevOutputs with
  | [] => Ok msgtx
  | output :: rest =>
    msgtx <- signInput msgtx i output ;;
    signInputs msgtx (S i) rest
  end.

(** [func signMsgTx(msgtx, prevOutputs, mgr, chainParams) error] *)
Definition signMsgTx (msgtx : wire.MsgTx) (prevOutputs : list wtxmgr.Credit)
  : outcome wire.MsgTx :=
  if negb (length prevOutputs =? length (wire.TxIn msgtx))%nat
  then Err (ErrPrevOutputsMismatch (length prevOutputs)
                                   (length (wire.TxIn msgtx)))
  else signInputs msgtx 0 prevOutputs.

(** The addresses [txscript.ExtractPkScriptAddrs] finds in a script. *)
Definition addrsOf (script : Script) : list Address :=
  snd (fst (fst (ExtractPkScriptAddrs W script chainParams))).

(** An input the loop of [signMsgTx] passes over with [continue]. *)
Definition skipped (output : wtxmgr.Credit) : Prop :=
  length (addrsOf (wtxmgr.PkScript output)) <> 1%nat.

(** An input the loop signs: one pay-to-pubkey-hash address, whose
    managed address has a private key that the script library signs
    with. *)
Definition signable (output : wtxmgr.Credit) : Prop :=
  exists h key c,
    addrsOf (wtxmgr.PkScript output) = [AddressPubKeyHash h]
    /\ waddrmgr.Address mgr (AddressPubKeyHash h)
       = inr (waddrmgr.ManagedPubKeyAddress (inr key) c)
    /\ forall tx i, exists sigscript,
         SignatureScript W tx i (wtxmgr.PkScript output) key c = inr sigscript.

Fixpoint validateInputs (msgtx : wire.MsgTx) (prevOutputs : list wtxmgr.Credit)
  (i n : nat) : outcome unit :=
  match n with
  | O => Ok tt
  | S n' =>
    match prevOutputs !! i with
    | None => Panic
    | Some prev =>
      match NewEngine W (wtxmgr.PkScript prev) msgtx i with
      | Some e => Err (Errorf "cannot create script engine: %s" e)
      | None =>
        match Execute W (wtxmgr.PkScript prev) msgtx i with
        | Some e => Err (Errorf "cannot validate transaction: %s" e)
        | None => validateInputs msgtx prevOutputs (S i) n'
        end
      end
    end
  end.

(** [func validateMsgTx(msgtx, prevOutputs) error] *)
Definition validateMsgTx (msgtx : wire.MsgTx) (prevOutputs : list wtxmgr.Credit)
  : outcome unit :=
  validateInputs msgtx prevOutputs 0 (length (wire.TxIn msgtx)).

Variable bs : waddrmgr.BlockStamp.
Variable feeIncrement : Z.
Variable account : Z.
Variable changeAddress : Z -> result Address.
Variable disallowFree : bool.

(** The local variables of [createTx] that its loops update. *)
Record vars := mkVars {
  eligible : list wtxmgr.Credit;
  inputs : list wtxmgr.Credit;
  msgtx : wire.MsgTx;
  totalAdded : Z;
  szEst : Z;
  feeEst : Z;
  changeAddr : option Address;
  changeIdx : Z;
  rngCalls : nat
}.

(** [input, eligible = eligible[0], eligible[1:]] and the three
    statements that every selection loop runs afterwards. *)
Definition takeInput (input : wtxmgr.Credit) (rest : list wtxmgr.Credit)
  (v : vars) : vars :=
  mkVars rest (inputs v ++ [input])
         (wire.AddTxIn (msgtx v) (wire.NewTxIn (wtxmgr.OutPoint input) []))
         (int64 (totalAdded v + wtxmgr.Amount input))
         (szEst v) (feeEst v) (changeAddr v) (changeIdx v) (rngCalls v).

(** [for totalAdded < minAmount { ... }] *)
Fixpoint coverOutputs (minAmount : Z) (el : list wtxmgr.Credit) (v : vars)
  : outcome vars :=
  if totalAdded v <? minAmount then
    match el with
    | [] => Err (InsufficientFundsError (totalAdded v) minAmount 0)
    | input :: rest => coverOutputs minAmount rest (takeInput input rest v)
    end
  else Ok v.

Definition reestimate (v : vars) : vars :=
  let sz := int (szEst v + txInEstimate) in
  mkVars (eligible v) (inputs v) (msgtx v) (totalAdded v) sz
         (minimumFee feeIncrement sz (wire.TxOut (msgtx v)) (inputs v)
                     (waddrmgr.Height bs) disallowFree)
         (changeAddr v) (changeIdx v) (rngCalls v).

(** [for totalAdded < minAmount+feeEst { ... }]; the source has this loop
    twice, before and inside the fee loop. *)
Fixpoint coverFee (minAmount : Z) (el : list wtxmgr.Credit) (v : vars)
  : outcome vars :=
  if totalAdded v <? int64 (minAmount + feeEst v) then
    match el with
    | [] => Err (InsufficientFundsError (totalAdded v) minAmount (feeEst v))
    | input :: rest =>
      coverFee minAmount rest (reestimate (takeInput input rest v))
    end
  else Ok v.

Definition set_fee (v : vars) (sz fee : Z) : vars :=
  mkVars (eligible v) (inputs v) (msgtx v) (totalAdded v) sz fee
         (changeAddr v) (changeIdx v) (rngCalls v).

Definition set_msgtx (v : vars) (m : wire.MsgTx) : vars :=
  mkVars (eligible v) (inputs v) m (totalAdded v) (szEst v) (feeEst v)
         (changeAddr v) (changeIdx v) (rngCalls v).

Definition set_change (v : vars) (m : wire.MsgTx) (a : Address) (idx : Z)
  : vars :=
  mkVars (eligible v) (inputs v) m (totalAdded v) (szEst v) (feeEst v)
         (Some a) idx (S (rngCalls v)).

(** [tmp := TxOut[:changeIdx]; tmp = append(tmp, TxOut[changeIdx+1:]...)] *)
Definition removeAt {A} (i : Z) (s : list A) : outcome (list A) :=
  if (i <? 0) || (Z.of_nat (length s) <=? i) then Panic
  else Ok (firstn (Z.to_nat i) s ++ skipn (S (Z.to_nat i)) s).

(** How one pass through the body of [for { ... }] ends. *)
Inductive pass := Again (v : vars) | Done (v : vars).

(** The body of the fee loop. *)
Definition feeLoopBody (minAmount : Z) (v : vars) : outcome pass :=
  let change := int64 (int64 (totalAdded v - minAmount) - feeEst v) in
  v <- (if change >? 0 then
          addr <- match changeAddr v with
                  | Some a => Ok a
                  | None => passErr (changeAddress account)
                  end ;;
          r <- addChange (rngCalls v) (msgtx v) change addr ;;
          Ok (set_change v (fst r) addr (snd r))
        else Ok v) ;;
  signed <- signMsgTx (msgtx v) (inputs v) ;;
  let v := set_msgtx v signed in
  if feeForSize feeIncrement (int (SerializeSize W (msgtx v))) <=? feeEst v
  then Ok (Done v)
  else
    v <- (if change >? 0 then
            outs <- removeAt (changeIdx v) (wire.TxOut (msgtx v)) ;;
            Ok (set_msgtx v (wire.set_TxOut (msgtx v) outs))
          else Ok v) ;;
    let v := set_fee v (szEst v) (int64 (feeEst v + feeIncrement)) in
    v <- coverFee minAmount (eligible v) v ;;
    Ok (Again v).

(** [for { ... }], cut off after [fuel] passes. *)
Fixpoint feeLoop (fuel : nat) (minAmount : Z) (v : vars) : outcome vars :=
  match fuel with
  | O => OutOfFuel
  | S fuel' =>
    p <- feeLoopBody minAmount v ;;
    match p with
    | Done v' => Ok v'
    | Again v' => feeLoop fuel' minAmount v'
    end
  end.

(** [func createTx(eligible, outputs, bs, feeIncrement, mgr, account,
    changeAddress, chainParams, disallowFree)], which returns a [CreatedTx]
    or an error; [credits] is the slice passed as [eligible].  The part
    before the fee loop is [selectInputs]: it yields [minAmount] and the
    local variables with which the loop is entered. *)
Definition selectInputs (credits : list wtxmgr.Credit)
  (outputs : list (string * Z)) : outcome (Z * vars) :=
  let '(msgtx0, minAmount, err) := addOutputs wire.NewMsgTx outputs in
  match err with
  | Some e => Err e
  | None =>
    let sorted := sortReverseByAmount W credits in
    v <- coverOutputs minAmount sorted
           (mkVars sorted [] msgtx0 0 0 0 None (-1) 0) ;;
    let sz := estimateTxSize (Z.of_nat (length (inputs v)))
                             (Z.of_nat (length (wire.TxOut (msgtx v)))) in
    let v := set_fee v sz
               (minimumFee feeIncrement sz (wire.TxOut (msgtx v)) (inputs v)
                           (waddrmgr.Height bs) disallowFree) in
    v <- coverFee minAmount (eligible v) v ;;
    Ok (minAmount, v)
  end.

Definition createTx (fuel : nat) (credits : list wtxmgr.Credit)
  (outputs : list (string * Z)) : outcome CreatedTx :=
  mv <- selectInputs credits outputs ;;
  v <- feeLoop fuel (fst mv) (snd mv) ;;
  _ <- validateMsgTx (msgtx v) (inputs v) ;;
  Ok (mkCreatedTx (msgtx v) (changeAddr v) (changeIdx v)).

End CreateTx.


(** The selection loops keep the inputs and the rest of the sorted
    credits together, and [totalAdded] is the wrapped sum of the inputs. *)
Definition selecting (sorted : list wtxmgr.Credit) (v : vars) : Prop :=
  inputs v ++ eligible v = sorted
  /\ totalAdded v = int64 (sumAmounts (inputs v)).

(** What holds of the variables each time the fee loop is entered, when
    no amount wraps around: the estimate is covered, and inputs and
    remaining credits add up to the total [T] of all credits. *)
Definition loopInv (T minAmount : Z) (v : vars) : Prop :=
  0 <= feeEst v
  /\ minAmount + feeEst v <= totalAdded v
  /\ totalAdded v + sumAmounts (eligible v) = T
  /\ Forall nonNegative (eligible v).

(** A number that every pass of the fee loop lowers. *)
Definition passesLeft (T feeIncrement : Z) (v : vars) : Z :=
  Z.of_nat (length (eligible v)) * (T / feeIncrement + 1)
  + (T / feeIncrement - feeEst v / feeIncrement).

(** The variables after [feeEst += feeIncrement], before more inputs are
    taken. *)
Definition raisedFrom (feeIncrement : Z) (v v1 : vars) : Prop :=
  eligible v1 = eligible v /\ inputs v1 = inputs v
  /\ totalAdded v1 = totalAdded v
  /\ feeEst v1 = int64 (feeEst v + feeIncrement).

(* ===================================================================== *)
(** ** The wallet: lock set and eligible outputs ([wallet.go], [createtx.go]) *)
(* ===================================================================== *)

(** The fields of [Wallet] read or written here.  [UnspentOutputs] is
    what [w.TxStore.UnspentOutputs()] returns during the call. *)
Record Wallet := mkWallet {
  Manager : waddrmgr.Manager;
  UnspentOutputs : result (list wtxmgr.Credit);
  lockedOutpoints : gmap wire.OutPoint unit;
  FeeIncrement : Z;
  DisallowFree : bool;
  chainParams : chaincfg.Params
}.

Definition set_lockedOutpoints (w : Wallet) (m : gmap wire.OutPoint unit)
  : Wallet :=
  mkWallet (Manager w) (UnspentOutputs w) m (FeeIncrement w) (DisallowFree w)
           (chainParams w).

(** [func (w *Wallet) LockedOutpoint(op wire.OutPoint) bool] *)
Definition LockedOutpoint (w : Wallet) (op : wire.OutPoint) : bool :=
  match lockedOutpoints w !! op with
  | Some _ => true
  | None => false
  end.

(** [func (w *Wallet) LockOutpoint(op wire.OutPoint)] *)
Definition LockOutpoint (w : Wallet) (op : wire.OutPoint) : Wallet :=
  set_lockedOutpoints w (<[op := tt]> (lockedOutpoints w)).

(** [func (w *Wallet) UnlockOutpoint(op wire.OutPoint)] *)
Definition UnlockOutpoint (w : Wallet) (op : wire.OutPoint) : Wallet :=
  set_lockedOutpoints w (delete op (lockedOutpoints w)).

(** [func (w *Wallet) ResetLockedOutpoints()] *)
Definition ResetLockedOutpoints (w : Wallet) : Wallet :=
  set_lockedOutpoints w ∅.

(** One turn of the loop of [findEligibleOutputs]: is [output] kept?
    [addrs[0]] panics on an empty slice. *)
Definition eligibleOutput (W : World) (w : Wallet) (account minconf : Z)
  (bs : waddrmgr.BlockStamp) (output : wtxmgr.Credit) : outcome bool :=
  if negb (confirmed minconf (wtxmgr.Height output) (waddrmgr.Height bs))
  then Ok false
  else if wtxmgr.FromCoinBase output
          && negb (confirmed blockchain.CoinbaseMaturity
                             (wtxmgr.Height output) (waddrmgr.Height bs))
  then Ok false
  else if LockedOutpoint w (wtxmgr.OutPoint output) then Ok false
  else
    let '(class, addrs, _, err) :=
      ExtractPkScriptAddrs W (wtxmgr.PkScript output) (chainParams w) in
    match err, class with
    | None, txscript.PubKeyHashTy =>
      match addrs with
      | [] => Panic
      | addr :: _ =>
        match waddrmgr.AddrAccount (Manager w) addr with
        | inr addrAcct => Ok (addrAcct =? account)
        | inl _ => Ok false
        end
      end
    | _, _ => Ok false
    end.

Fixpoint filterEligible (W : World) (w : Wallet) (account minconf : Z)
  (bs : waddrmgr.BlockStamp) (unspent : list wtxmgr.Credit)
  : outcome (list wtxmgr.Credit) :=
  match unspent with
  | [] => Ok []
  | output :: rest =>
    keep <- eligibleOutput W w account minconf bs output ;;
    tail <- filterEligible W w account minconf bs rest ;;
    Ok (if keep then output :: tail else tail)
  end.

(** [func (w *Wallet) findEligibleOutputs(account, minconf, bs)] *)
Definition findEligibleOutputs (W : World) (w : Wallet) (account minconf : Z)
  (bs : waddrmgr.BlockStamp) : outcome (list wtxmgr.Credit) :=
  unspent <- passErr (UnspentOutputs w) ;;
  filterEligible W w account minconf bs unspent.

(* ===================================================================== *)
(** ** The manager locker ([wallet.go], [walletLocker]) *)
(* ===================================================================== *)

(** The goroutine [walletLocker] is one [select] in a loop; a pass of the
    loop is a step of a machine driven by what the [select] receives.
    While a [HeldUnlock] is out, the goroutine sits at [<-holdChan] and
    receives nothing else. *)
Module Locker.

Section Machine.

(** State of the address manager and the three calls the locker makes. *)
Variable M : Type.
Variable mgrUnlock : M -> list Byte.byte -> M * option ext_error.
Variable mgrLock : M -> M * option ext_error.
Variable mgrIsLocked : M -> bool.
Variable mgrChangePassphrase :
  M -> list Byte.byte -> list Byte.byte -> M * option ext_error.

(** The channel [timeout]: [None] is the nil channel, [Some false] a timer
    that has not expired, [Some true] one whose value waits to be read. *)
Record state := mkState {
  mgr : M;
  timeout : option bool;
  held : bool;
  running : bool
}.

Inductive event :=
| UnlockRequest (passphrase : list Byte.byte) (duration : Z)
| ChangePassphraseRequest (old new : list Byte.byte)
| HoldUnlockRequest
| LockStateQuery
| Quit
| LockRequest
| TimeoutFired
| Release
| TimerExpires.

Inductive reply :=
| UnlockReply (err : option ext_error)
| ChangePassphraseReply (err : option ext_error)
| HoldGranted
| HoldChannelClosed
| LockStateReply (locked : bool)
| NotifyLockStateChange (locked : bool)
| LogError (err : ext_error).

(** The tail of the loop body, reached by an explicit lock or by the
    timer: [if timeout != nil { timeout = nil; err := w.Manager.Lock() ... }] *)
Definition lockNow (s : state) : state * list reply :=
  match timeout s with
  | None => (mkState (mgr s) None false (running s), [])
  | Some _ =>
    let '(m, err) := mgrLock (mgr s) in
    (mkState m None false (running s),
     match err with
     | Some e => [LogError e]
     | None => [NotifyLockStateChange true]
     end)
  end.

(** One receive of the goroutine; [None] when the goroutine is not
    ready to receive that event in state [s]. *)
Definition step (s : state) (ev : event) : option (state * list reply) :=
  if negb (running s) then None
  else if held s then
    match ev with
    | Release =>
      match timeout s with
      | Some true => Some (lockNow s)
      | _ => Some (mkState (mgr s) (timeout s) false true, [])
      end
    | TimerExpires =>
      match timeout s with
      | Some false => Some (mkState (mgr s) (Some true) true true, [])
      | _ => None
      end
    | _ => None
    end
  else
    match ev with
    | UnlockRequest passphrase duration =>
      let '(m, err) := mgrUnlock (mgr s) passphrase in
      match err with
      | Some e => Some (mkState m (timeout s) false true, [UnlockReply (Some e)])
      | None =>
        Some (mkState m (if duration =? 0 then None else Some false) false true,
              [NotifyLockStateChange false; UnlockReply None])
      end
    | ChangePassphraseRequest old new =>
      let '(m, err) := mgrChangePassphrase (mgr s) old new in
      Some (mkState m (timeout s) false true, [ChangePassphraseReply err])
    | HoldUnlockRequest =>
      if mgrIsLocked (mgr s) then Some (s, [HoldChannelClosed])
      else Some (mkState (mgr s) (timeout s) true true, [HoldGranted])
    | LockStateQuery => Some (s, [LockStateReply (mgrIsLocked (mgr s))])
    | Quit => Some (mkState (mgr s) (timeout s) false false, [])
    | LockRequest => Some (lockNow s)
    | TimeoutFired =>
      match timeout s with
      | Some true => Some (lockNow s)
      | _ => None
      end
    | Release => None
    | TimerExpires =>
      match timeout s with
      | Some false => Some (mkState (mgr s) (Some true) false true, [])
      | _ => None
      end
    end.

(** A sequence of receives, with everything sent in reply. *)
Fixpoint run (s : state) (evs : list event) : option (state * list reply) :=
  match evs with
  | [] => Some (s, [])
  | ev :: rest =>
    match step s ev with
    | None => None
    | Some (s', out) =>
      match run s' rest with
      | None => None
      | Some (s'', out') => Some (s'', out ++ out')
      end
    end
  end.

(** [func (w *Wallet) HoldUnlock() (HeldUnlock, error)], from the reply
    to its request: a closed channel is the error "address manager is
    locked". *)
Definition HoldUnlock (s : state) : option (state * outcome unit) :=
  match step s HoldUnlockRequest with
  | Some (s', [HoldGranted]) => Some (s', Ok tt)
  | Some (s', [HoldChannelClosed]) =>
    Some (s', Err (ErrExternal "address manager is locked"%string))
  | _ => None
  end.

End Machine.

End Locker.

(** The amounts a transaction spends, read off the credits its inputs
    point at, and the fee it leaves to the miner. *)
Definition creditOf (credits : list wtxmgr.Credit) (op : wire.OutPoint)
  : option wtxmgr.Credit :=
  find (fun c => bool_decide (wtxmgr.OutPoint c = op)) credits.

Definition inputAmounts (credits : list wtxmgr.Credit) (tx : wire.MsgTx)
  : list Z :=
  map (fun ti =>
         match creditOf credits (wire.PreviousOutPoint ti) with
         | Some c => wtxmgr.Amount c
         | None => 0
         end)
      (wire.TxIn tx).

Definition outputValues (tx : wire.MsgTx) : list Z :=
  map wire.Value (wire.TxOut tx).

Definition feeOf (credits : list wtxmgr.Credit) (tx : wire.MsgTx) : Z :=
  wire.sumZ (inputAmounts credits tx) - wire.sumZ (outputValues tx).

(** "The call returns a value, and the value satisfies [P]". *)
Definition onOk {A} (o : outcome A) (P : A -> Prop) : Prop :=
  match o with
  | Ok a => P a
  | _ => False
  end.

(* ===================================================================== *)
(** ** A concrete world for the scenarios *)
(* ===================================================================== *)

(** A manager that is only its lock bit, opened by the passphrase "p". *)
Definition bitUnlock (locked : bool) (pass : list Byte.byte)
  : bool * option ext_error :=
  match pass with
  | [Byte.x70] => (false, None)
  | _ => (locked, Some "invalid passphrase"%string)
  end.

Definition bitLock (locked : bool) : bool * option ext_error := (true, None).

Definition bitChange (locked : bool) (old new : list Byte.byte)
  : bool * option ext_error := (locked, None).

Module TestNet.

Import Byte.

(** Descending insertion sort by amount. *)
Fixpoint insertByAmount (c : wtxmgr.Credit) (l : list wtxmgr.Credit)
  : list wtxmgr.Credit :=
  match l with
  | [] => [c]
  | d :: l' =>
    if wtxmgr.Amount d <=? wtxmgr.Amount c then c :: l
    else d :: insertByAmount c l'
  end.

Definition sortCredits (l : list wtxmgr.Credit) : list wtxmgr.Credit :=
  fold_right insertByAmount [] l.

(** The 20-byte hash an address string stands for: its bytes, padded. *)
Definition hash160 (s : string) : list byte :=
  firstn 20 (list_byte_of_string s ++ repeat x00 20).

Definition decodeAddress (s : string) (_ : chaincfg.Params) : result Address :=
  inr (AddressPubKeyHash (hash160 s)).

(** [OP_DUP OP_HASH160 <20 bytes> OP_EQUALVERIFY OP_CHECKSIG] and the
    like. *)
Definition payToAddrScript (a : Address) : result Script :=
  match a with
  | AddressPubKeyHash h => inr ([x76; xa9; x14] ++ h ++ [x88; xac])
  | AddressScriptHash h => inr ([xa9; x14] ++ h ++ [x87])
  | AddressPubKey k => inr ([x21] ++ k ++ [xac])
  end.

Definition extractPkScriptAddrs (script : Script) (_ : chaincfg.Params)
  : txscript.ScriptClass * list Address * Z * option ext_error :=
  match script with
  | x76 :: xa9 :: x14 :: rest =>
    match skipn 20 rest with
    | [x88; xac] =>
      (txscript.PubKeyHashTy, [AddressPubKeyHash (firstn 20 rest)], 1, None)
    | _ => (txscript.NonStandardTy, [], 0, None)
    end
  | xa9 :: x14 :: rest =>
    match skipn 20 rest with
    | [x87] =>
      (txscript.ScriptHashTy, [AddressScriptHash (firstn 20 rest)], 1, None)
    | _ => (txscript.NonStandardTy, [], 0, None)
    end
  | _ => (txscript.NonStandardTy, [], 0, None)
  end.

(** A push of a 72-byte signature with its hash type, then a push of the
    33-byte (compressed) or 65-byte public key. *)
Definition signatureScript (_ : wire.MsgTx) (_ : nat) (_ : Script)
  (_ : waddrmgr.PrivateKey) (compressed : bool) : result Script :=
  inr ([x48] ++ repeat x30 71 ++ [x01]
       ++ (if compressed then [x21] ++ repeat x02 33
           else [x41] ++ repeat x04 65)).

Definition world : World :=
  mkWorld decodeAddress payToAddrScript extractPkScriptAddrs signatureScript
          (fun _ _ _ => None) (fun _ _ _ => None)
          wire.consensusSerializeSize sortCredits
          (fun _ n => n - 1).

(** A manager holding a compressed key for every pay-to-pubkey-hash
    address, all in account 0. *)
Definition manager : waddrmgr.Manager :=
  waddrmgr.mkManager
    (fun _ => inr (waddrmgr.ManagedPubKeyAddress (inr 1%N) true))
    (fun _ => inr 0).

Definition changeAddr0 : Address := AddressPubKeyHash (hash160 "change").

Definition tstChangeAddress (_ : Z) : result Address := inr changeAddr0.

(** An unmined credit of the given amount at output [idx] of one
    transaction, as [mockCredits] of the test file builds them. *)
Definition mockCredit (idx : N) (amount : Z) : wtxmgr.Credit :=
  wtxmgr.mkCredit (wire.mkOutPoint 7%N idx) (-1) amount
    ([x76; xa9; x14] ++ hash160 "owner" ++ [x88; xac]) false.

(** A credit mined at [height]. *)
Definition minedCredit (idx : N) (height amount : Z) : wtxmgr.Credit :=
  wtxmgr.mkCredit (wire.mkOutPoint 7%N idx) height amount
    ([x76; xa9; x14] ++ hash160 "owner" ++ [x88; xac]) false.

(** [createTx] in this world, for account 0 and a tip at [height]. *)
Definition run (height : Z) (feeIncrement : Z) (disallowFree : bool)
  (fuel : nat) (credits : list wtxmgr.Credit) (outputs : list (string * Z))
  : outcome CreatedTx :=
  createTx world chaincfg.TestNet3Params manager
           (waddrmgr.mkBlockStamp height 0%N) feeIncrement 0
           tstChangeAddress disallowFree fuel credits outputs.

(** The variables with which the fee loop is entered, and its passes. *)
Definition enter (height : Z) (feeIncrement : Z) (disallowFree : bool)
  (credits : list wtxmgr.Credit) (outputs : list (string * Z))
  : outcome (Z * vars) :=
  selectInputs world chaincfg.TestNet3Params
               (waddrmgr.mkBlockStamp height 0%N) feeIncrement disallowFree
               credits outputs.

Definition onePass (height : Z) (feeIncrement : Z) (disallowFree : bool)
  (minAmount : Z) (v : vars) : outcome pass :=
  feeLoopBody world chaincfg.TestNet3Params manager
              (waddrmgr.mkBlockStamp height 0%N) feeIncrement 0
              tstChangeAddress disallowFree minAmount v.

(** S1: the credits and the pay-list of [TestCreateTx]. *)
Definition creditsS1 : list wtxmgr.Credit :=
  [mockCredit 1 3000000; mockCredit 2 9000000; mockCredit 3 10000000;
   mockCredit 4 15000000; mockCredit 5 100000].

Definition pairsS1 : list (string * Z) :=
  [("A"%string, 15000000); ("B"%string, 10000000)].

(** Six unmined credits of 0.01 each, and a pay-list that leaves exactly
    2000 satoshi for the fee. *)
Definition sixCredits : list wtxmgr.Credit :=
  map (fun idx => mockCredit idx 1000000) [1; 2; 3; 4; 5; 6]%N.

Definition pairsExact : list (string * Z) :=
  [("A"%string, 3000000); ("B"%string, 2998000)].

(** One old credit of 0.01 and four unmined ones of 0.0025, to pay 0.01
    at an increment of 0.01 per kilobyte with the tip at 200000. *)
Definition oldAndSmall : list wtxmgr.Credit :=
  minedCredit 1 100001 1000000
  :: map (fun idx => mockCredit idx 250000) [2; 3; 4; 5]%N.

Definition pairsOne : list (string * Z) := [("A"%string, 1000000)].

(** The fee estimate at the start of each of the first [n] passes of the
    fee loop. *)
Fixpoint feeTrace (n : nat) (height feeIncrement : Z) (disallowFree : bool)
  (minAmount : Z) (v : vars) : list Z :=
  match n with
  | O => []
  | S n' =>
    feeEst v ::
    match onePass height feeIncrement disallowFree minAmount v with
    | Ok (Again v') =>
      feeTrace n' height feeIncrement disallowFree minAmount v'
    | _ => []
    end
  end.

Definition estimates (n : nat) (height feeIncrement : Z) (disallowFree : bool)
  (credits : list wtxmgr.Credit) (outputs : list (string * Z)) : list Z :=
  match enter height feeIncrement disallowFree credits outputs with
  | Ok (minAmount, v) =>
    feeTrace n height feeIncrement disallowFree minAmount v
  | _ => []
  end.

(** A wallet over the credits of S1, with nothing locked. *)
Definition wallet : Wallet :=
  mkWallet manager (inr creditsS1) ∅ 1000 false chaincfg.TestNet3Params.

(** A transaction spending the first credit of S1, unsigned. *)
Definition spendFirst : wire.MsgTx :=
  wire.AddTxIn wire.NewMsgTx
               (wire.NewTxIn (wtxmgr.OutPoint (mockCredit 1 3000000)) []).

End TestNet.

(* ===================================================================== *)
(** ** Balances and listings ([wallet.go]) *)
(* ===================================================================== *)

(** One turn of the loop of [CalculateAccountBalance]: is the amount of
    [output] added?  [outputAcct] starts as 0 and is looked up only when
    the script yields an address without error. *)
Definition countsForAccount (W : World) (w : Wallet) (account confirms : Z)
  (syncBlock : waddrmgr.BlockStamp) (output : wtxmgr.Credit) : bool :=
  if negb (confirmed confirms (wtxmgr.Height output)
                     (waddrmgr.Height syncBlock))
  then false
  else if wtxmgr.FromCoinBase output
          && negb (confirmed blockchain.CoinbaseMaturity
                             (wtxmgr.Height output)
                             (waddrmgr.Height syncBlock))
  then false
  else
    let '(_, addrs, _, err) :=
      ExtractPkScriptAddrs W (wtxmgr.PkScript output) (chainParams w) in
    match err, addrs with
    | None, addr :: _ =>
      match waddrmgr.AddrAccount (Manager w) addr with
      | inr outputAcct => outputAcct =? account
      | inl _ => false
      end
    | None, [] => 0 =? account
    | Some _, _ => false
    end.

(** [func (w *Wallet) CalculateAccountBalance(account, confirms)];
    [syncBlock] is what [w.Manager.SyncedTo()] returns. *)
Definition CalculateAccountBalance (W : World) (w : Wallet)
  (syncBlock : waddrmgr.BlockStamp) (account confirms : Z) : outcome Z :=
  unspent <- passErr (UnspentOutputs w) ;;
  Ok (fold_left
        (fun bal output =>
           if countsForAccount W w account confirms syncBlock output
           then int64 (bal + wtxmgr.Amount output)
           else bal)
        unspent 0).

Module btcjson.
Record TransactionInput := mkTransactionInput { Txid : string; Vout : N }.
End btcjson.

(** [func (w *Wallet) LockedOutpoints() []btcjson.TransactionInput];
    [hashString] is [ShaHash.String], and the map is visited in the order
    of [map_to_list]. *)
Definition LockedOutpoints (hashString : N -> string) (w : Wallet)
  : list btcjson.TransactionInput :=
  map (fun entry =>
         btcjson.mkTransactionInput (hashString (wire.Hash (fst entry)))
                                    (wire.Index (fst entry)))
      (map_to_list (lockedOutpoints w)).

(** The outputs [addOutputs] appends for a pay-list: one for each pair,
    in order, with the amount as value and the script of the decoded
    address. *)
Inductive paysFor (W : World) (chainParams : chaincfg.Params)
  : list (string * Z) -> list wire.txout -> Prop :=
| paysFor_nil : paysFor W chainParams [] []
| paysFor_cons addrStr amt addr pkScript pairs outs :
    0 < amt ->
    DecodeAddress W addrStr chainParams = inr addr ->
    PayToAddrScript W addr = inr pkScript ->
    paysFor W chainParams pairs outs ->
    paysFor W chainParams ((addrStr, amt) :: pairs)
            (wire.mkTxOut (int64 amt) pkScript :: outs).

(** What signing may change: only the signature scripts. *)
Definition sameButSignatures (tx tx' : wire.MsgTx) : Prop :=
  wire.Version tx' = wire.Version tx
  /\ wire.LockTime tx' = wire.LockTime tx
  /\ wire.TxOut tx' = wire.TxOut tx
  /\ map wire.PreviousOutPoint (wire.TxIn tx')
     = map wire.PreviousOutPoint (wire.TxIn tx)
  /\ map wire.Sequence (wire.TxIn tx') = map wire.Sequence (wire.TxIn tx).

(* ===================================================================== *)
(** ** Building under a hold ([createtx.go], [txToPairs]) *)
(* ===================================================================== *)

(** How many holds a sequence of replies grants, and how many releases a
    sequence of events carries. *)
Definition grants (out : list Locker.reply) : nat :=
  length (List.filter
            (fun r => match r with Locker.HoldGranted => true | _ => false end)
            out).

Definition releases (evs : list Locker.event) : nat :=
  length (List.filter
            (fun ev => match ev with Locker.Release => true | _ => false end)
            evs).

Definition holdsOut {M} (s : Locker.state M) : nat :=
  if Locker.held M s then 1%nat else 0%nat.

(** The part of [txToPairs] that runs while the hold is out: the block
    stamp of the chain server, the eligible outputs, and [createTx] with
    the settings of the wallet. *)
Definition buildTx (W : World) (w : Wallet)
  (blockStamp : result waddrmgr.BlockStamp)
  (newChangeAddress : Z -> result Address) (fuel : nat)
  (pairs : list (string * Z)) (account minconf : Z) : outcome CreatedTx :=
  bs <- passErr blockStamp ;;
  eligible <- findEligibleOutputs W w account minconf bs ;;
  createTx W (chainParams w) (Manager w) bs (FeeIncrement w) account
           newChangeAddress (DisallowFree w) fuel eligible pairs.

Section TxToPairs.

Variable M : Type.
Variable mgrUnlock : M -> list Byte.byte -> M * option ext_error.
Variable mgrLock : M -> M * option ext_error.
Variable mgrIsLocked : M -> bool.
Variable mgrChangePassphrase :
  M -> list Byte.byte -> list Byte.byte -> M * option ext_error.

(** [func (w *Wallet) txToPairs(pairs, account, minconf)], seen from the
    locker: the hold is requested, the transaction is built, and the
    deferred release is sent whatever the build returned.  [expires] says
    whether a running lock timer runs out during the build; [None] means
    that the locker does not answer. *)
Definition txToPairs (W : World) (w : Wallet) (s : Locker.state M)
  (expires : bool) (blockStamp : result waddrmgr.BlockStamp)
  (newChangeAddress : Z -> result Address) (fuel : nat)
  (pairs : list (string * Z)) (account minconf : Z)
  : option (Locker.state M * list Locker.reply * outcome CreatedTx) :=
  match Locker.HoldUnlock M mgrUnlock mgrLock mgrIsLocked mgrChangePassphrase s
  with
  | None => None
  | Some (s1, Err e) => Some (s1, [], Err e)
  | Some (s1, Panic) => Some (s1, [], Panic)
  | Some (s1, OutOfFuel) => Some (s1, [], OutOfFuel)
  | Some (s1, Ok _) =>
    let built :=
      buildTx W w blockStamp newChangeAddress fuel pairs account minconf in
    let s2 :=
      if expires then
        match Locker.step M mgrUnlock mgrLock mgrIsLocked mgrChangePassphrase
                          s1 Locker.TimerExpires with
        | Some (s', _) => s'
        | None => s1
        end
      else s1 in
    match Locker.step M mgrUnlock mgrLock mgrIsLocked mgrChangePassphrase
                      s2 Locker.Release with
    | Some (s3, out) => Some (s3, out, built)
    | None => None
    end
  end.

End TxToPairs.

(** What ties the transaction under construction to the selection: its
    inputs spend the selected credits, in order, and its outputs are the
    payments, in some order. *)
Definition spending (payOuts : list wire.txout) (v : vars) : Prop :=
  map wire.PreviousOutPoint (wire.TxIn (msgtx v))
  = map wtxmgr.OutPoint (inputs v)
  /\ Permutation (wire.TxOut (msgtx v)) payOuts.

(* ===================================================================== *)
(** ** Theorems *)
(* ===================================================================== *)

(** *** Wrap-around arithmetic *)

Lemma int32_id z : is_int32 z -> int32 z = z.
Proof.
  unfold is_int32, MinInt32, MaxInt32, int32, wrap. intros H.
  change (2 ^ (32 - 1)) with 2147483648. change (2 ^ 32) with 4294967296.
  change (2 ^ 31) with 2147483648 in H.
  rewrite Z.mod_small by lia. lia.
Qed.

Lemma int64_id z : is_int64 z -> int64 z = z.
Proof.
  unfold is_int64, MinInt64, MaxInt64, int64, wrap. intros H.
  change (2 ^ (64 - 1)) with 9223372036854775808.
  change (2 ^ 64) with 18446744073709551616.
  change (2 ^ 63) with 9223372036854775808 in H.
  rewrite Z.mod_small by lia. lia.
Qed.

Lemma int_id z : is_int64 z -> int z = z.
Proof. exact (int64_id z). Qed.

Lemma is_int64_bounds z :
  z <= MaxInt64 -> -9223372036854775808 <= z ->
  -9223372036854775808 <= z <= 9223372036854775807.
Proof. unfold MaxInt64. change (2 ^ 63) with 9223372036854775808. lia. Qed.

Lemma is_int64_intro z :
  -9223372036854775808 <= z <= 9223372036854775807 -> is_int64 z.
Proof.
  unfold is_int64, MinInt64, MaxInt64.
  change (2 ^ 63) with 9223372036854775808. lia.
Qed.

Lemma is_int32_intro z : -2147483648 <= z <= 2147483647 -> is_int32 z.
Proof.
  unfold is_int32, MinInt32, MaxInt32.
  change (2 ^ 31) with 2147483648. lia.
Qed.

Lemma is_int64_elim z :
  is_int64 z -> -9223372036854775808 <= z <= 9223372036854775807.
Proof.
  unfold is_int64, MinInt64, MaxInt64.
  change (2 ^ 63) with 9223372036854775808. lia.
Qed.

(** Side conditions "this value fits its type". *)
Ltac in_range :=
  first [ apply is_int64_intro | apply is_int32_intro ]; lia.

Lemma int32_range z : is_int32 (int32 z).
Proof.
  unfold is_int32, MinInt32, MaxInt32, int32, wrap.
  change (2 ^ (32 - 1)) with 2147483648. change (2 ^ 32) with 4294967296.
  change (2 ^ 31) with 2147483648.
  pose proof (Z.mod_pos_bound (z + 2147483648) 4294967296). lia.
Qed.


(** Wrapping is a ring homomorphism: inner wraps can be dropped. *)
Lemma int64_eqm z : (int64 z) mod 2 ^ 64 = z mod 2 ^ 64.
Proof.
  unfold int64, wrap.
  change (2 ^ (64 - 1)) with 9223372036854775808.
  change (2 ^ 64) with 18446744073709551616.
  rewrite Zminus_mod, Zmod_mod, <- Zminus_mod. f_equal. lia.
Qed.

Lemma int64_congr a b : a mod 2 ^ 64 = b mod 2 ^ 64 -> int64 a = int64 b.
Proof.
  unfold int64, wrap. intros H.
  rewrite (Zplus_mod a), (Zplus_mod b), H. reflexivity.
Qed.

Lemma int64_add_l a b : int64 (int64 a + b) = int64 (a + b).
Proof.
  apply int64_congr. rewrite Zplus_mod, int64_eqm, <- Zplus_mod. reflexivity.
Qed.

Lemma int64_add_r a b : int64 (a + int64 b) = int64 (a + b).
Proof. rewrite Z.add_comm, int64_add_l. f_equal. lia. Qed.


(** *** Size estimate *)

Lemma estimateTxSize_constants :
  txOverheadEstimate = 10 /\ txInEstimate = 146 /\ txOutEstimate = 34.
Proof. repeat split. Qed.

(** C4, as the spec states it, fails: one input and no output are
    estimated at 156 bytes, not at [10 + 148]. *)
Lemma estimateTxSize_input_not_148 :
  estimateTxSize 1 0 <> 10 + 148 * 1 + 34 * 0.
Proof. vm_compute. discriminate. Qed.

(** C4 (amended): for non-negative counts whose estimate fits in an [int],
    [estimateTxSize n_in n_out = 10 + 146 * n_in + 34 * n_out]. *)
Theorem estimateTxSize_formula (n_in n_out : Z) :
  0 <= n_in -> 0 <= n_out ->
  10 + 146 * n_in + 34 * n_out <= MaxInt64 ->
  estimateTxSize n_in n_out = 10 + 146 * n_in + 34 * n_out.
Proof.
  intros Hin Hout Hfit. apply is_int64_bounds in Hfit as Hfit'; [ | lia ].
  unfold estimateTxSize.
  destruct estimateTxSize_constants as (-> & -> & ->).
  rewrite (int_id (146 * n_in)) by in_range.
  rewrite (int_id (10 + 146 * n_in)) by in_range.
  rewrite (int_id (34 * n_out)) by in_range.
  rewrite int_id by in_range. reflexivity.
Qed.

Lemma estimateTxSize_formula_witness :
  estimateTxSize 3 2 = 10 + 146 * 3 + 34 * 2.
Proof. apply estimateTxSize_formula; vm_compute; intros; discriminate. Defined.

(** *** Confirmations *)

(** C10, as the spec states it, fails: at the last [int32] height a
    transaction mined in block 0 has a negative confirmation count. *)
Lemma confirms_negative_at_MaxInt32 :
  is_int32 0 /\ is_int32 2147483647 /\ confirms 0 2147483647 < 0.
Proof. vm_compute. repeat split; intros; discriminate. Qed.

Lemma confirms_unmined curHeight : confirms (-1) curHeight = 0.
Proof. reflexivity. Qed.

Lemma confirms_above_tip txHeight curHeight :
  txHeight > curHeight -> confirms txHeight curHeight = 0.
Proof.
  intros H. unfold confirms.
  destruct (txHeight >? curHeight) eqn:E; [ now rewrite orb_true_r | lia ].
Qed.

Lemma confirms_nonneg txHeight curHeight :
  curHeight - txHeight < MaxInt32 -> 0 <= confirms txHeight curHeight.
Proof.
  intros H. unfold confirms.
  destruct (txHeight =? -1) eqn:E1; [ simpl; lia | ].
  destruct (txHeight >? curHeight) eqn:E2; simpl; [ lia | ].
  unfold MaxInt32 in H. change (2 ^ 31) with 2147483648 in H.
  rewrite (int32_id (curHeight - txHeight));
    [ rewrite int32_id | ]; unfold is_int32, MinInt32, MaxInt32;
    change (2 ^ 31) with 2147483648; lia.
Qed.

Lemma filterEligible_confirmed W w account minconf bs unspent l c :
  filterEligible W w account minconf bs unspent = Ok l ->
  In c l ->
  confirmed minconf (wtxmgr.Height c) (waddrmgr.Height bs) = true.
Proof.
  revert l. induction unspent as [| o rest IH]; simpl; intros l Hl Hc.
  - inversion Hl; subst. destruct Hc.
  - destruct (eligibleOutput W w account minconf bs o) as [keep| | |] eqn:Ek;
      try discriminate.
    simpl in Hl.
    destruct (filterEligible W w account minconf bs rest) as [tl| | |];
      try discriminate.
    simpl in Hl. inversion Hl; subst. clear Hl.
    destruct keep; [ destruct Hc as [-> | Hc] | ]; eauto.
    unfold eligibleOutput in Ek.
    destruct (confirmed minconf (wtxmgr.Height c) (waddrmgr.Height bs));
      [ reflexivity | simpl in Ek; discriminate ].
Qed.

(** C10 (amended): [confirms] is 0 for an unmined transaction and for
    one above the tip, it is non-negative whenever the distance between
    the two heights stays below the largest [int32], and
    [findEligibleOutputs] with [minconf >= 1] returns no credit that is
    unmined or recorded above the tip. *)
Theorem confirms_zero_or_counted (txHeight curHeight : Z) :
  (txHeight = -1 -> confirms txHeight curHeight = 0)
  /\ (txHeight > curHeight -> confirms txHeight curHeight = 0)
  /\ (curHeight - txHeight < MaxInt32 -> 0 <= confirms txHeight curHeight)
  /\ (forall minconf, 1 <= minconf ->
      txHeight = -1 \/ txHeight > curHeight ->
      confirmed minconf txHeight curHeight = false)
  /\ (forall W w account minconf bs l c,
      1 <= minconf ->
      waddrmgr.Height bs = curHeight ->
      wtxmgr.Height c = txHeight ->
      findEligibleOutputs W w account minconf bs = Ok l ->
      In c l ->
      txHeight <> -1 /\ txHeight <= curHeight).
Proof.
  assert (Hzero : txHeight = -1 \/ txHeight > curHeight ->
                  confirms txHeight curHeight = 0).
  { intros [-> | H]; [ apply confirms_unmined | now apply confirms_above_tip ]. }
  assert (Hconf : forall minconf, 1 <= minconf ->
            txHeight = -1 \/ txHeight > curHeight ->
            confirmed minconf txHeight curHeight = false).
  { intros minconf Hm H. unfold confirmed. rewrite (Hzero H).
    destruct (0 >=? minconf) eqn:E; [ lia | reflexivity ]. }
  split; [ | split; [ | split; [ | split ] ] ].
  - intros H. apply Hzero. now left.
  - intros H. apply Hzero. now right.
  - apply confirms_nonneg.
  - exact Hconf.
  - intros W w account minconf bs l c Hm Hbs Hc Hfind Hin.
    unfold findEligibleOutputs in Hfind.
    destruct (UnspentOutputs w) as [e | unspent]; [ discriminate | ].
    simpl in Hfind.
    pose proof (filterEligible_confirmed _ _ _ _ _ _ _ _ Hfind Hin) as Hok.
    rewrite Hbs, Hc in Hok.
    split.
    + intros Heq. rewrite Hconf in Hok; [ discriminate | lia | now left ].
    + destruct (Z_le_gt_dec txHeight curHeight) as [Hle | Hgt]; [ exact Hle | ].
      rewrite Hconf in Hok; [ discriminate | lia | now right ].
Qed.

Lemma confirms_zero_or_counted_witness :
  confirms 11112 11111 = 0 /\ 0 <= confirms 100 11111
  /\ confirmed 1 11112 11111 = false.
Proof.
  destruct (confirms_zero_or_counted 11112 11111) as (_ & H2 & _ & H4 & _).
  destruct (confirms_zero_or_counted 100 11111) as (_ & _ & H3 & _).
  split; [ apply H2; lia | split; [ apply H3; vm_compute; reflexivity | ] ].
  apply H4; [ lia | right; lia ].
Defined.

(** *** The lock set *)

(** C9: locking marks the outpoint, unlocking clears it, neither
    touches another outpoint, and a reset clears every outpoint. *)
Theorem lock_set_laws (w : Wallet) (op : wire.OutPoint) :
  LockedOutpoint (LockOutpoint w op) op = true
  /\ LockedOutpoint (UnlockOutpoint w op) op = false
  /\ (forall op', op' <> op ->
       LockedOutpoint (LockOutpoint w op) op' = LockedOutpoint w op')
  /\ (forall op', op' <> op ->
       LockedOutpoint (UnlockOutpoint w op) op' = LockedOutpoint w op')
  /\ (forall op', LockedOutpoint (ResetLockedOutpoints w) op' = false).
Proof.
  unfold LockedOutpoint, LockOutpoint, UnlockOutpoint, ResetLockedOutpoints.
  simpl. split; [ | split; [ | split; [ | split ] ] ].
  - now rewrite lookup_insert_eq.
  - now rewrite lookup_delete_eq.
  - intros op' Hne. now rewrite lookup_insert_ne.
  - intros op' Hne. now rewrite lookup_delete_ne.
  - intros op'. now rewrite lookup_empty.
Qed.

(** *** The minimum fee *)

Lemma minimumFee_unfold incr txLen outputs prevOutputs height disallowFree :
  minimumFee incr txLen outputs prevOutputs height disallowFree =
  let fee := fee_steps_1_2 incr txLen prevOutputs height disallowFree in
  if (fee <? incr) && anyBelowBitcent outputs then incr
  else if (fee <? 0) || (fee >? MaxSatoshi) then MaxSatoshi
  else fee.
Proof.
  unfold minimumFee, fee_steps_1_2, anyBelowBitcent.
  destruct disallowFree; simpl; [ reflexivity | ].
  destruct (allowNoFeeTx height prevOutputs txLen); reflexivity.
Qed.

(** C5, as the spec states it, fails: with a negative increment the
    intermediate fee is negative, and [minimumFee] answers [MaxSatoshi]
    where clamping to [0, max_amount] gives 0. *)
Lemma minimumFee_negative_fee_is_not_zero :
  fee_steps_1_2 (-1000) 500 [] 0 true = -1000
  /\ minimumFee (-1000) 500 [] [] 0 true = MaxSatoshi
  /\ minimumFee_by_steps (-1000) 500 [] [] 0 true = 0
  /\ minimumFee (-1000) 500 [] [] 0 true
     <> minimumFee_by_steps (-1000) 500 [] [] 0 true.
Proof. vm_compute. repeat split; intros; discriminate. Qed.

Lemma feeForSize_in_range incr txLen :
  0 <= incr -> 0 <= txLen <= MaxInt64 ->
  (1 + txLen / 1000) * incr <= MaxInt64 ->
  feeForSize incr txLen = (1 + txLen / 1000) * incr.
Proof.
  intros Hi [Ht Ht'] Hfit. unfold feeForSize.
  rewrite Z.quot_div_nonneg by lia.
  assert (0 <= txLen / 1000) by (apply Z.div_pos; lia).
  assert (txLen / 1000 < txLen \/ txLen = 0)
    by (destruct (Z.eq_dec txLen 0); [ now right | left; apply Z.div_lt; lia ]).
  apply is_int64_bounds in Hfit; [ | nia ].
  apply is_int64_bounds in Ht'; [ | lia ].
  rewrite (int_id (1 + txLen / 1000)).
  - apply int64_id. in_range.
  - destruct H0 as [H0 | ->]; [ in_range | now vm_compute ].
Qed.

Lemma minimumFee_agrees incr txLen outputs prevOutputs height disallowFree :
  0 <= incr <= MaxSatoshi ->
  0 <= fee_steps_1_2 incr txLen prevOutputs height disallowFree ->
  minimumFee incr txLen outputs prevOutputs height disallowFree
  = minimumFee_by_steps incr txLen outputs prevOutputs height disallowFree.
Proof.
  intros Hi Hf. rewrite minimumFee_unfold. unfold minimumFee_by_steps, clamp.
  set (fee := fee_steps_1_2 incr txLen prevOutputs height disallowFree) in *.
  simpl.
  destruct ((fee <? incr) && anyBelowBitcent outputs); [ lia | ].
  destruct (fee <? 0) eqn:E0; [ lia | ].
  destruct (fee >? MaxSatoshi) eqn:E1; simpl; lia.
Qed.

(** C5 (amended): [minimumFee] returns the increment, unclamped, when
    step 3 applies; otherwise it returns the fee of steps 1-2 when that
    lies in [0, MaxSatoshi], and [MaxSatoshi] when that fee is negative or
    above [MaxSatoshi].  For an increment in [0, MaxSatoshi] and a size
    whose fee does not overflow, this is the clamp of the specification and
    the result lies in [0, MaxSatoshi]. *)
Theorem minimumFee_clamps (incr txLen : Z) (outputs : list wire.txout)
  (prevOutputs : list wtxmgr.Credit) (height : Z) (disallowFree : bool) :
  let fee := fee_steps_1_2 incr txLen prevOutputs height disallowFree in
  let result :=
    minimumFee incr txLen outputs prevOutputs height disallowFree in
  (((fee <? incr) && anyBelowBitcent outputs = true -> result = incr)
   /\ ((fee <? incr) && anyBelowBitcent outputs = false ->
       (0 <= fee <= MaxSatoshi -> result = fee)
       /\ (fee < 0 \/ MaxSatoshi < fee -> result = MaxSatoshi)))
  /\ (0 <= incr <= MaxSatoshi -> 0 <= txLen <= MaxInt64 ->
      (1 + txLen / 1000) * incr <= MaxInt64 ->
      result = minimumFee_by_steps incr txLen outputs prevOutputs height
                                   disallowFree
      /\ 0 <= result <= MaxSatoshi).
Proof.
  intros fee result. split; [ split | ].
  - intros H. unfold result. rewrite minimumFee_unfold. simpl.
    fold fee. now rewrite H.
  - intros H. unfold result. rewrite minimumFee_unfold. simpl.
    fold fee. rewrite H. split.
    + intros [H0 H1].
      destruct (fee <? 0) eqn:E0; [ lia | ].
      destruct (fee >? MaxSatoshi) eqn:E1; [ lia | reflexivity ].
    + intros [H0 | H1].
      * destruct (fee <? 0) eqn:E0; [ reflexivity | lia ].
      * destruct (fee >? MaxSatoshi) eqn:E1; [ | lia ].
        now rewrite orb_true_r.
  - intros Hi Ht Hfit.
    assert (Hfee : 0 <= fee).
    { unfold fee, fee_steps_1_2.
      destruct (negb disallowFree && allowNoFeeTx height prevOutputs txLen
                && (txLen <? 1000)); [ lia | ].
      rewrite feeForSize_in_range by lia.
      assert (0 <= txLen / 1000) by (apply Z.div_pos; lia). nia. }
    split; [ now apply minimumFee_agrees | ].
    unfold result. rewrite minimumFee_agrees by assumption.
    unfold minimumFee_by_steps, clamp.
    assert (0 <= MaxSatoshi) by (vm_compute; discriminate). lia.
Qed.

Lemma minimumFee_clamps_witness :
  minimumFee 1000 370 [] [] 11111 false
  = minimumFee_by_steps 1000 370 [] [] 11111 false
  /\ 0 <= minimumFee 1000 370 [] [] 11111 false <= MaxSatoshi.
Proof.
  apply (minimumFee_clamps 1000 370 [] [] 11111 false).
  - vm_compute. split; intros; discriminate.
  - vm_compute. split; intros; discriminate.
  - vm_compute. intros; discriminate.
Defined.

(** *** The manager locker *)

Section LockerFacts.

Context {M : Type}.
Variable mgrUnlock : M -> list Byte.byte -> M * option ext_error.
Variable mgrLock : M -> M * option ext_error.
Variable mgrIsLocked : M -> bool.
Variable mgrChangePassphrase :
  M -> list Byte.byte -> list Byte.byte -> M * option ext_error.

Local Abbreviation step :=
  (Locker.step M mgrUnlock mgrLock mgrIsLocked mgrChangePassphrase).
Local Abbreviation run :=
  (Locker.run M mgrUnlock mgrLock mgrIsLocked mgrChangePassphrase).
Local Abbreviation HoldUnlock :=
  (Locker.HoldUnlock M mgrUnlock mgrLock mgrIsLocked mgrChangePassphrase).

(** While a hold is out, the goroutine receives the release and nothing
    else; the timer may expire meanwhile, which changes neither the
    manager nor the hold. *)
Lemma step_while_held s ev s' out :
  Locker.held M s = true ->
  step s ev = Some (s', out) ->
  ev = Locker.Release
  \/ (ev = Locker.TimerExpires /\ Locker.mgr M s' = Locker.mgr M s
      /\ Locker.held M s' = true /\ out = []).
Proof.
  intros Hheld Hstep. unfold Locker.step in Hstep.
  destruct (Locker.running M s); simpl in Hstep; [ | discriminate ].
  rewrite Hheld in Hstep.
  destruct ev; try discriminate; [ now left | right ].
  destruct (Locker.timeout M s) as [[] |]; try discriminate.
  inversion Hstep; subst. simpl. auto.
Qed.

Lemma run_while_held evs : forall s s' out,
  Locker.held M s = true ->
  ~ In Locker.Release evs ->
  run s evs = Some (s', out) ->
  Locker.held M s' = true /\ Locker.mgr M s' = Locker.mgr M s /\ out = [].
Proof.
  induction evs as [| ev rest IH]; intros s s' out Hheld Hnot Hrun.
  - inversion Hrun; subst. auto.
  - simpl in Hrun.
    destruct (Locker.step M mgrUnlock mgrLock mgrIsLocked mgrChangePassphrase
                          s ev) as [[s1 out1] |] eqn:Hstep;
      [ | discriminate ].
    destruct (run s1 rest) as [[s2 out2] |] eqn:Hrest; [ | discriminate ].
    inversion Hrun; subst. clear Hrun.
    destruct (step_while_held _ _ _ _ Hheld Hstep)
      as [-> | (-> & Hm & Hh & ->)].
    + exfalso. apply Hnot. now left.
    + destruct (IH _ _ _ Hh (fun H => Hnot (or_intror H)) Hrest)
        as (H1 & H2 & ->).
      rewrite H2, Hm. auto.
Qed.

(** C8: while a [HeldUnlock] is out, neither the expired timer nor a
    lock request is received, so no sequence of events without the release
    locks the manager or reports a lock; and a hold requested while the
    manager is locked is answered with the error and leaves the state as
    it was. *)
Theorem hold_blocks_auto_lock :
  (forall s, Locker.held M s = true ->
     step s Locker.TimeoutFired = None /\ step s Locker.LockRequest = None)
  /\ (forall s evs s' out,
        Locker.held M s = true -> ~ In Locker.Release evs ->
        run s evs = Some (s', out) ->
        Locker.held M s' = true /\ Locker.mgr M s' = Locker.mgr M s
        /\ out = [])
  /\ (forall s,
        Locker.running M s = true -> Locker.held M s = false ->
        mgrIsLocked (Locker.mgr M s) = true ->
        step s Locker.HoldUnlockRequest = Some (s, [Locker.HoldChannelClosed])
        /\ HoldUnlock s
           = Some (s, Err (ErrExternal "address manager is locked"%string))).
Proof.
  split; [ | split ].
  - intros s Hheld. unfold Locker.step. rewrite Hheld.
    destruct (Locker.running M s); auto.
  - intros s evs s' out. apply run_while_held.
  - intros s Hrun Hheld Hlocked.
    unfold Locker.HoldUnlock, Locker.step.
    rewrite Hrun, Hheld, Hlocked. simpl. auto.
Qed.

End LockerFacts.

(** S6 of the specification: unlock with a timeout, take the hold, let the
    timer expire, release; the lock happens at the release and is
    reported. *)
Example hold_then_expire_then_release :
  Locker.run bool bitUnlock bitLock id bitChange
    (Locker.mkState bool true None false true)
    [Locker.UnlockRequest [Byte.x70] 10; Locker.HoldUnlockRequest;
     Locker.TimerExpires; Locker.Release; Locker.LockStateQuery]
  = Some (Locker.mkState bool true None false true,
          [Locker.NotifyLockStateChange false; Locker.UnlockReply None;
           Locker.HoldGranted; Locker.NotifyLockStateChange true;
           Locker.LockStateReply true]).
Proof. reflexivity. Qed.

Lemma hold_blocks_auto_lock_witness :
  Locker.step bool bitUnlock bitLock id bitChange
    (Locker.mkState bool false (Some true) true true) Locker.TimeoutFired
  = None
  /\ Locker.run bool bitUnlock bitLock id bitChange
       (Locker.mkState bool false (Some false) true true)
       [Locker.TimerExpires]
     = Some (Locker.mkState bool false (Some true) true true, [])
  /\ Locker.HoldUnlock bool bitUnlock bitLock id bitChange
       (Locker.mkState bool true None false true)
     = Some (Locker.mkState bool true None false true,
             Err (ErrExternal "address manager is locked"%string)).
Proof.
  destruct (hold_blocks_auto_lock bitUnlock bitLock id bitChange)
    as (H1 & H2 & H3).
  split; [ | split ].
  - apply H1. reflexivity.
  - reflexivity.
  - apply H3; reflexivity.
Defined.

(** *** Signing *)

Section Signing.

Variable W : World.
Variable chainParams : chaincfg.Params.
Variable mgr : waddrmgr.Manager.

Local Abbreviation sign1 := (signInput W chainParams mgr).
Local Abbreviation signAll := (signInputs W chainParams mgr).
Local Abbreviation sign := (signMsgTx W chainParams mgr).
Local Abbreviation addrs := (addrsOf W chainParams).
Local Abbreviation skip := (skipped W chainParams).
Local Abbreviation signs := (signable W chainParams mgr).

Lemma signInput_skipped msgtx i output :
  skip output -> sign1 msgtx i output = Ok msgtx.
Proof.
  unfold skipped, addrsOf, signInput.
  destruct (ExtractPkScriptAddrs W (wtxmgr.PkScript output) chainParams)
    as [[[class addrs] n] err].
  simpl. intros H. destruct addrs as [| a [| b rest]]; try reflexivity.
  now destruct H.
Qed.

Lemma signInput_signable msgtx i output :
  signs output -> exists msgtx', sign1 msgtx i output = Ok msgtx'.
Proof.
  intros (h & key & c & Haddrs & Hmgr & Hsig).
  unfold addrsOf in Haddrs.
  unfold signInput.
  destruct (ExtractPkScriptAddrs W (wtxmgr.PkScript output) chainParams)
    as [[[class addrs] n] err].
  simpl in Haddrs. subst addrs. rewrite Hmgr. simpl.
  destruct (Hsig msgtx i) as [sigscript ->]. simpl. eauto.
Qed.

Lemma signInput_not_pubkeyhash msgtx i output addr :
  addrs (wtxmgr.PkScript output) = [addr] ->
  (forall h, addr <> AddressPubKeyHash h) ->
  sign1 msgtx i output = Err ErrUnsupportedTransactionType.
Proof.
  unfold addrsOf, signInput.
  destruct (ExtractPkScriptAddrs W (wtxmgr.PkScript output) chainParams)
    as [[[class addrs] n] err].
  simpl. intros -> Hne. destruct addr; try reflexivity.
  now destruct (Hne hash160).
Qed.

Lemma signInputs_app pre : forall msgtx i rest,
  signAll msgtx i (pre ++ rest)
  = bind (signAll msgtx i pre)
         (fun m => signAll m (i + length pre)%nat rest).
Proof.
  induction pre as [| o pre IH]; intros msgtx i rest; simpl.
  - now rewrite Nat.add_0_r.
  - destruct (sign1 msgtx i o) as [m| | |];
      simpl; try reflexivity.
    rewrite IH. now rewrite Nat.add_succ_r.
Qed.

Lemma signInputs_passes pre : forall msgtx i,
  Forall (fun o => skip o \/ signs o) pre ->
  exists msgtx', signAll msgtx i pre = Ok msgtx'.
Proof.
  induction pre as [| o pre IH]; intros msgtx i Hall; simpl; [ eauto | ].
  inversion Hall as [| ? ? Ho Hpre]; subst.
  assert (Hone : exists m, sign1 msgtx i o = Ok m).
  { destruct Ho as [Hs | Hs];
      [ exists msgtx; now apply signInput_skipped
      | now apply signInput_signable ]. }
  destruct Hone as [m Hm]. rewrite Hm. simpl.
  now apply IH.
Qed.

Lemma signInputs_all_skipped l : forall msgtx i,
  Forall skip l -> signAll msgtx i l = Ok msgtx.
Proof.
  induction l as [| o l IH]; intros msgtx i Hall; simpl; [ reflexivity | ].
  inversion Hall; subst.
  pose proof (signInput_skipped msgtx i o ltac:(assumption)) as Hs.
  rewrite Hs. simpl. now apply IH.
Qed.

(** C2 (amended): [signMsgTx] returns [ErrUnsupportedTransactionType]
    when the first input it neither skips nor signs has a script with
    exactly one address that is not a pay-to-pubkey-hash address; an
    input whose script yields no address or several is skipped, so a
    list of such inputs alone is accepted without error and leaves the
    transaction as it was. *)
Theorem signMsgTx_unsupported_or_skipped (msgtx : wire.MsgTx) :
  (forall pre bad post addr,
     length (pre ++ bad :: post) = length (wire.TxIn msgtx) ->
     Forall (fun o => skipped W chainParams o
                     \/ signable W chainParams mgr o) pre ->
     addrsOf W chainParams (wtxmgr.PkScript bad) = [addr] ->
     (forall h, addr <> AddressPubKeyHash h) ->
     signMsgTx W chainParams mgr msgtx (pre ++ bad :: post)
     = Err ErrUnsupportedTransactionType)
  /\ (forall prevOutputs,
        length prevOutputs = length (wire.TxIn msgtx) ->
        Forall (skipped W chainParams) prevOutputs ->
        signMsgTx W chainParams mgr msgtx prevOutputs = Ok msgtx).
Proof.
  split.
  - intros pre bad post addr Hlen Hpre Haddr Hne.
    unfold signMsgTx.
    rewrite Hlen, Nat.eqb_refl. simpl.
    rewrite signInputs_app.
    destruct (signInputs_passes pre msgtx 0%nat Hpre) as [m ->]. simpl.
    pose proof (signInput_not_pubkeyhash m (length pre) bad addr Haddr Hne)
      as Hbad.
    now rewrite Hbad.
  - intros prevOutputs Hlen Hall.
    unfold signMsgTx.
    rewrite Hlen, Nat.eqb_refl. simpl.
    now apply signInputs_all_skipped.
Qed.

End Signing.

Lemma signMsgTx_unsupported_or_skipped_witness :
  let bad := wtxmgr.mkCredit (wire.mkOutPoint 7 0) (-1) 1000
               ([Byte.xa9; Byte.x14] ++ TestNet.hash160 "script"
                ++ [Byte.x87]) false in
  let tx := wire.AddTxIn wire.NewMsgTx
              (wire.NewTxIn (wtxmgr.OutPoint bad) []) in
  signMsgTx TestNet.world chaincfg.TestNet3Params TestNet.manager tx [bad]
  = Err ErrUnsupportedTransactionType.
Proof.
  intros bad tx.
  apply (proj1 (signMsgTx_unsupported_or_skipped
                  TestNet.world chaincfg.TestNet3Params TestNet.manager tx)
               [] bad []
               (AddressScriptHash (TestNet.hash160 "script"))).
  - reflexivity.
  - constructor.
  - reflexivity.
  - intros h. discriminate.
Defined.

(** C2, as the spec states it, fails: a previous output whose script
    holds no address at all is not refused; [signMsgTx] passes over it and
    returns no error. *)
Lemma signMsgTx_accepts_script_without_address :
  let odd := wtxmgr.mkCredit (wire.mkOutPoint 7 0) (-1) 1000 [Byte.x51]
                             false in
  let tx := wire.AddTxIn wire.NewMsgTx
              (wire.NewTxIn (wtxmgr.OutPoint odd) []) in
  addrsOf TestNet.world chaincfg.TestNet3Params (wtxmgr.PkScript odd) = []
  /\ signMsgTx TestNet.world chaincfg.TestNet3Params TestNet.manager tx [odd]
     = Ok tx
  /\ signMsgTx TestNet.world chaincfg.TestNet3Params TestNet.manager tx [odd]
     <> Err ErrUnsupportedTransactionType.
Proof. vm_compute. repeat split. discriminate. Qed.

(** *** Selecting inputs *)

Lemma sumZ_app l1 l2 : wire.sumZ (l1 ++ l2) = wire.sumZ l1 + wire.sumZ l2.
Proof. induction l1; simpl; lia. Qed.

Lemma sumAmounts_app l1 l2 :
  sumAmounts (l1 ++ l2) = sumAmounts l1 + sumAmounts l2.
Proof. unfold sumAmounts. now rewrite map_app, sumZ_app. Qed.

Lemma sumAmounts_cons c l : sumAmounts (c :: l) = wtxmgr.Amount c + sumAmounts l.
Proof. reflexivity. Qed.

Lemma sumAmounts_perm l1 l2 :
  Permutation l1 l2 -> sumAmounts l1 = sumAmounts l2.
Proof.
  induction 1; rewrite ?sumAmounts_cons in *; first [ reflexivity | lia ].
Qed.

Lemma sumAmounts_nonneg l : Forall nonNegative l -> 0 <= sumAmounts l.
Proof.
  induction 1 as [| c l Hc Hl IH]; rewrite ?sumAmounts_cons.
  - now vm_compute.
  - unfold nonNegative in Hc. lia.
Qed.


Lemma bind_Ok {A B} (a : A) (k : A -> outcome B) : bind (Ok a) k = k a.
Proof. reflexivity. Qed.

Lemma bind_Err {A B} e (k : A -> outcome B) : bind (Err e) k = Err e.
Proof. reflexivity. Qed.

Lemma bind_Panic {A B} (k : A -> outcome B) : bind Panic k = Panic.
Proof. reflexivity. Qed.

Lemma bind_OutOfFuel {A B} (k : A -> outcome B) : bind OutOfFuel k = OutOfFuel.
Proof. reflexivity. Qed.

(** Case analysis on the first action of a sequence [x <- m ;; k]. *)
Ltac bind_inv H :=
  match type of H with
  | bind ?m _ = _ =>
    let E := fresh "E" in
    destruct m eqn:E;
    rewrite ?bind_Ok, ?bind_Err, ?bind_Panic, ?bind_OutOfFuel in H;
    cbv beta in H; try discriminate H
  end.

Lemma coverOutputs_ok minAmount sorted el : forall v v',
  eligible v = el -> selecting sorted v ->
  coverOutputs minAmount el v = Ok v' ->
  selecting sorted v' /\ minAmount <= totalAdded v'
  /\ wire.TxOut (msgtx v') = wire.TxOut (msgtx v)
  /\ (length (eligible v') <= length el)%nat.
Proof.
  induction el as [| c rest IH]; intros v v' Hel [Happ Htot] Hrun;
    simpl in Hrun.
  - destruct (totalAdded v <? minAmount) eqn:E; [ discriminate | ].
    inversion Hrun; subst v'. rewrite Hel.
    split; [ now split | ]. split; [ lia | ]. split; [ reflexivity | ].
    simpl. lia.
  - destruct (totalAdded v <? minAmount) eqn:E.
    + apply IH in Hrun; [ | reflexivity | ].
      * destruct Hrun as (Hs & Hm & Ho & Hl).
        split; [ exact Hs | ]. split; [ exact Hm | ].
        split; [ exact Ho | ]. simpl in *. lia.
      * split; simpl.
        { rewrite <- Happ, Hel, <- app_assoc. reflexivity. }
        { rewrite Htot, sumAmounts_app, sumAmounts_cons.
          rewrite int64_add_l. f_equal. unfold sumAmounts. simpl. lia. }
    + inversion Hrun; subst v'. rewrite Hel.
      split; [ now split | ]. split; [ lia | ]. split; [ reflexivity | ].
      simpl. lia.
Qed.


Section CreateTxFacts.

Variable W : World.
Variable chainParams : chaincfg.Params.
Variable mgr : waddrmgr.Manager.
Variable bs : waddrmgr.BlockStamp.
Variable feeIncrement : Z.
Variable account : Z.
Variable changeAddress : Z -> result Address.
Variable disallowFree : bool.

Local Abbreviation coverFee' := (coverFee bs feeIncrement disallowFree).
Local Abbreviation body :=
  (feeLoopBody W chainParams mgr bs feeIncrement account changeAddress
               disallowFree).
Local Abbreviation loop :=
  (feeLoop W chainParams mgr bs feeIncrement account changeAddress
           disallowFree).

Lemma selecting_take sorted v c rest :
  eligible v = c :: rest -> selecting sorted v ->
  selecting sorted (reestimate bs feeIncrement disallowFree (takeInput c rest v)).
Proof.
  intros Hel [Happ Htot]. split; simpl.
  - rewrite <- Happ, Hel, <- app_assoc. reflexivity.
  - rewrite Htot, sumAmounts_app, sumAmounts_cons.
    rewrite int64_add_l. f_equal. unfold sumAmounts. simpl. lia.
Qed.

Lemma coverFee_ok minAmount sorted el : forall v v',
  eligible v = el -> selecting sorted v ->
  coverFee' minAmount el v = Ok v' ->
  selecting sorted v'
  /\ int64 (minAmount + feeEst v') <= totalAdded v'
  /\ ((v' = v) \/ (length (eligible v') < length el)%nat).
Proof.
  induction el as [| c rest IH]; intros v v' Hel Hsel Hrun; simpl in Hrun.
  - destruct (totalAdded v <? int64 (minAmount + feeEst v)) eqn:E;
      [ discriminate | ].
    inversion Hrun; subst v'.
    split; [ exact Hsel | ]. split; [ lia | now left ].
  - destruct (totalAdded v <? int64 (minAmount + feeEst v)) eqn:E.
    + apply IH in Hrun; [ | reflexivity | now apply selecting_take ].
      destruct Hrun as (Hs & Hm & Hl).
      split; [ exact Hs | ]. split; [ exact Hm | ]. right.
      destruct Hl as [-> | Hl]; simpl in *; lia.
    + inversion Hrun; subst v'.
      split; [ exact Hsel | ]. split; [ lia | now left ].
Qed.












Lemma addOutputs_from_total pairs : forall m tx tx' m',
  addOutputs_from W chainParams m tx pairs = (tx', m', None) ->
  m' = int64 (m + sumPairs pairs) \/ (pairs = [] /\ m' = m).
Proof.
  induction pairs as [| [addrStr amt] rest IH]; intros m tx tx' m' H;
    simpl in H.
  - inversion H; subst. now right.
  - destruct (amt <=? 0); [ discriminate | ].
    destruct (DecodeAddress W addrStr chainParams); [ discriminate | ].
    destruct (PayToAddrScript W a); [ discriminate | ].
    left. apply IH in H. destruct H as [-> | [-> ->]].
    + rewrite int64_add_l. f_equal. unfold sumPairs. simpl. lia.
    + f_equal. unfold sumPairs. simpl. lia.
Qed.

(** A pass that goes round again has raised the estimate by the increment
    and then run the loop that takes more inputs. *)
Lemma feeLoopBody_Again minAmount v v' :
  body minAmount v = Ok (Again v') ->
  exists v1, raisedFrom feeIncrement v v1
             /\ coverFee' minAmount (eligible v1) v1 = Ok v'.
Proof.
  unfold feeLoopBody. intros H.
  set (change := int64 (int64 (totalAdded v - minAmount) - feeEst v)) in *.
  bind_inv H.
  assert (Ha : eligible a = eligible v /\ inputs a = inputs v
               /\ totalAdded a = totalAdded v /\ feeEst a = feeEst v).
  { destruct (change >? 0).
    - bind_inv E. bind_inv E. inversion E; subst. simpl. auto.
    - inversion E; subst. auto. }
  clear E. bind_inv H.
  destruct (feeForSize _ _ <=? _); [ discriminate | ].
  bind_inv H.
  assert (Hb : eligible a1 = eligible a /\ inputs a1 = inputs a
               /\ totalAdded a1 = totalAdded a /\ feeEst a1 = feeEst a).
  { destruct (change >? 0).
    - bind_inv E0. inversion E0; subst. simpl. auto.
    - inversion E0; subst. simpl. auto. }
  clear E0. bind_inv H. inversion H; subst. clear H.
  eexists. split; [ | exact E0 ].
  destruct Ha as (Ha1 & Ha2 & Ha3 & Ha4), Hb as (Hb1 & Hb2 & Hb3 & Hb4).
  unfold raisedFrom. simpl. repeat split; congruence.
Qed.


Lemma selecting_raised sorted v v1 :
  raisedFrom feeIncrement v v1 -> selecting sorted v -> selecting sorted v1.
Proof.
  intros (H1 & H2 & H3 & _) [Ha Hb]. split; congruence.
Qed.



Lemma addOutputs_total tx' m' outputs :
  addOutputs W chainParams wire.NewMsgTx outputs = (tx', m', None) ->
  m' = int64 (sumPairs outputs).
Proof.
  unfold addOutputs. intros H. apply addOutputs_from_total in H.
  destruct H as [-> | [-> ->]]; reflexivity.
Qed.

Lemma selecting_start sorted tx :
  selecting sorted (mkVars sorted [] tx 0 0 0 None (-1) 0).
Proof. split; reflexivity. Qed.

(** What [selectInputs] hands to the fee loop. *)
Lemma selectInputs_ok credits outputs minAmount v :
  selectInputs W chainParams bs feeIncrement disallowFree credits outputs
  = Ok (minAmount, v) ->
  selecting (sortReverseByAmount W credits) v
  /\ int64 (minAmount + feeEst v) <= totalAdded v
  /\ snd (fst (addOutputs W chainParams wire.NewMsgTx outputs)) = minAmount.
Proof.
  unfold selectInputs.
  destruct (addOutputs W chainParams wire.NewMsgTx outputs)
    as [[tx0 m] [e |]]; [ discriminate | ].
  intros H. bind_inv H.
  apply coverOutputs_ok with (sorted := sortReverseByAmount W credits) in E;
    [ | reflexivity | apply selecting_start ].
  destruct E as (Hsel & _).
  bind_inv H. inversion H; subst. clear H.
  eapply coverFee_ok in E; [ | reflexivity | exact Hsel ].
  destruct E as (Hs & Hm & _). auto.
Qed.



(** Only the cut-off fee loop answers [OutOfFuel]. *)
Lemma bind_fuel {A B} (m : outcome A) (k : A -> outcome B) :
  bind m k = OutOfFuel ->
  m = OutOfFuel \/ exists a, m = Ok a /\ k a = OutOfFuel.
Proof. destruct m; simpl; intros H; try discriminate; eauto. Qed.

Lemma wrapErr_fuel {A} fmt (r : result A) : wrapErr fmt r <> OutOfFuel.
Proof. destruct r; discriminate. Qed.

Lemma passErr_fuel {A} (r : result A) : passErr r <> OutOfFuel.
Proof. destruct r; discriminate. Qed.

Lemma swap_fuel {A} (l : list A) r c : swap l r c <> OutOfFuel.
Proof. unfold swap. destruct (l !! r), (l !! c); discriminate. Qed.

Lemma removeAt_fuel {A} i (l : list A) : removeAt i l <> OutOfFuel.
Proof.
  unfold removeAt.
  destruct ((i <? 0) || (Z.of_nat (length l) <=? i)); discriminate.
Qed.

Lemma addChange_fuel k tx change addr :
  addChange W k tx change addr <> OutOfFuel.
Proof.
  unfold addChange. intros H.
  apply bind_fuel in H. destruct H as [H | (pk & _ & H)];
    [ now apply wrapErr_fuel in H | ].
  destruct (int32 _ <=? 0); [ discriminate | ].
  destruct (Int31n W k _ <? 0); [ discriminate | ].
  apply bind_fuel in H. destruct H as [H | (outs & _ & H)];
    [ now apply swap_fuel in H | discriminate ].
Qed.

Lemma signInput_fuel tx i output :
  signInput W chainParams mgr tx i output <> OutOfFuel.
Proof.
  unfold signInput.
  destruct (ExtractPkScriptAddrs W (wtxmgr.PkScript output) chainParams)
    as [[[class addrs] n] err].
  destruct addrs as [| addr [| b rest]]; try discriminate.
  destruct addr; try discriminate. intros H.
  apply bind_fuel in H. destruct H as [H | (ai & _ & H)];
    [ now apply wrapErr_fuel in H | ].
  destruct ai; [ | discriminate ].
  apply bind_fuel in H. destruct H as [H | (key & _ & H)];
    [ now apply wrapErr_fuel in H | ].
  apply bind_fuel in H. destruct H as [H | (sig & _ & H)];
    [ now apply wrapErr_fuel in H | discriminate ].
Qed.

Lemma signInputs_fuel prevOutputs : forall tx i,
  signInputs W chainParams mgr tx i prevOutputs <> OutOfFuel.
Proof.
  induction prevOutputs as [| o rest IH]; intros tx i H; simpl in H;
    [ discriminate | ].
  apply bind_fuel in H. destruct H as [H | (tx' & _ & H)];
    [ now apply signInput_fuel in H | now apply IH in H ].
Qed.

Lemma signMsgTx_fuel tx prevOutputs :
  signMsgTx W chainParams mgr tx prevOutputs <> OutOfFuel.
Proof.
  unfold signMsgTx.
  destruct (negb (length prevOutputs =? length (wire.TxIn tx))%nat);
    [ discriminate | apply signInputs_fuel ].
Qed.

Lemma validateInputs_fuel tx prevOutputs n : forall i,
  validateInputs W tx prevOutputs i n <> OutOfFuel.
Proof.
  induction n as [| n IH]; intros i H; simpl in H; [ discriminate | ].
  destruct (prevOutputs !! i); [ | discriminate ].
  destruct (NewEngine W _ tx i); [ discriminate | ].
  destruct (Execute W _ tx i); [ discriminate | ].
  now apply IH in H.
Qed.

Lemma coverOutputs_fuel minAmount el : forall v,
  coverOutputs minAmount el v <> OutOfFuel.
Proof.
  induction el as [| c rest IH]; intros v; simpl;
    destruct (totalAdded v <? minAmount); try discriminate.
  apply IH.
Qed.

Lemma coverFee_fuel minAmount el : forall v,
  coverFee' minAmount el v <> OutOfFuel.
Proof.
  induction el as [| c rest IH]; intros v; simpl;
    destruct (totalAdded v <? int64 (minAmount + feeEst v));
    try discriminate.
  apply IH.
Qed.

Lemma feeLoopBody_fuel minAmount v : body minAmount v <> OutOfFuel.
Proof.
  unfold feeLoopBody. intros H.
  set (change := int64 (int64 (totalAdded v - minAmount) - feeEst v)) in *.
  apply bind_fuel in H. destruct H as [H | (v0 & _ & H)].
  { destruct (change >? 0); [ | discriminate ].
    apply bind_fuel in H. destruct H as [H | (addr & _ & H)].
    - destruct (changeAddr v); [ discriminate | now apply passErr_fuel in H ].
    - apply bind_fuel in H. destruct H as [H | (r & _ & H)];
        [ now apply addChange_fuel in H | discriminate ]. }
  apply bind_fuel in H. destruct H as [H | (signed & _ & H)];
    [ now apply signMsgTx_fuel in H | ].
  destruct (feeForSize _ _ <=? _); [ discriminate | ].
  apply bind_fuel in H. destruct H as [H | (v1 & _ & H)].
  { destruct (change >? 0); [ | discriminate ].
    apply bind_fuel in H. destruct H as [H | (outs & _ & H)];
      [ now apply removeAt_fuel in H | discriminate ]. }
  apply bind_fuel in H. destruct H as [H | (v2 & _ & H)];
    [ now apply coverFee_fuel in H | discriminate ].
Qed.

Lemma selectInputs_fuel credits outputs :
  selectInputs W chainParams bs feeIncrement disallowFree credits outputs
  <> OutOfFuel.
Proof.
  unfold selectInputs.
  destruct (addOutputs W chainParams wire.NewMsgTx outputs)
    as [[tx0 m] [e |]]; [ discriminate | ].
  intros H. apply bind_fuel in H. destruct H as [H | (v & _ & H)];
    [ now apply coverOutputs_fuel in H | ].
  apply bind_fuel in H. destruct H as [H | (v' & _ & H)];
    [ now apply coverFee_fuel in H | discriminate ].
Qed.

(** More fuel does not change an answer that was reached. *)
Lemma feeLoop_more_fuel fuel : forall extra minAmount v,
  loop fuel minAmount v <> OutOfFuel ->
  loop (fuel + extra) minAmount v = loop fuel minAmount v.
Proof.
  induction fuel as [| fuel IH]; intros extra minAmount v H; simpl in *;
    [ now destruct H | ].
  destruct (body minAmount v) as [[v' | v'] | e | |]; simpl in *;
    try reflexivity.
  now apply IH.
Qed.

(** *** Termination of the fee loop *)

Lemma minimumFee_range incr txLen outputs prevOutputs height df :
  0 < incr ->
  0 <= minimumFee incr txLen outputs prevOutputs height df
  <= Z.max incr MaxSatoshi.
Proof.
  intros Hi. rewrite minimumFee_unfold. simpl.
  assert (0 <= MaxSatoshi) by (vm_compute; discriminate).
  set (fee := fee_steps_1_2 incr txLen prevOutputs height df).
  destruct ((fee <? incr) && anyBelowBitcent outputs); [ lia | ].
  destruct (fee <? 0) eqn:E0; simpl; [ lia | ].
  destruct (fee >? MaxSatoshi) eqn:E1; lia.
Qed.

Section Termination.

Variables T minAmount : Z.
Hypothesis incr_pos : 0 < feeIncrement.
Hypothesis min_nonneg : 0 <= minAmount.
Hypothesis total_fits : T + feeIncrement <= MaxInt64.
Hypothesis min_fits : minAmount + MaxSatoshi <= MaxInt64.

Lemma coverFee_inv el : forall v v',
  eligible v = el -> 0 <= feeEst v -> 0 <= totalAdded v ->
  totalAdded v + sumAmounts el = T -> Forall nonNegative el ->
  minAmount + feeEst v <= MaxInt64 -> minAmount <= T ->
  coverFee' minAmount el v = Ok v' ->
  loopInv T minAmount v'
  /\ ((eligible v' = el /\ feeEst v' = feeEst v)
      \/ (length (eligible v') < length el)%nat).
Proof.
  induction el as [| c rest IH];
    intros v v' Hel Hfee Htot Hsum Hnn Hfit HminT Hrun; simpl in Hrun.
  - assert (Hid : int64 (minAmount + feeEst v) = minAmount + feeEst v).
    { apply is_int64_bounds in Hfit; [ | lia ]. apply int64_id. in_range. }
    rewrite Hid in Hrun.
    destruct (totalAdded v <? minAmount + feeEst v) eqn:E; [ discriminate | ].
    inversion Hrun; subst v'. split; [ | now left ].
    unfold loopInv. rewrite Hel. repeat split; auto; lia.
  - assert (Hid : int64 (minAmount + feeEst v) = minAmount + feeEst v).
    { apply is_int64_bounds in Hfit; [ | lia ]. apply int64_id. in_range. }
    rewrite Hid in Hrun.
    destruct (totalAdded v <? minAmount + feeEst v) eqn:E.
    + inversion_clear Hnn as [| ? ? Hc Hrest]. unfold nonNegative in Hc.
      pose proof (sumAmounts_nonneg rest Hrest) as Hr.
      rewrite sumAmounts_cons in Hsum.
      pose proof total_fits as Hfit'.
      apply is_int64_bounds in Hfit'; [ | lia ].
      assert (Ht : int64 (totalAdded v + wtxmgr.Amount c)
                   = totalAdded v + wtxmgr.Amount c)
        by (apply int64_id; in_range).
      pose proof (minimumFee_range feeIncrement
                    (int (szEst v + txInEstimate))
                    (wire.TxOut (msgtx (takeInput c rest v)))
                    (inputs v ++ [c]) (waddrmgr.Height bs) disallowFree
                    incr_pos) as Hrange.
      simpl in Hrange. pose proof min_fits as Hmf. pose proof total_fits as Htf.
      apply IH in Hrun; simpl; rewrite ?Ht; try assumption; try lia.
      * destruct Hrun as (Hinv & Hcase). split; [ exact Hinv | right ].
        destruct Hcase as [[Hc1 _] | Hc1]; [ rewrite Hc1 | ]; simpl; lia.
      * reflexivity.
    + inversion Hrun; subst v'. split; [ | now left ].
      unfold loopInv. rewrite Hel. repeat split; auto; lia.
Qed.

(** Every pass that goes round again either takes at least one more
    credit, or raises the estimate by exactly the increment while the
    inputs still cover it. *)
Lemma feeLoopBody_progress v v' :
  loopInv T minAmount v ->
  body minAmount v = Ok (Again v') ->
  loopInv T minAmount v'
  /\ ((eligible v' = eligible v /\ feeEst v' = feeEst v + feeIncrement)
      \/ (length (eligible v') < length (eligible v))%nat).
Proof.
  intros (Hfee & Hcov & Hsum & Hnn) Hbody.
  apply feeLoopBody_Again in Hbody.
  destruct Hbody as (v1 & (H1 & H2 & H3 & H4) & Hc).
  pose proof (sumAmounts_nonneg _ Hnn) as Hr.
  pose proof total_fits as Hfit. apply is_int64_bounds in Hfit; [ | lia ].
  assert (Hid : int64 (feeEst v + feeIncrement) = feeEst v + feeIncrement)
    by (apply int64_id; in_range).
  rewrite Hid in H4.
  apply coverFee_inv in Hc; try reflexivity; rewrite ?H1, ?H3, ?H4;
    try assumption; try lia.
  destruct Hc as (Hinv & Hcase). split; [ exact Hinv | ].
  rewrite H1, H4 in Hcase. exact Hcase.
Qed.

Lemma passesLeft_nonneg v : loopInv T minAmount v -> 0 <= passesLeft T feeIncrement v.
Proof.
  intros (Hfee & Hcov & Hsum & Hnn). unfold passesLeft.
  pose proof (sumAmounts_nonneg _ Hnn) as Hr.
  assert (feeEst v / feeIncrement <= T / feeIncrement)
    by (apply Z.div_le_mono; lia).
  assert (0 <= T / feeIncrement) by (apply Z.div_pos; lia).
  nia.
Qed.

Lemma passesLeft_decreases v v' :
  loopInv T minAmount v ->
  body minAmount v = Ok (Again v') ->
  loopInv T minAmount v'
  /\ passesLeft T feeIncrement v' < passesLeft T feeIncrement v.
Proof.
  intros Hinv Hbody.
  destruct (feeLoopBody_progress _ _ Hinv Hbody) as (Hinv' & Hcase).
  split; [ exact Hinv' | ].
  destruct Hinv as (Hfee & Hcov & Hsum & Hnn).
  destruct Hinv' as (Hfee' & Hcov' & Hsum' & Hnn').
  pose proof (sumAmounts_nonneg _ Hnn) as Hr.
  pose proof (sumAmounts_nonneg _ Hnn') as Hr'.
  assert (HK : 0 <= T / feeIncrement) by (apply Z.div_pos; lia).
  assert (Hq : 0 <= feeEst v / feeIncrement <= T / feeIncrement)
    by (split; [ apply Z.div_pos | apply Z.div_le_mono ]; lia).
  assert (Hq' : 0 <= feeEst v' / feeIncrement <= T / feeIncrement)
    by (split; [ apply Z.div_pos | apply Z.div_le_mono ]; lia).
  unfold passesLeft.
  destruct Hcase as [[He Hf] | Hl].
  - rewrite He, Hf.
    replace (feeEst v + feeIncrement) with (feeEst v + 1 * feeIncrement)
      by lia.
    rewrite Z.div_add by lia. lia.
  - nia.
Qed.

Lemma feeLoop_terminates fuel : forall v,
  loopInv T minAmount v ->
  passesLeft T feeIncrement v < Z.of_nat fuel ->
  loop fuel minAmount v <> OutOfFuel.
Proof.
  induction fuel as [| fuel IH]; intros v Hinv Hlt.
  - pose proof (passesLeft_nonneg v Hinv). simpl in Hlt. lia.
  - simpl. intros H. apply bind_fuel in H.
    destruct H as [H | (p & Hbody & H)];
      [ now apply feeLoopBody_fuel in H | ].
    destruct p as [v' | v']; [ | discriminate ].
    destruct (passesLeft_decreases _ _ Hinv Hbody) as (Hinv' & Hdec).
    apply IH in H; [ assumption | assumption | lia ].
Qed.

End Termination.

Lemma coverOutputs_inv T minAmount el : forall v v',
  eligible v = el -> 0 <= totalAdded v ->
  totalAdded v + sumAmounts el = T -> Forall nonNegative el ->
  T <= MaxInt64 ->
  coverOutputs minAmount el v = Ok v' ->
  0 <= totalAdded v' /\ minAmount <= totalAdded v'
  /\ totalAdded v' + sumAmounts (eligible v') = T
  /\ Forall nonNegative (eligible v')
  /\ (length (eligible v') <= length el)%nat.
Proof.
  induction el as [| c rest IH]; intros v v' Hel Htot Hsum Hnn Hfit Hrun;
    simpl in Hrun.
  - destruct (totalAdded v <? minAmount) eqn:E; [ discriminate | ].
    inversion Hrun; subst v'. rewrite Hel.
    split; [ exact Htot | ]. split; [ lia | ]. split; [ exact Hsum | ].
    split; [ exact Hnn | ]. lia.
  - destruct (totalAdded v <? minAmount) eqn:E.
    + inversion_clear Hnn as [| ? ? Hc Hrest]. unfold nonNegative in Hc.
      pose proof (sumAmounts_nonneg rest Hrest) as Hr.
      rewrite sumAmounts_cons in Hsum.
      pose proof Hfit as Hfit'. apply is_int64_bounds in Hfit'; [ | lia ].
      assert (Ht : int64 (totalAdded v + wtxmgr.Amount c)
                   = totalAdded v + wtxmgr.Amount c)
        by (apply int64_id; in_range).
      apply IH in Hrun; simpl; rewrite ?Ht; try assumption; try lia;
        try reflexivity.
      destruct Hrun as (H1 & H2 & H3 & H4 & H5).
      split; [ exact H1 | ]. split; [ exact H2 | ]. split; [ exact H3 | ].
      split; [ exact H4 | ]. simpl. lia.
    + inversion Hrun; subst v'. rewrite Hel.
      split; [ exact Htot | ]. split; [ lia | ]. split; [ exact Hsum | ].
      split; [ exact Hnn | ]. lia.
Qed.

Lemma addOutputs_from_positive pairs : forall m tx tx' m',
  addOutputs_from W chainParams m tx pairs = (tx', m', None) ->
  Forall (fun p => 0 < snd p) pairs.
Proof.
  induction pairs as [| [addrStr amt] rest IH]; intros m tx tx' m' H;
    simpl in H; [ constructor | ].
  destruct (amt <=? 0) eqn:E; [ discriminate | ].
  destruct (DecodeAddress W addrStr chainParams); [ discriminate | ].
  destruct (PayToAddrScript W a); [ discriminate | ].
  constructor; [ simpl; lia | eapply IH, H ].
Qed.

Lemma sumPairs_nonneg pairs :
  Forall (fun p => 0 < snd p) pairs -> 0 <= sumPairs pairs.
Proof.
  induction 1 as [| p l Hp Hl IH]; unfold sumPairs in *; simpl; lia.
Qed.

(** The fee loop is entered with its invariant, when nothing wraps. *)
Lemma selectInputs_loopInv credits outputs minAmount v :
  (forall l, Permutation (sortReverseByAmount W l) l) ->
  0 < feeIncrement ->
  Forall nonNegative credits ->
  sumAmounts credits + feeIncrement <= MaxInt64 ->
  sumPairs outputs + MaxSatoshi <= MaxInt64 ->
  selectInputs W chainParams bs feeIncrement disallowFree credits outputs
  = Ok (minAmount, v) ->
  0 <= minAmount /\ minAmount + MaxSatoshi <= MaxInt64
  /\ loopInv (sumAmounts credits) minAmount v
  /\ (length (eligible v) <= length credits)%nat.
Proof.
  intros Hperm Hincr Hnn Hfit Hout. unfold selectInputs.
  destruct (addOutputs W chainParams wire.NewMsgTx outputs)
    as [[tx0 m] [e |]] eqn:Hadd; [ discriminate | ].
  intros H.
  assert (Hm : m = sumPairs outputs /\ 0 <= m).
  { pose proof (addOutputs_total _ _ _ Hadd) as Hm.
    apply addOutputs_from_positive, sumPairs_nonneg in Hadd.
    assert (0 <= MaxSatoshi) by (vm_compute; discriminate).
    pose proof Hout as Hout'. apply is_int64_bounds in Hout'; [ | lia ].
    rewrite int64_id in Hm by in_range. subst m. auto. }
  destruct Hm as [Hm Hm0].
  set (sorted := sortReverseByAmount W credits) in *.
  assert (Hs : sumAmounts sorted = sumAmounts credits)
    by (apply sumAmounts_perm, Hperm).
  assert (Hnn' : Forall nonNegative sorted)
    by (eapply Permutation_Forall; [ apply Permutation_sym, Hperm | exact Hnn ]).
  assert (Hlen : length sorted = length credits)
    by (apply Permutation_length, Hperm).
  bind_inv H.
  apply coverOutputs_inv with (T := sumAmounts credits) in E;
    simpl; try assumption; try reflexivity; try lia.
  destruct E as (H1 & H2 & H3 & H4 & H5).
  bind_inv H. inversion H; subst. clear H.
  pose proof (minimumFee_range feeIncrement
                (estimateTxSize (Z.of_nat (length (inputs a)))
                   (Z.of_nat (length (wire.TxOut (msgtx a)))))
                (wire.TxOut (msgtx a)) (inputs a) (waddrmgr.Height bs)
                disallowFree Hincr) as Hrange.
  pose proof (sumAmounts_nonneg _ H4) as Hr.
  apply coverFee_inv with (T := sumAmounts credits) in E;
    simpl; try assumption; try reflexivity; try lia.
  destruct E as (Hinv & Hcase).
  split; [ lia | ]. split; [ lia | ]. split; [ exact Hinv | ].
  destruct Hcase as [[Hc _] | Hc]; simpl in *; [ rewrite Hc | ]; lia.
Qed.

(** C6 (amended): with a positive increment and amounts that do not wrap
    around, the fee loop ends.  It is entered with the estimate covered by
    the inputs; each pass that does not leave the loop either takes at
    least one more credit, after which the fee is estimated afresh, or
    raises the estimate by exactly the increment while it stays at most
    [totalAdded - minAmount]; so [(n + 1) * (T / increment + 1)] passes are
    enough for [n] credits of total [T], and more passes change nothing. *)
Theorem createTx_fee_loop_terminates (credits : list wtxmgr.Credit)
  (outputs : list (string * Z)) :
  let T := sumAmounts credits in
  (forall l, Permutation (sortReverseByAmount W l) l) ->
  0 < feeIncrement ->
  Forall nonNegative credits ->
  T + feeIncrement <= MaxInt64 ->
  sumPairs outputs + MaxSatoshi <= MaxInt64 ->
  (forall fuel,
     (Z.of_nat (length credits) + 1) * (T / feeIncrement + 1)
     <= Z.of_nat fuel ->
     createTx W chainParams mgr bs feeIncrement account changeAddress
              disallowFree fuel credits outputs <> OutOfFuel
     /\ forall extra,
          createTx W chainParams mgr bs feeIncrement account changeAddress
                   disallowFree (fuel + extra) credits outputs
          = createTx W chainParams mgr bs feeIncrement account changeAddress
                     disallowFree fuel credits outputs)
  /\ (forall minAmount v0,
        selectInputs W chainParams bs feeIncrement disallowFree credits
                     outputs = Ok (minAmount, v0) ->
        loopInv T minAmount v0
        /\ forall v v',
             loopInv T minAmount v ->
             feeLoopBody W chainParams mgr bs feeIncrement account
                         changeAddress disallowFree minAmount v
             = Ok (Again v') ->
             loopInv T minAmount v'
             /\ ((eligible v' = eligible v
                  /\ feeEst v' = feeEst v + feeIncrement)
                 \/ (length (eligible v') < length (eligible v))%nat)).
Proof.
  intros T Hperm Hincr Hnn Hfit Hout.
  assert (Hloop : forall fuel minAmount v0,
            selectInputs W chainParams bs feeIncrement disallowFree credits
                         outputs = Ok (minAmount, v0) ->
            (Z.of_nat (length credits) + 1) * (T / feeIncrement + 1)
            <= Z.of_nat fuel ->
            loop fuel minAmount v0 <> OutOfFuel).
  { intros fuel minAmount v0 Hsel Hfuel.
    destruct (selectInputs_loopInv _ _ _ _ Hperm Hincr Hnn Hfit Hout Hsel)
      as (Hm0 & Hm1 & Hinv & Hlen).
    eapply feeLoop_terminates; eauto.
    destruct Hinv as (Hfee & Hcov & Hsum & Hnn').
    assert (0 <= T / feeIncrement).
    { apply Z.div_pos; [ | lia ]. now apply sumAmounts_nonneg. }
    assert (0 <= feeEst v0 / feeIncrement) by (apply Z.div_pos; lia).
    unfold passesLeft. fold T. nia. }
  split.
  - intros fuel Hfuel. unfold createTx.
    destruct (selectInputs W chainParams bs feeIncrement disallowFree credits
                           outputs) as [[minAmount v0] | e | |] eqn:Hsel;
      simpl; try (split; [ discriminate | reflexivity ]).
    + pose proof (Hloop fuel minAmount v0 eq_refl Hfuel) as Hl.
      split.
      * intros H. apply bind_fuel in H. destruct H as [H | (v & _ & H)];
          [ contradiction | ].
        apply bind_fuel in H. destruct H as [H | (u & _ & H)];
          [ now apply validateInputs_fuel in H | discriminate ].
      * intros extra. now rewrite feeLoop_more_fuel.
    + now apply selectInputs_fuel in Hsel.
  - intros minAmount v0 Hsel.
    destruct (selectInputs_loopInv _ _ _ _ Hperm Hincr Hnn Hfit Hout Hsel)
      as (Hm0 & Hm1 & Hinv & Hlen).
    split; [ exact Hinv | ].
    intros v v'. now apply feeLoopBody_progress.
Qed.

End CreateTxFacts.

(** *** The scenario world honours the contracts *)

Lemma insertByAmount_perm c l : Permutation (TestNet.insertByAmount c l) (c :: l).
Proof.
  induction l as [| d l IH]; simpl; [ reflexivity | ].
  destruct (wtxmgr.Amount d <=? wtxmgr.Amount c); [ reflexivity | ].
  rewrite IH. apply perm_swap.
Qed.

Lemma sortCredits_perm l : Permutation (TestNet.sortCredits l) l.
Proof.
  induction l as [| c l IH]; simpl; [ reflexivity | ].
  rewrite insertByAmount_perm. now constructor.
Qed.

Lemma insertByAmount_sorted c l :
  StronglySorted (fun a b => wtxmgr.Amount b <= wtxmgr.Amount a) l ->
  StronglySorted (fun a b => wtxmgr.Amount b <= wtxmgr.Amount a)
                 (TestNet.insertByAmount c l).
Proof.
  induction 1 as [| d l Hl IH Hd]; simpl.
  - repeat constructor.
  - destruct (wtxmgr.Amount d <=? wtxmgr.Amount c) eqn:E.
    + constructor; [ now constructor | ].
      constructor; [ lia | ].
      eapply Forall_impl; [ exact Hd | ]. simpl. intros; lia.
    + constructor; [ exact IH | ].
      eapply Permutation_Forall;
        [ apply Permutation_sym, insertByAmount_perm | ].
      constructor; [ lia | exact Hd ].
Qed.

Lemma TestNet_world_ok : WorldOK TestNet.world.
Proof.
  constructor; simpl.
  - apply sortCredits_perm.
  - induction l as [| c l IH]; simpl;
      [ constructor | now apply insertByAmount_sorted ].
  - intros k n Hn. lia.
Qed.

(** *** Scenarios *)

Lemma createTx_more_fuel W chainParams mgr bs feeIncrement account
  changeAddress disallowFree fuel extra credits outputs :
  createTx W chainParams mgr bs feeIncrement account changeAddress
           disallowFree fuel credits outputs <> OutOfFuel ->
  createTx W chainParams mgr bs feeIncrement account changeAddress
           disallowFree (fuel + extra) credits outputs
  = createTx W chainParams mgr bs feeIncrement account changeAddress
             disallowFree fuel credits outputs.
Proof.
  unfold createTx.
  destruct (selectInputs W chainParams bs feeIncrement disallowFree credits
                         outputs) as [[minAmount v0] | e | |];
    simpl; try reflexivity.
  intros H. rewrite feeLoop_more_fuel; [ reflexivity | ].
  intros Hf. apply H. now rewrite Hf.
Qed.

(** C3, as the spec states it, fails: the third input of S1 is not the
    credit of 3e6. *)
Lemma S1_third_input_is_not_3e6 :
  onOk (TestNet.run 11111 1000 false 1 TestNet.creditsS1 TestNet.pairsS1)
       (fun c => inputAmounts TestNet.creditsS1 (MsgTx c)
                 <> [15000000; 10000000; 3000000]).
Proof. vm_compute. discriminate. Qed.

(** C3 (amended): in S1 [createTx] selects three inputs, largest first,
    of 1.5e7, 1e7 and 9e6, and builds three outputs, the two payments and
    a change output of 8.999e6, which leaves a fee of 1000. *)
Theorem S1_three_inputs_three_outputs (extra : nat) :
  onOk (TestNet.run 11111 1000 false (1 + extra) TestNet.creditsS1
                    TestNet.pairsS1)
       (fun c =>
          inputAmounts TestNet.creditsS1 (MsgTx c)
          = [15000000; 10000000; 9000000]
          /\ map wire.PreviousOutPoint (wire.TxIn (MsgTx c))
             = [wire.mkOutPoint 7 4; wire.mkOutPoint 7 3; wire.mkOutPoint 7 2]
          /\ outputValues (MsgTx c) = [15000000; 10000000; 8999000]
          /\ ChangeAddr c = Some TestNet.changeAddr0
          /\ option_map wire.PkScript
               (wire.TxOut (MsgTx c) !! Z.to_nat (ChangeIndex c))
             = Some ([Byte.x76; Byte.xa9; Byte.x14]
                     ++ TestNet.hash160 "change" ++ [Byte.x88; Byte.xac])
          /\ feeOf TestNet.creditsS1 (MsgTx c) = 1000).
Proof.
  unfold TestNet.run. rewrite createTx_more_fuel.
  - vm_compute. repeat split.
  - vm_compute. discriminate.
Qed.

(** C1, where the code fails it: six credits of 1e6 pay 5998000.  The
    first pass adds a change output of 1000 at index 2 and finds the signed
    transaction 1000 bytes long; the second pass, with the fee raised to
    2000, has no change left and is accepted, and the index of the removed
    output is returned with a transaction of two outputs, neither of which
    pays the change address. *)
Theorem createTx_returns_stale_change_index :
  onOk (TestNet.run 11111 1000 false 2 TestNet.sixCredits TestNet.pairsExact)
       (fun c =>
          ChangeIndex c = 2
          /\ ChangeAddr c = Some TestNet.changeAddr0
          /\ outputValues (MsgTx c) = [3000000; 2998000]
          /\ length (wire.TxOut (MsgTx c)) = 2%nat
          /\ wire.TxOut (MsgTx c) !! Z.to_nat (ChangeIndex c) = None
          /\ feeOf TestNet.sixCredits (MsgTx c) = 2000)
  /\ TestNet.estimates 5 11111 1000 false TestNet.sixCredits
                       TestNet.pairsExact = [1000; 2000].
Proof. vm_compute. repeat split. Qed.

(** C6, as the spec states it, fails: paying 0.01 at an increment of 0.01
    per kilobyte from one old credit and four small ones, four passes in a
    row take a credit and leave the estimate at 0, and the loop ends in its
    sixth pass, more than the [ceil(2000000 / 1000000) = 2] passes of the
    bound. *)
Lemma fee_loop_passes_exceed_bound :
  TestNet.estimates 10 200000 1000000 false TestNet.oldAndSmall
                    TestNet.pairsOne
  = [0; 0; 0; 0; 0; 1000000]
  /\ TestNet.run 200000 1000000 false 5 TestNet.oldAndSmall TestNet.pairsOne
     = OutOfFuel
  /\ onOk (TestNet.run 200000 1000000 false 6 TestNet.oldAndSmall
                       TestNet.pairsOne)
          (fun c => wire.sumZ (inputAmounts TestNet.oldAndSmall (MsgTx c))
                    = 2000000)
  /\ (2000000 + 1000000 - 1) / 1000000 = 2.
Proof. vm_compute. repeat split. Qed.

Lemma createTx_fee_loop_terminates_witness :
  TestNet.run 11111 1000 false (Z.to_nat 222606) TestNet.creditsS1
              TestNet.pairsS1
  <> OutOfFuel.
Proof.
  refine (proj1 (proj1 (createTx_fee_loop_terminates
                   TestNet.world chaincfg.TestNet3Params TestNet.manager
                   (waddrmgr.mkBlockStamp 11111 0) 1000 0
                   TestNet.tstChangeAddress false
                   TestNet.creditsS1 TestNet.pairsS1 _ _ _ _ _)
                (Z.to_nat 222606) _)).
  - apply sortCredits_perm.
  - reflexivity.
  - repeat constructor; vm_compute; discriminate.
  - vm_compute. discriminate.
  - vm_compute. discriminate.
  - vm_compute. discriminate.
Defined.


(** *** Eligible outputs and balances *)

Lemma filterEligible_sound W w account minconf bs unspent : forall l c,
  filterEligible W w account minconf bs unspent = Ok l ->
  In c l ->
  In c unspent /\ eligibleOutput W w account minconf bs c = Ok true.
Proof.
  induction unspent as [| o rest IH]; simpl; intros l c Hl Hc.
  - inversion Hl; subst. destruct Hc.
  - bind_inv Hl. bind_inv Hl. inversion Hl; subst. clear Hl.
    destruct a.
    + destruct Hc as [-> | Hc]; [ auto | ].
      destruct (IH _ _ eq_refl Hc). auto.
    + destruct (IH _ _ eq_refl Hc). auto.
Qed.

Lemma filterEligible_complete W w account minconf bs unspent : forall l c,
  filterEligible W w account minconf bs unspent = Ok l ->
  In c unspent ->
  eligibleOutput W w account minconf bs c = Ok true ->
  In c l.
Proof.
  induction unspent as [| o rest IH]; simpl; intros l c Hl Hc He.
  - destruct Hc.
  - bind_inv Hl. bind_inv Hl. inversion Hl; subst. clear Hl.
    destruct Hc as [-> | Hc].
    + rewrite He in E. inversion E; subst. now left.
    + pose proof (IH _ _ eq_refl Hc He). destruct a; [ now right | assumption ].
Qed.

Lemma filterEligible_sublist W w account minconf bs unspent : forall l,
  filterEligible W w account minconf bs unspent = Ok l ->
  sublist l unspent.
Proof.
  induction unspent as [| o rest IH]; simpl; intros l Hl.
  - inversion Hl. constructor.
  - bind_inv Hl. bind_inv Hl. inversion Hl; subst. clear Hl.
    destruct a; [ apply sublist_skip | apply sublist_cons ]; now apply IH.
Qed.

(** What it takes for [eligibleOutput] to keep a credit. *)
Lemma eligibleOutput_true W w account minconf bs c :
  eligibleOutput W w account minconf bs c = Ok true ->
  confirmed minconf (wtxmgr.Height c) (waddrmgr.Height bs) = true
  /\ (wtxmgr.FromCoinBase c = true ->
      confirmed blockchain.CoinbaseMaturity (wtxmgr.Height c)
                (waddrmgr.Height bs) = true)
  /\ LockedOutpoint w (wtxmgr.OutPoint c) = false
  /\ exists addr rest n,
       ExtractPkScriptAddrs W (wtxmgr.PkScript c) (chainParams w)
       = (txscript.PubKeyHashTy, addr :: rest, n, None)
       /\ waddrmgr.AddrAccount (Manager w) addr = inr account.
Proof.
  unfold eligibleOutput.
  destruct (confirmed minconf (wtxmgr.Height c) (waddrmgr.Height bs));
    simpl; [ | discriminate ].
  destruct (wtxmgr.FromCoinBase c); simpl.
  - destruct (confirmed blockchain.CoinbaseMaturity (wtxmgr.Height c)
                        (waddrmgr.Height bs)); simpl; [ | discriminate ].
    destruct (LockedOutpoint w (wtxmgr.OutPoint c)); [ discriminate | ].
    destruct (ExtractPkScriptAddrs W (wtxmgr.PkScript c) (chainParams w))
      as [[[class addrs] n] err].
    destruct err; [ discriminate | ]. destruct class; try discriminate.
    destruct addrs as [| addr rest]; [ discriminate | ].
    destruct (waddrmgr.AddrAccount (Manager w) addr) as [e | a] eqn:Ea;
      [ discriminate | ].
    intros H. injection H as Heq. apply Z.eqb_eq in Heq. subst a.
    repeat split; eauto.
  - destruct (LockedOutpoint w (wtxmgr.OutPoint c)); [ discriminate | ].
    destruct (ExtractPkScriptAddrs W (wtxmgr.PkScript c) (chainParams w))
      as [[[class addrs] n] err].
    destruct err; [ discriminate | ]. destruct class; try discriminate.
    destruct addrs as [| addr rest]; [ discriminate | ].
    destruct (waddrmgr.AddrAccount (Manager w) addr) as [e | a] eqn:Ea;
      [ discriminate | ].
    intros H. injection H as Heq. apply Z.eqb_eq in Heq. subst a.
    repeat split; eauto. discriminate.
Qed.

(** X1: the eligibility filter.  [findEligibleOutputs] returns a
    sub-sequence of the unspent outputs; each one it returns has the
    required confirmations, is mature when it comes from a coinbase, is
    not locked, and has a pay-to-pubkey-hash script whose first address
    belongs to the account. *)
Theorem findEligibleOutputs_sound (W : World) (w : Wallet)
  (account minconf : Z) (bs : waddrmgr.BlockStamp)
  (l : list wtxmgr.Credit) :
  findEligibleOutputs W w account minconf bs = Ok l ->
  (exists unspent, UnspentOutputs w = inr unspent /\ sublist l unspent)
  /\ forall c, In c l ->
       confirmed minconf (wtxmgr.Height c) (waddrmgr.Height bs) = true
       /\ (wtxmgr.FromCoinBase c = true ->
           confirmed blockchain.CoinbaseMaturity (wtxmgr.Height c)
                     (waddrmgr.Height bs) = true)
       /\ LockedOutpoint w (wtxmgr.OutPoint c) = false
       /\ exists addr rest n,
            ExtractPkScriptAddrs W (wtxmgr.PkScript c) (chainParams w)
            = (txscript.PubKeyHashTy, addr :: rest, n, None)
            /\ waddrmgr.AddrAccount (Manager w) addr = inr account.
Proof.
  unfold findEligibleOutputs. intros H.
  destruct (UnspentOutputs w) as [e | unspent]; [ discriminate | ].
  simpl in H. split.
  - exists unspent. split; [ reflexivity | ].
    eapply filterEligible_sublist, H.
  - intros c Hc.
    destruct (filterEligible_sound _ _ _ _ _ _ _ _ H Hc) as [_ He].
    now apply eligibleOutput_true in He.
Qed.

Lemma eligibleOutput_intro W w account minconf bs c addr rest n :
  confirmed minconf (wtxmgr.Height c) (waddrmgr.Height bs) = true ->
  (wtxmgr.FromCoinBase c = true ->
   confirmed blockchain.CoinbaseMaturity (wtxmgr.Height c)
             (waddrmgr.Height bs) = true) ->
  LockedOutpoint w (wtxmgr.OutPoint c) = false ->
  ExtractPkScriptAddrs W (wtxmgr.PkScript c) (chainParams w)
  = (txscript.PubKeyHashTy, addr :: rest, n, None) ->
  waddrmgr.AddrAccount (Manager w) addr = inr account ->
  eligibleOutput W w account minconf bs c = Ok true.
Proof.
  intros Hconf Hcb Hlock Hex Hacct. unfold eligibleOutput.
  rewrite Hconf, Hlock, Hex, Hacct. simpl.
  destruct (wtxmgr.FromCoinBase c); simpl.
  - rewrite Hcb by reflexivity. simpl. now rewrite Z.eqb_refl.
  - now rewrite Z.eqb_refl.
Qed.

(** X2: the filter leaves nothing out.  When [findEligibleOutputs]
    returns, every unspent output that is confirmed, mature, unlocked and
    pays a pubkey hash of the account is in the result. *)
Theorem findEligibleOutputs_complete (W : World) (w : Wallet)
  (account minconf : Z) (bs : waddrmgr.BlockStamp)
  (unspent l : list wtxmgr.Credit) (c : wtxmgr.Credit) addr rest n :
  UnspentOutputs w = inr unspent ->
  findEligibleOutputs W w account minconf bs = Ok l ->
  In c unspent ->
  confirmed minconf (wtxmgr.Height c) (waddrmgr.Height bs) = true ->
  (wtxmgr.FromCoinBase c = true ->
   confirmed blockchain.CoinbaseMaturity (wtxmgr.Height c)
             (waddrmgr.Height bs) = true) ->
  LockedOutpoint w (wtxmgr.OutPoint c) = false ->
  ExtractPkScriptAddrs W (wtxmgr.PkScript c) (chainParams w)
  = (txscript.PubKeyHashTy, addr :: rest, n, None) ->
  waddrmgr.AddrAccount (Manager w) addr = inr account ->
  In c l.
Proof.
  intros Hu Hfind Hin Hconf Hcb Hlock Hex Hacct.
  unfold findEligibleOutputs in Hfind. rewrite Hu in Hfind. simpl in Hfind.
  eapply filterEligible_complete; eauto.
  eapply eligibleOutput_intro; eauto.
Qed.

Lemma eligibleOutput_lock_other W w account minconf bs op c :
  wtxmgr.OutPoint c <> op ->
  eligibleOutput W (LockOutpoint w op) account minconf bs c
  = eligibleOutput W w account minconf bs c.
Proof.
  intros Hne. unfold eligibleOutput, LockedOutpoint, LockOutpoint. simpl.
  now rewrite lookup_insert_ne by congruence.
Qed.

Lemma eligibleOutput_lock_same W w account minconf bs op c b :
  wtxmgr.OutPoint c = op ->
  eligibleOutput W w account minconf bs c = Ok b ->
  eligibleOutput W (LockOutpoint w op) account minconf bs c = Ok false.
Proof.
  intros Heq. unfold eligibleOutput, LockedOutpoint, LockOutpoint. simpl.
  rewrite Heq, lookup_insert_eq.
  destruct (negb (confirmed minconf (wtxmgr.Height c) (waddrmgr.Height bs)));
    [ reflexivity | ].
  destruct (wtxmgr.FromCoinBase c
            && negb (confirmed blockchain.CoinbaseMaturity (wtxmgr.Height c)
                               (waddrmgr.Height bs))); reflexivity.
Qed.

Lemma filterEligible_lock W w account minconf bs op unspent : forall l,
  filterEligible W w account minconf bs unspent = Ok l ->
  filterEligible W (LockOutpoint w op) account minconf bs unspent
  = Ok (List.filter
          (fun c => negb (bool_decide (wtxmgr.OutPoint c = op))) l).
Proof.
  induction unspent as [| o rest IH]; simpl; intros l Hl.
  - inversion Hl. reflexivity.
  - bind_inv Hl. bind_inv Hl. inversion Hl; subst. clear Hl.
    rewrite (IH _ eq_refl).
    destruct (decide (wtxmgr.OutPoint o = op)) as [Heq | Hne].
    + rewrite (eligibleOutput_lock_same _ _ _ _ _ _ _ _ Heq E). simpl.
      destruct a; simpl; [ | reflexivity ].
      now rewrite bool_decide_eq_true_2.
    + rewrite eligibleOutput_lock_other, E by assumption. simpl.
      destruct a; simpl; [ | reflexivity ].
      now rewrite bool_decide_eq_false_2.
Qed.

(** X3: locking an outpoint removes exactly the credits at that outpoint
    from what [findEligibleOutputs] returns, and nothing else. *)
Theorem findEligibleOutputs_after_lock (W : World) (w : Wallet)
  (account minconf : Z) (bs : waddrmgr.BlockStamp) (op : wire.OutPoint)
  (l : list wtxmgr.Credit) :
  findEligibleOutputs W w account minconf bs = Ok l ->
  findEligibleOutputs W (LockOutpoint w op) account minconf bs
  = Ok (List.filter
          (fun c => negb (bool_decide (wtxmgr.OutPoint c = op))) l).
Proof.
  unfold findEligibleOutputs. simpl.
  destruct (UnspentOutputs w) as [e | unspent]; [ discriminate | ].
  simpl. apply filterEligible_lock.
Qed.

(** The loop of [CalculateAccountBalance] from a running total. *)
Lemma balance_fold_ge W w account confirms bs unspent : forall l bal,
  filterEligible W w account confirms bs unspent = Ok l ->
  Forall nonNegative unspent ->
  0 <= bal ->
  bal + sumAmounts unspent <= MaxInt64 ->
  bal + sumAmounts l
  <= fold_left
       (fun bal output =>
          if countsForAccount W w account confirms bs output
          then int64 (bal + wtxmgr.Amount output)
          else bal)
       unspent bal
  <= bal + sumAmounts unspent.
Proof.
  induction unspent as [| o rest IH]; simpl; intros l bal Hl Hnn Hb Hfit.
  - inversion Hl; subst. change (sumAmounts []) with 0. lia.
  - inversion_clear Hnn as [| ? ? Ho Hrest]. unfold nonNegative in Ho.
    pose proof (sumAmounts_nonneg _ Hrest) as Hr.
    rewrite sumAmounts_cons in Hfit.
    bind_inv Hl. bind_inv Hl. inversion Hl; subst. clear Hl.
    pose proof Hfit as Hfit'. apply is_int64_bounds in Hfit'; [ | lia ].
    assert (Hid : int64 (bal + wtxmgr.Amount o) = bal + wtxmgr.Amount o)
      by (apply int64_id; in_range).
    assert (Hcounts : a = true ->
                      countsForAccount W w account confirms bs o = true).
    { intros ->. apply eligibleOutput_true in E.
      destruct E as (Hc & Hcb & _ & addr & rest' & n & Hex & Hacct).
      unfold countsForAccount. rewrite Hc, Hex, Hacct. simpl.
      destruct (wtxmgr.FromCoinBase o); simpl.
      - rewrite Hcb by reflexivity. simpl. apply Z.eqb_refl.
      - apply Z.eqb_refl. }
    rewrite sumAmounts_cons.
    destruct (countsForAccount W w account confirms bs o) eqn:Ec.
    + rewrite Hid.
      specialize (IH a0 (bal + wtxmgr.Amount o) eq_refl Hrest).
      destruct a; rewrite ?sumAmounts_cons; lia.
    + destruct a; [ specialize (Hcounts eq_refl); discriminate | ].
      specialize (IH a0 bal eq_refl Hrest). lia.
Qed.

(** X4: what may be spent is never more than the balance.  With
    non-negative amounts that do not overflow, the credits returned by
    [findEligibleOutputs] for an account and a number of confirmations sum
    to at most the balance [CalculateAccountBalance] reports for them at
    the same block, which in turn is at most the sum of all unspent
    outputs. *)
Theorem eligible_sum_le_balance (W : World) (w : Wallet)
  (account minconf : Z) (bs : waddrmgr.BlockStamp)
  (unspent l : list wtxmgr.Credit) :
  UnspentOutputs w = inr unspent ->
  findEligibleOutputs W w account minconf bs = Ok l ->
  Forall nonNegative unspent ->
  sumAmounts unspent <= MaxInt64 ->
  exists bal,
    CalculateAccountBalance W w bs account minconf = Ok bal
    /\ sumAmounts l <= bal <= sumAmounts unspent.
Proof.
  intros Hu Hfind Hnn Hfit.
  unfold findEligibleOutputs in Hfind. unfold CalculateAccountBalance.
  rewrite Hu in *. simpl in *. eexists. split; [ reflexivity | ].
  pose proof (balance_fold_ge W w account minconf bs unspent l 0 Hfind Hnn)
    as H.
  simpl in H. apply H; lia.
Qed.

(** *** Outputs, change, signatures *)

Lemma addOutputs_from_ok W chainParams pairs : forall m tx tx' m',
  addOutputs_from W chainParams m tx pairs = (tx', m', None) ->
  exists outs,
    paysFor W chainParams pairs outs
    /\ tx' = wire.set_TxOut tx (wire.TxOut tx ++ outs).
Proof.
  induction pairs as [| [addrStr amt] rest IH]; intros m tx tx' m' H;
    simpl in H.
  - inversion H; subst. exists []. split; [ constructor | ].
    rewrite app_nil_r. now destruct tx'.
  - destruct (amt <=? 0) eqn:Ea; [ discriminate | ].
    destruct (DecodeAddress W addrStr chainParams) as [e | addr] eqn:Ed;
      [ discriminate | ].
    destruct (PayToAddrScript W addr) as [e | pkScript] eqn:Ep;
      [ discriminate | ].
    apply IH in H. destruct H as (outs & Hp & ->).
    exists (wire.mkTxOut (int64 amt) pkScript :: outs). split.
    + econstructor; eauto. lia.
    + unfold wire.set_TxOut, wire.AddTxOut, wire.NewTxOut. simpl.
      now rewrite <- app_assoc.
Qed.

Lemma addOutputs_from_nonpositive W chainParams pairs : forall m tx,
  Exists (fun p => snd p <= 0) pairs ->
  snd (addOutputs_from W chainParams m tx pairs) <> None.
Proof.
  induction pairs as [| [addrStr amt] rest IH]; intros m tx Hex;
    [ inversion Hex | ].
  simpl. destruct (amt <=? 0) eqn:Ea; [ discriminate | ].
  destruct (DecodeAddress W addrStr chainParams); [ discriminate | ].
  destruct (PayToAddrScript W a); [ discriminate | ].
  apply IH. inversion Hex as [? ? H | ? ? H]; subst; [ simpl in H; lia | exact H ].
Qed.

Lemma addOutputs_ok W chainParams tx pairs tx' total :
  addOutputs W chainParams tx pairs = (tx', total, None) ->
  total = int64 (sumPairs pairs)
  /\ wire.TxIn tx' = wire.TxIn tx
  /\ exists outs,
       paysFor W chainParams pairs outs
       /\ wire.TxOut tx' = wire.TxOut tx ++ outs
       /\ length outs = length pairs
       /\ map wire.Value outs = map (fun p => int64 (snd p)) pairs.
Proof.
  intros H. unfold addOutputs in H.
  pose proof (addOutputs_from_total W chainParams _ _ _ _ _ H) as Ht.
  apply addOutputs_from_ok in H. destruct H as (outs & Hp & ->).
  split; [ destruct Ht as [-> | [-> ->]]; reflexivity | ].
  split; [ reflexivity | ].
  exists outs. split; [ exact Hp | ]. split; [ reflexivity | ].
  clear Ht. induction Hp; simpl; [ auto | ].
  destruct IHHp as [Hl Hv]. split; congruence.
Qed.

(** X5: [addOutputs].  On success the transaction has gained exactly one
    output for each pair, in the order of the pairs, each with the amount
    as value and the script of the decoded address, nothing else has
    changed, and the total is the wrapped sum of the amounts; a pay-list
    with an amount that is zero or negative anywhere never succeeds. *)
Theorem addOutputs_appends (W : World) (chainParams : chaincfg.Params)
  (tx : wire.MsgTx) (pairs : list (string * Z)) :
  (forall tx' total,
     addOutputs W chainParams tx pairs = (tx', total, None) ->
     total = int64 (sumPairs pairs)
     /\ wire.TxIn tx' = wire.TxIn tx
     /\ exists outs,
          paysFor W chainParams pairs outs
          /\ wire.TxOut tx' = wire.TxOut tx ++ outs
          /\ length outs = length pairs
          /\ map wire.Value outs = map (fun p => int64 (snd p)) pairs)
  /\ (Exists (fun p => snd p <= 0) pairs ->
      snd (addOutputs W chainParams tx pairs) <> None).
Proof.
  split.
  - intros tx' total. apply addOutputs_ok.
  - apply addOutputs_from_nonpositive.
Qed.

Lemma swap_spec {A} (l : list A) (r c : nat) l' :
  swap l r c = Ok l' ->
  exists x y, l !! r = Some x /\ l !! c = Some y
              /\ l' = <[r := y]> (<[c := x]> l).
Proof.
  unfold swap. destruct (l !! r) as [x |] eqn:Er; [ | discriminate ].
  destruct (l !! c) as [y |] eqn:Ec; [ | discriminate ].
  intros H. inversion H; subst. eauto.
Qed.

Lemma swap_last_perm {A} (l : list A) (z : A) (r : nat) l' :
  swap (l ++ [z]) r (length l) = Ok l' ->
  Permutation l' (l ++ [z]) /\ l' !! r = Some z
  /\ length l' = S (length l) /\ (r <= length l)%nat.
Proof.
  intros H. apply swap_spec in H. destruct H as (x & y & Hr & Hc & ->).
  assert (Hy : y = z).
  { rewrite lookup_app_r, Nat.sub_diag in Hc by lia. simpl in Hc. congruence. }
  subst y.
  assert (Hlt : (r < length (l ++ [z]))%nat) by (eapply lookup_lt_Some; eauto).
  rewrite length_app in Hlt. simpl in Hlt.
  split; [ | split; [ | split ] ].
  - destruct (decide (r = length l)) as [-> | Hne].
    + rewrite list_insert_insert_eq. rewrite list_insert_id; [ reflexivity | ].
      assumption.
    + assert (Hrl : (r < length l)%nat) by lia.
      rewrite lookup_app_l in Hr by assumption.
      rewrite insert_app_r_alt by lia. rewrite Nat.sub_diag. simpl.
      rewrite insert_app_l by assumption.
      pose proof (take_drop_middle l r x Hr) as Hsplit.
      rewrite <- Hsplit at 2.
      rewrite insert_take_drop by assumption.
      rewrite <- !app_assoc. simpl.
      apply Permutation_app_head.
      transitivity (z :: x :: drop (S r) l).
      { constructor. symmetry. apply Permutation_cons_append. }
      transitivity (x :: z :: drop (S r) l); [ apply perm_swap | ].
      constructor. apply Permutation_cons_append.
  - apply list_lookup_insert_eq. rewrite length_insert, length_app. simpl. lia.
  - rewrite !length_insert, length_app. simpl. lia.
  - lia.
Qed.

Lemma addChange_ok W k tx change changeAddr tx' idx :
  Z.of_nat (length (wire.TxOut tx)) < MaxInt32 ->
  addChange W k tx change changeAddr = Ok (tx', idx) ->
  exists pkScript,
    PayToAddrScript W changeAddr = inr pkScript
    /\ Permutation (wire.TxOut tx')
                   (wire.TxOut tx ++ [wire.mkTxOut (int64 change) pkScript])
    /\ 0 <= idx < Z.of_nat (length (wire.TxOut tx'))
    /\ wire.TxOut tx' !! Z.to_nat idx
       = Some (wire.mkTxOut (int64 change) pkScript)
    /\ length (wire.TxOut tx') = S (length (wire.TxOut tx))
    /\ wire.TxIn tx' = wire.TxIn tx.
Proof.
  intros Hlen H. unfold MaxInt32 in Hlen. change (2 ^ 31) with 2147483648 in Hlen.
  assert (Hn : int32 (Z.of_nat (length (wire.TxOut tx ++ [wire.NewTxOut
                 (int64 change) []])))
               = Z.of_nat (length (wire.TxOut tx)) + 1).
  { rewrite length_app. simpl. rewrite Nat2Z.inj_add. simpl.
    apply int32_id. in_range. }
  unfold addChange in H.
  destruct (PayToAddrScript W changeAddr) as [e | pkScript] eqn:Ep;
    [ discriminate | ].
  simpl in H. exists pkScript. split; [ reflexivity | ].
  rewrite length_app in H. simpl in H.
  rewrite length_app, Nat2Z.inj_add in Hn. simpl in Hn.
  rewrite Nat2Z.inj_add in H. simpl in H. rewrite Hn in H.
  destruct (Z.of_nat (length (wire.TxOut tx)) + 1 <=? 0); [ discriminate | ].
  set (r := Int31n W k (Z.of_nat (length (wire.TxOut tx)) + 1)) in *.
  destruct (r <? 0) eqn:Er; [ discriminate | ].
  replace (length (wire.TxOut tx) + 1 - 1)%nat
    with (length (wire.TxOut tx)) in H by lia.
  bind_inv H. inversion H; subst tx' idx. clear H. simpl.
  apply swap_last_perm in E. destruct E as (Hp & Hat & Hl & Hr).
  assert (Hid : int r = r) by (apply int_id; in_range).
  rewrite Hid. repeat split; auto; lia.
Qed.

Lemma addChange_no_panic W k tx change changeAddr :
  Z.of_nat (length (wire.TxOut tx)) < MaxInt32 ->
  (forall n, 0 < n -> 0 <= Int31n W k n < n) ->
  addChange W k tx change changeAddr <> Panic.
Proof.
  intros Hlen Hrange H. unfold MaxInt32 in Hlen. change (2 ^ 31) with 2147483648 in Hlen.
  assert (Hn : int32 (Z.of_nat (length (wire.TxOut tx ++ [wire.NewTxOut
                 (int64 change) []])))
               = Z.of_nat (length (wire.TxOut tx)) + 1).
  { rewrite length_app. simpl. rewrite Nat2Z.inj_add. simpl.
    apply int32_id. in_range. }
  unfold addChange in H.
  destruct (PayToAddrScript W changeAddr) as [e | pkScript] eqn:Ep;
    [ discriminate | ].
  simpl in H. rewrite length_app in H. simpl in H.
  rewrite length_app, Nat2Z.inj_add in Hn. simpl in Hn.
  rewrite Nat2Z.inj_add in H. simpl in H. rewrite Hn in H.
  destruct (Z.of_nat (length (wire.TxOut tx)) + 1 <=? 0) eqn:E0; [ lia | ].
  specialize (Hrange (Z.of_nat (length (wire.TxOut tx)) + 1)
                     ltac:(lia)).
  set (r := Int31n W k (Z.of_nat (length (wire.TxOut tx)) + 1)) in *.
  destruct (r <? 0) eqn:Er; [ lia | ].
  replace (length (wire.TxOut tx) + 1 - 1)%nat
    with (length (wire.TxOut tx)) in H by lia.
  unfold swap in H.
  destruct (lookup_lt_is_Some_2
              (wire.TxOut tx ++ [wire.NewTxOut (int64 change) pkScript])
              (Z.to_nat r)) as [x Hx];
    [ rewrite length_app; simpl; lia | ].
  destruct (lookup_lt_is_Some_2
              (wire.TxOut tx ++ [wire.NewTxOut (int64 change) pkScript])
              (length (wire.TxOut tx))) as [y Hy];
    [ rewrite length_app; simpl; lia | ].
  rewrite Hx, Hy in H. discriminate.
Qed.

(** X6: [addChange].  When it returns, the transaction has one output
    more, its outputs are the old ones and the change output in some
    order, the returned index is in range and the output at that index is
    the change output: the change amount with the script of the change
    address.  The inputs are untouched.  With draws in range it does not
    panic. *)
Theorem addChange_places_change (W : World) (k : nat) (tx : wire.MsgTx)
  (change : Z) (changeAddr : Address) :
  Z.of_nat (length (wire.TxOut tx)) < MaxInt32 ->
  (forall tx' idx,
     addChange W k tx change changeAddr = Ok (tx', idx) ->
     exists pkScript,
       PayToAddrScript W changeAddr = inr pkScript
       /\ Permutation (wire.TxOut tx')
                      (wire.TxOut tx ++ [wire.mkTxOut (int64 change) pkScript])
       /\ 0 <= idx < Z.of_nat (length (wire.TxOut tx'))
       /\ wire.TxOut tx' !! Z.to_nat idx
          = Some (wire.mkTxOut (int64 change) pkScript)
       /\ length (wire.TxOut tx') = S (length (wire.TxOut tx))
       /\ wire.TxIn tx' = wire.TxIn tx)
  /\ ((forall n, 0 < n -> 0 <= Int31n W k n < n) ->
      addChange W k tx change changeAddr <> Panic).
Proof.
  intros Hlen. split.
  - intros tx' idx. now apply addChange_ok.
  - now apply addChange_no_panic.
Qed.

Lemma map_alter_same {A B} (g : A -> B) (f : A -> A) (l : list A) :
  (forall x, g (f x) = g x) ->
  forall i, map g (alter f i l) = map g l.
Proof.
  intros Hg. induction l as [| x l IH]; intros [| i]; simpl;
    try reflexivity.
  - now rewrite Hg.
  - f_equal. apply IH.
Qed.


Lemma sameButSignatures_refl tx : sameButSignatures tx tx.
Proof. repeat split. Qed.

Lemma sameButSignatures_trans tx1 tx2 tx3 :
  sameButSignatures tx1 tx2 -> sameButSignatures tx2 tx3 ->
  sameButSignatures tx1 tx3.
Proof.
  intros (A1 & A2 & A3 & A4 & A5) (B1 & B2 & B3 & B4 & B5).
  repeat split; congruence.
Qed.

Lemma set_SignatureScript_same tx i sigscript :
  sameButSignatures tx (wire.set_SignatureScript tx i sigscript).
Proof.
  unfold sameButSignatures, wire.set_SignatureScript. simpl.
  repeat split; apply map_alter_same; reflexivity.
Qed.

Lemma signInput_same W chainParams mgr tx i output tx' :
  signInput W chainParams mgr tx i output = Ok tx' ->
  sameButSignatures tx tx'.
Proof.
  unfold signInput.
  destruct (ExtractPkScriptAddrs W (wtxmgr.PkScript output) chainParams)
    as [[[class addrs] n] err].
  destruct addrs as [| addr [| b rest]];
    try (intros H; inversion H; subst; apply sameButSignatures_refl).
  destruct addr; try discriminate. intros H.
  bind_inv H. destruct a; [ | discriminate ].
  bind_inv H. bind_inv H. inversion H; subst.
  apply set_SignatureScript_same.
Qed.

Lemma signInputs_same W chainParams mgr prevOutputs : forall tx i tx',
  signInputs W chainParams mgr tx i prevOutputs = Ok tx' ->
  sameButSignatures tx tx'.
Proof.
  induction prevOutputs as [| o rest IH]; intros tx i tx' H; simpl in H.
  - inversion H; subst. apply sameButSignatures_refl.
  - bind_inv H. eapply sameButSignatures_trans.
    + eapply signInput_same; eassumption.
    + eapply IH; eassumption.
Qed.

Lemma signMsgTx_same W chainParams mgr tx prevOutputs tx' :
  signMsgTx W chainParams mgr tx prevOutputs = Ok tx' ->
  length prevOutputs = length (wire.TxIn tx)
  /\ sameButSignatures tx tx'
  /\ length (wire.TxIn tx') = length (wire.TxIn tx).
Proof.
  unfold signMsgTx. intros H.
  destruct (length prevOutputs =? length (wire.TxIn tx))%nat eqn:E;
    simpl in H; [ | discriminate ].
  apply Nat.eqb_eq in E. apply signInputs_same in H.
  split; [ exact E | ]. split; [ exact H | ].
  destruct H as (_ & _ & _ & Hp & _).
  apply (f_equal (@length _)) in Hp. now rewrite !length_map in Hp.
Qed.

(** X7: [signMsgTx] touches signature scripts only.  When it returns
    without error there were as many previous outputs as inputs, and the
    version, lock time, outputs, and the previous outpoint and sequence of
    every input are what they were; with a different number of previous
    outputs it fails and signs nothing. *)
Theorem signMsgTx_changes_signatures_only (W : World)
  (chainParams : chaincfg.Params) (mgr : waddrmgr.Manager)
  (tx : wire.MsgTx) (prevOutputs : list wtxmgr.Credit) :
  (forall tx',
     signMsgTx W chainParams mgr tx prevOutputs = Ok tx' ->
     length prevOutputs = length (wire.TxIn tx)
     /\ sameButSignatures tx tx'
     /\ length (wire.TxIn tx') = length (wire.TxIn tx))
  /\ (length prevOutputs <> length (wire.TxIn tx) ->
      signMsgTx W chainParams mgr tx prevOutputs
      = Err (ErrPrevOutputsMismatch (length prevOutputs)
                                    (length (wire.TxIn tx)))).
Proof.
  split.
  - intros tx'. apply signMsgTx_same.
  - unfold signMsgTx. intros Hne. apply Nat.eqb_neq in Hne. now rewrite Hne.
Qed.

Lemma validateInputs_ok W tx prevOutputs n : forall i,
  validateInputs W tx prevOutputs i n = Ok tt <->
  forall j, (i <= j < i + n)%nat ->
    exists prev, prevOutputs !! j = Some prev
                 /\ NewEngine W (wtxmgr.PkScript prev) tx j = None
                 /\ Execute W (wtxmgr.PkScript prev) tx j = None.
Proof.
  induction n as [| n IH]; intros i; simpl.
  - split; [ intros _ j Hj; lia | reflexivity ].
  - split.
    + intros H j Hj.
      destruct (prevOutputs !! i) as [prev |] eqn:Ep; [ | discriminate ].
      destruct (NewEngine W (wtxmgr.PkScript prev) tx i) eqn:En;
        [ discriminate | ].
      destruct (Execute W (wtxmgr.PkScript prev) tx i) eqn:Ee;
        [ discriminate | ].
      destruct (decide (j = i)) as [-> | Hne]; [ eauto | ].
      apply (proj1 (IH (S i)) H). lia.
    + intros H.
      destruct (H i ltac:(lia)) as (prev & -> & -> & ->).
      apply IH. intros j Hj. apply H. lia.
Qed.

Lemma validateMsgTx_ok W tx prevOutputs :
  validateMsgTx W tx prevOutputs = Ok tt <->
  forall j, (j < length (wire.TxIn tx))%nat ->
    exists prev, prevOutputs !! j = Some prev
                 /\ NewEngine W (wtxmgr.PkScript prev) tx j = None
                 /\ Execute W (wtxmgr.PkScript prev) tx j = None.
Proof.
  unfold validateMsgTx. rewrite validateInputs_ok.
  split; intros H j Hj; apply H; lia.
Qed.

(** X8: [validateMsgTx] accepts a transaction exactly when every input
    has a previous output whose script the engine can be created for and
    executes without error; with fewer previous outputs than inputs it
    never accepts. *)
Theorem validateMsgTx_accepts_iff (W : World) (tx : wire.MsgTx)
  (prevOutputs : list wtxmgr.Credit) :
  (validateMsgTx W tx prevOutputs = Ok tt <->
   forall j, (j < length (wire.TxIn tx))%nat ->
     exists prev, prevOutputs !! j = Some prev
                  /\ NewEngine W (wtxmgr.PkScript prev) tx j = None
                  /\ Execute W (wtxmgr.PkScript prev) tx j = None)
  /\ ((length prevOutputs < length (wire.TxIn tx))%nat ->
      forall u, validateMsgTx W tx prevOutputs <> Ok u).
Proof.
  split; [ apply validateMsgTx_ok | ].
  intros Hlt [] H.
  destruct (proj1 (validateMsgTx_ok W tx prevOutputs) H
              (length prevOutputs) Hlt) as (prev & Hp & _).
  apply lookup_lt_Some in Hp. lia.
Qed.

(** *** Fee arithmetic *)

(** X9: the fee for a size.  For a non-negative increment and sizes
    whose fee does not overflow, [feeForSize] is one increment for each
    started kilobyte plus one: it is the increment itself below 1000
    bytes, never less than the increment, and grows with the size. *)
Theorem feeForSize_steps (incr sz sz' : Z) :
  0 <= incr -> 0 <= sz <= sz' -> sz' <= MaxInt64 ->
  (1 + sz' / 1000) * incr <= MaxInt64 ->
  feeForSize incr sz = (1 + sz / 1000) * incr
  /\ (sz < 1000 -> feeForSize incr sz = incr)
  /\ incr <= feeForSize incr sz <= feeForSize incr sz'.
Proof.
  intros Hi [Hs Hss] Hmax Hfit.
  assert (Hq : 0 <= sz / 1000 <= sz' / 1000)
    by (split; [ apply Z.div_pos | apply Z.div_le_mono ]; lia).
  assert (Hfit0 : (1 + sz / 1000) * incr <= MaxInt64) by nia.
  rewrite (feeForSize_in_range incr sz) by (try split; lia).
  rewrite (feeForSize_in_range incr sz') by (try split; lia).
  split; [ reflexivity | ]. split; [ | nia ].
  intros Hlt. rewrite Z.div_small by lia. lia.
Qed.

Lemma feeForSize_steps_witness :
  feeForSize 1000 556 = 1000 /\ feeForSize 1000 556 <= feeForSize 1000 1000.
Proof.
  destruct (feeForSize_steps 1000 556 1000 ltac:(lia) ltac:(lia)
              ltac:(vm_compute; discriminate) ltac:(vm_compute; discriminate))
    as (_ & H1 & H2).
  split; [ apply H1; lia | apply H2 ].
Defined.

(** X10: the two depth functions.  [chainDepth], which the fee policy
    uses, and [confirms], which eligibility uses, agree on an unmined
    transaction and on one at or below the tip; for a transaction
    recorded above the tip [confirms] is 0 while [chainDepth] is the
    unclamped [current - target + 1], which is zero or negative. *)
Theorem chainDepth_and_confirms (target current : Z) :
  is_int32 target -> 0 <= current <= MaxInt32 ->
  (target = -1 \/ target <= current ->
   chainDepth target current = confirms target current)
  /\ (target <> -1 -> current < target ->
      confirms target current = 0
      /\ chainDepth target current = current - target + 1
      /\ chainDepth target current <= 0).
Proof.
  intros Ht [Hc0 Hc]. unfold is_int32, MinInt32, MaxInt32 in *.
  change (2 ^ 31) with 2147483648 in *.
  split.
  - intros H. unfold chainDepth, confirms.
    destruct (target =? -1) eqn:E; [ reflexivity | ].
    destruct H as [-> | H]; [ discriminate | ].
    destruct (target >? current) eqn:E2; [ lia | reflexivity ].
  - intros Hne Hlt. split; [ apply confirms_above_tip; lia | ].
    unfold chainDepth.
    destruct (target =? -1) eqn:E; [ lia | ].
    rewrite (int32_id (current - target)) by in_range.
    rewrite int32_id by in_range. lia.
Qed.

Lemma chainDepth_and_confirms_witness :
  chainDepth 100 11111 = confirms 100 11111
  /\ confirms 11113 11111 = 0 /\ chainDepth 11113 11111 = -1.
Proof.
  assert (Hr : forall z, 0 <= z <= 20000 -> is_int32 z)
    by (intros; in_range).
  assert (Hc : 0 <= 11111 <= MaxInt32)
    by (vm_compute; split; discriminate).
  destruct (chainDepth_and_confirms 100 11111 (Hr 100 ltac:(lia)) Hc)
    as [H1 _].
  destruct (chainDepth_and_confirms 11113 11111 (Hr 11113 ltac:(lia)) Hc)
    as [_ H2].
  split; [ apply H1; lia | ].
  destruct H2 as (Ha & Hb & _); [ lia | lia | ].
  split; [ exact Ha | rewrite Hb; reflexivity ].
Defined.

Lemma weightedSum_unmined curHeight txouts :
  Forall (fun c => wtxmgr.Height c = -1) txouts ->
  weightedSum curHeight txouts = 0.
Proof.
  unfold weightedSum. intros H.
  assert (Hgen : forall acc, acc = 0 ->
            fold_left
              (fun acc txout =>
                 let depth := chainDepth (wtxmgr.Height txout) curHeight in
                 int64 (acc + int64 (wtxmgr.Amount txout * depth)))
              txouts acc = 0).
  { induction H as [| c l Hc Hl IH]; intros acc ->; simpl; [ reflexivity | ].
    apply IH. rewrite Hc. unfold chainDepth. simpl.
    rewrite Z.mul_0_r. reflexivity. }
  now apply Hgen.
Qed.

(** X11: unmined credits never make a transaction free.  When every
    credit spent is unmined, the priority is zero (or not a number, for a
    size of zero) and [allowNoFeeTx] answers false, whatever the size. *)
Theorem allowNoFeeTx_unmined (curHeight : Z) (txouts : list wtxmgr.Credit)
  (txSize : Z) :
  Forall (fun c => wtxmgr.Height c = -1) txouts ->
  allowNoFeeTx curHeight txouts txSize = false.
Proof.
  intros H. unfold allowNoFeeTx. rewrite weightedSum_unmined by assumption.
  change (float64_of_int 0) with (S754_zero false).
  unfold float64_gt, float64_div.
  destruct (float64_of_int txSize) as [s | s | | s m e]; reflexivity.
Qed.

Lemma allowNoFeeTx_unmined_witness :
  allowNoFeeTx 11111 TestNet.creditsS1 516 = false.
Proof.
  apply allowNoFeeTx_unmined. repeat constructor.
Defined.

(** X12: with free transactions disallowed the minimum fee is the fee for
    the size, capped at [MaxSatoshi]; it does not depend on the outputs,
    the credits or the height, and it is at least the increment. *)
Theorem minimumFee_disallowFree (incr txLen : Z)
  (outputs : list wire.txout) (prevOutputs : list wtxmgr.Credit)
  (height : Z) :
  0 <= incr <= MaxSatoshi -> 0 <= txLen <= MaxInt64 ->
  (1 + txLen / 1000) * incr <= MaxInt64 ->
  minimumFee incr txLen outputs prevOutputs height true
  = Z.min MaxSatoshi ((1 + txLen / 1000) * incr)
  /\ incr <= minimumFee incr txLen outputs prevOutputs height true.
Proof.
  intros Hi Ht Hfit.
  assert (Hq : 0 <= txLen / 1000) by (apply Z.div_pos; lia).
  rewrite minimumFee_unfold. unfold fee_steps_1_2. simpl.
  rewrite feeForSize_in_range by lia.
  set (fee := (1 + txLen / 1000) * incr).
  assert (Hfee : incr <= fee) by (unfold fee; nia).
  destruct (fee <? incr) eqn:E1; [ lia | ]. simpl.
  destruct (fee <? 0) eqn:E2; [ lia | ]. simpl.
  destruct (fee >? MaxSatoshi) eqn:E3; lia.
Qed.

Lemma minimumFee_disallowFree_witness :
  minimumFee 1000 2500 [] TestNet.creditsS1 11111 true = 3000.
Proof.
  destruct (minimumFee_disallowFree 1000 2500 [] TestNet.creditsS1 11111
              ltac:(vm_compute; split; discriminate)
              ltac:(vm_compute; split; discriminate)
              ltac:(vm_compute; discriminate))
    as [H _].
  rewrite H. reflexivity.
Defined.

(** *** Holds *)

Ltac locked_now :=
  match goal with
  | Hnow : forall s s' out, _ -> _, Hl : Locker.lockNow _ _ _ = (_, _) |- _ =>
    destruct (Hnow _ _ _ Hl) as [-> ->]; reflexivity
  end.

Section HoldFacts.

Context {M : Type}.
Variable mgrUnlock : M -> list Byte.byte -> M * option ext_error.
Variable mgrLock : M -> M * option ext_error.
Variable mgrIsLocked : M -> bool.
Variable mgrChangePassphrase :
  M -> list Byte.byte -> list Byte.byte -> M * option ext_error.

Local Abbreviation step :=
  (Locker.step M mgrUnlock mgrLock mgrIsLocked mgrChangePassphrase).
Local Abbreviation run :=
  (Locker.run M mgrUnlock mgrLock mgrIsLocked mgrChangePassphrase).
Local Abbreviation lockNow := (Locker.lockNow M mgrLock).

Lemma lockNow_holds s s' out :
  lockNow s = (s', out) -> grants out = 0%nat /\ holdsOut s' = 0%nat.
Proof.
  unfold Locker.lockNow. destruct (Locker.timeout M s).
  - destruct (mgrLock (Locker.mgr M s)) as [m [e |]];
      intros H; inversion H; subst; split; reflexivity.
  - intros H; inversion H; subst; split; reflexivity.
Qed.

Lemma step_holds s ev s' out :
  step s ev = Some (s', out) ->
  (holdsOut s + grants out = releases [ev] + holdsOut s')%nat.
Proof.
  pose proof lockNow_holds as Hnow.
  unfold Locker.step. destruct (Locker.running M s); simpl; [ | discriminate ].
  unfold holdsOut at 1. destruct (Locker.held M s) eqn:Hh.
  - destruct ev; try discriminate.
    + destruct (Locker.timeout M s) as [[] |]; intros H; inversion H; subst;
        try reflexivity.
      locked_now.
    + destruct (Locker.timeout M s) as [[] |]; intros H; inversion H; subst;
        reflexivity.
  - destruct ev; intros H.
    + destruct (mgrUnlock (Locker.mgr M s) passphrase) as [m [e |]];
        inversion H; subst; reflexivity.
    + destruct (mgrChangePassphrase (Locker.mgr M s) old new) as [m err];
        inversion H; subst; reflexivity.
    + destruct (mgrIsLocked (Locker.mgr M s)); inversion H; subst;
        unfold holdsOut; simpl; rewrite ?Hh; reflexivity.
    + inversion H; subst. unfold holdsOut. now rewrite Hh.
    + inversion H; subst. reflexivity.
    + inversion H; subst. locked_now.
    + destruct (Locker.timeout M s) as [[] |]; inversion H; subst.
      locked_now.
    + discriminate.
    + destruct (Locker.timeout M s) as [[] |]; inversion H; subst.
      reflexivity.
Qed.

Lemma grants_app o1 o2 : grants (o1 ++ o2) = (grants o1 + grants o2)%nat.
Proof. unfold grants. now rewrite List.filter_app, length_app. Qed.

(** X13: holds are granted one at a time.  Along every run of the
    locker, the holds granted so far are the releases received so far plus
    the hold that is out at the end, one at most: a second hold is never
    granted before the first is released. *)
Theorem one_hold_at_a_time (evs : list Locker.event) :
  forall s s' out,
    run s evs = Some (s', out) ->
    (holdsOut s + grants out = releases evs + holdsOut s')%nat
    /\ (holdsOut s' <= 1)%nat.
Proof.
  induction evs as [| ev rest IH]; intros s s' out H; simpl in H.
  - inversion H; subst. split; [ unfold grants, releases; simpl; lia | ].
    unfold holdsOut. destruct (Locker.held M s'); lia.
  - destruct (step s ev) as [[s1 out1] |] eqn:Hstep; [ | discriminate ].
    destruct (run s1 rest) as [[s2 out2] |] eqn:Hrest; [ | discriminate ].
    inversion H; subst. clear H.
    apply step_holds in Hstep. apply IH in Hrest. destruct Hrest as [Hr Hle].
    split; [ | exact Hle ].
    rewrite grants_app.
    assert (Hsplit : releases (ev :: rest)
                     = (releases [ev] + releases rest)%nat).
    { unfold releases. simpl. destruct ev; simpl; lia. }
    lia.
Qed.

(** X14: what a lock request does.  Received while no lock timer is set
    (after an unlock with a zero timeout, say), it does not touch the
    manager and reports nothing; received while a timer is set, it clears
    the timer and calls the manager's lock, reporting the locked state
    when that call succeeds. *)
Theorem lock_request_needs_timer (s : Locker.state M) :
  Locker.running M s = true -> Locker.held M s = false ->
  (Locker.timeout M s = None ->
   step s Locker.LockRequest = Some (s, []))
  /\ (Locker.timeout M s <> None ->
      step s Locker.LockRequest
      = Some (Locker.mkState M (fst (mgrLock (Locker.mgr M s))) None false
                             true,
              match snd (mgrLock (Locker.mgr M s)) with
              | Some e => [Locker.LogError e]
              | None => [Locker.NotifyLockStateChange true]
              end))
  /\ (forall passphrase,
        snd (mgrUnlock (Locker.mgr M s) passphrase) = None ->
        run s [Locker.UnlockRequest passphrase 0; Locker.LockRequest]
        = Some (Locker.mkState M (fst (mgrUnlock (Locker.mgr M s) passphrase))
                               None false true,
                [Locker.NotifyLockStateChange false; Locker.UnlockReply None])).
Proof.
  intros Hrun Hheld. split; [ | split ].
  - intros Ht. unfold Locker.step, Locker.lockNow.
    rewrite Hrun, Hheld, Ht. simpl. destruct s; simpl in *. congruence.
  - intros Ht. unfold Locker.step, Locker.lockNow.
    rewrite Hrun, Hheld. simpl.
    destruct (Locker.timeout M s); [ | congruence ].
    destruct (mgrLock (Locker.mgr M s)) as [m [e |]]; reflexivity.
  - intros passphrase Hok. simpl. unfold Locker.step at 1.
    rewrite Hrun, Hheld. simpl.
    destruct (mgrUnlock (Locker.mgr M s) passphrase) as [m err].
    simpl in Hok. subst err. reflexivity.
Qed.

(** X15: [txToPairs] and the hold.  On a locked manager it returns the
    locked error without building and leaves the locker as it was.
    Otherwise it returns what the build returned, and the hold is released
    whatever that is: the locker ends without a hold, untouched if no lock
    timer ran out, and locked at the release if one did. *)
Theorem txToPairs_releases_hold (W : World) (w : Wallet)
  (s : Locker.state M) (expires : bool)
  (blockStamp : result waddrmgr.BlockStamp)
  (newChangeAddress : Z -> result Address) (fuel : nat)
  (pairs : list (string * Z)) (account minconf : Z) :
  Locker.running M s = true -> Locker.held M s = false ->
  let built :=
    buildTx W w blockStamp newChangeAddress fuel pairs account minconf in
  let ranOut :=
    match Locker.timeout M s with
    | Some true => true
    | Some false => expires
    | None => false
    end in
  (mgrIsLocked (Locker.mgr M s) = true ->
   txToPairs M mgrUnlock mgrLock mgrIsLocked mgrChangePassphrase W w s expires
             blockStamp newChangeAddress fuel pairs account minconf
   = Some (s, [], Err (ErrExternal "address manager is locked"%string)))
  /\ (mgrIsLocked (Locker.mgr M s) = false ->
      exists s' out,
        txToPairs M mgrUnlock mgrLock mgrIsLocked mgrChangePassphrase W w s
                  expires blockStamp newChangeAddress fuel pairs account
                  minconf
        = Some (s', out, built)
        /\ Locker.held M s' = false /\ Locker.running M s' = true
        /\ (ranOut = false -> s' = s /\ out = [])
        /\ (ranOut = true ->
            Locker.mgr M s' = fst (mgrLock (Locker.mgr M s))
            /\ Locker.timeout M s' = None)).
Proof.
  intros Hrun Hheld built ranOut. split.
  - intros Hlocked. unfold txToPairs, Locker.HoldUnlock, Locker.step.
    rewrite Hrun, Hheld, Hlocked. reflexivity.
  - intros Hlocked. unfold txToPairs, Locker.HoldUnlock, Locker.step.
    rewrite Hrun, Hheld, Hlocked. simpl. fold built.
    destruct s as [m t h r]. simpl in *. subst h r.
    unfold ranOut.
    destruct t as [[] |], expires; simpl; unfold Locker.lockNow; simpl;
      try (destruct (mgrLock m) as [m' [e |]]; simpl);
      do 2 eexists; (split; [ reflexivity | ]); simpl;
      repeat split; try discriminate; auto.
Qed.

End HoldFacts.

Lemma one_hold_at_a_time_witness :
  (grants [Locker.NotifyLockStateChange false; Locker.UnlockReply None;
           Locker.HoldGranted; Locker.NotifyLockStateChange true;
           Locker.LockStateReply true]
   = releases [Locker.UnlockRequest [Byte.x70] 10; Locker.HoldUnlockRequest;
               Locker.TimerExpires; Locker.Release; Locker.LockStateQuery])%nat.
Proof.
  pose proof (proj1 (one_hold_at_a_time bitUnlock bitLock id bitChange
                       _ _ _ _ hold_then_expire_then_release)) as H.
  exact H.
Defined.

Lemma lock_request_needs_timer_witness :
  Locker.step bool bitUnlock bitLock id bitChange
    (Locker.mkState bool false None false true) Locker.LockRequest
  = Some (Locker.mkState bool false None false true, []).
Proof.
  apply (lock_request_needs_timer bitUnlock bitLock id bitChange
           (Locker.mkState bool false None false true) eq_refl eq_refl).
  reflexivity.
Defined.

Lemma txToPairs_releases_hold_witness :
  txToPairs bool bitUnlock bitLock id bitChange TestNet.world
    (mkWallet TestNet.manager (inr TestNet.creditsS1) ∅ 1000 false
              chaincfg.TestNet3Params)
    (Locker.mkState bool true None false true) false
    (inr (waddrmgr.mkBlockStamp 11111 0)) TestNet.tstChangeAddress 1
    TestNet.pairsS1 0 0
  = Some (Locker.mkState bool true None false true, [],
          Err (ErrExternal "address manager is locked"%string)).
Proof.
  apply (txToPairs_releases_hold bitUnlock bitLock id bitChange);
    reflexivity.
Defined.

(** *** What a built transaction is made of *)

Lemma removeAt_perm {A} (l : list A) (i : Z) (x : A) l' :
  0 <= i -> l !! Z.to_nat i = Some x ->
  removeAt i l = Ok l' ->
  Permutation l (x :: l').
Proof.
  intros Hi Hx. unfold removeAt.
  destruct ((i <? 0) || (Z.of_nat (length l) <=? i)); [ discriminate | ].
  intros H. inversion H; subst.
  rewrite <- (take_drop_middle l (Z.to_nat i) x Hx) at 1.
  symmetry. apply Permutation_middle.
Qed.

Lemma removeAt_ok {A} (l : list A) (i : Z) :
  0 <= i < Z.of_nat (length l) -> exists l', removeAt i l = Ok l'.
Proof.
  intros Hi. unfold removeAt.
  destruct (i <? 0) eqn:E1; [ lia | ].
  destruct (Z.of_nat (length l) <=? i) eqn:E2; [ lia | ].
  simpl. eauto.
Qed.

Section BuiltFacts.

Variable W : World.
Variable chainParams : chaincfg.Params.
Variable mgr : waddrmgr.Manager.
Variable bs : waddrmgr.BlockStamp.
Variable feeIncrement : Z.
Variable account : Z.
Variable changeAddress : Z -> result Address.
Variable disallowFree : bool.

Local Abbreviation coverFee' := (coverFee bs feeIncrement disallowFree).
Local Abbreviation body :=
  (feeLoopBody W chainParams mgr bs feeIncrement account changeAddress
               disallowFree).
Local Abbreviation loop :=
  (feeLoop W chainParams mgr bs feeIncrement account changeAddress
           disallowFree).

Lemma spending_take payOuts v c rest :
  spending payOuts v ->
  spending payOuts (takeInput c rest v)
  /\ spending payOuts (reestimate bs feeIncrement disallowFree
                                  (takeInput c rest v)).
Proof.
  intros [Hin Hout]. unfold spending. simpl.
  rewrite !map_app, Hin. simpl. auto.
Qed.

Lemma coverOutputs_spending payOuts minAmount el : forall v v',
  spending payOuts v ->
  coverOutputs minAmount el v = Ok v' -> spending payOuts v'.
Proof.
  induction el as [| c rest IH]; intros v v' Hs H; simpl in H;
    destruct (totalAdded v <? minAmount); try discriminate;
    try (inversion H; subst; exact Hs).
  eapply IH; [ | exact H ]. now apply spending_take.
Qed.

Lemma coverFee_spending payOuts minAmount el : forall v v',
  spending payOuts v ->
  coverFee' minAmount el v = Ok v' -> spending payOuts v'.
Proof.
  induction el as [| c rest IH]; intros v v' Hs H; simpl in H;
    destruct (totalAdded v <? int64 (minAmount + feeEst v));
    try discriminate; try (inversion H; subst; exact Hs).
  eapply IH; [ | exact H ]. now apply spending_take.
Qed.

(** The first half of a pass: the change output, if any, and the
    signatures. *)
Lemma feeLoopBody_signed minAmount v p :
  body minAmount v = Ok p ->
  let change := int64 (int64 (totalAdded v - minAmount) - feeEst v) in
  exists v0 signed,
    eligible v0 = eligible v /\ inputs v0 = inputs v
    /\ totalAdded v0 = totalAdded v /\ feeEst v0 = feeEst v
    /\ signMsgTx W chainParams mgr (msgtx v0) (inputs v) = Ok signed
    /\ ((change <= 0 /\ v0 = v)
        \/ (0 < change /\ exists a,
              changeAddr v0 = Some a
              /\ addChange W (rngCalls v) (msgtx v) change a
                 = Ok (msgtx v0, changeIdx v0)))
    /\ ((feeForSize feeIncrement (int (SerializeSize W signed)) <= feeEst v
         /\ p = Done (set_msgtx v0 signed))
        \/ (feeEst v < feeForSize feeIncrement (int (SerializeSize W signed))
            /\ exists v1 v',
                 p = Again v'
                 /\ raisedFrom feeIncrement v v1
                 /\ coverFee' minAmount (eligible v1) v1 = Ok v'
                 /\ wire.TxIn (msgtx v1) = wire.TxIn signed
                 /\ ((change <= 0 /\ wire.TxOut (msgtx v1) = wire.TxOut signed)
                     \/ (0 < change
                         /\ removeAt (changeIdx v0) (wire.TxOut signed)
                            = Ok (wire.TxOut (msgtx v1)))))).
Proof.
  unfold feeLoopBody. intros H.
  set (change := int64 (int64 (totalAdded v - minAmount) - feeEst v)) in *.
  bind_inv H. rename a into v0.
  assert (Hv0 : eligible v0 = eligible v /\ inputs v0 = inputs v
                /\ totalAdded v0 = totalAdded v /\ feeEst v0 = feeEst v
                /\ ((change <= 0 /\ v0 = v)
                    \/ (0 < change /\ exists a,
                          changeAddr v0 = Some a
                          /\ addChange W (rngCalls v) (msgtx v) change a
                             = Ok (msgtx v0, changeIdx v0)))).
  { destruct (change >? 0) eqn:Ec.
    - bind_inv E. bind_inv E. inversion E; subst v0. simpl.
      repeat split; auto. right. split; [ lia | ].
      exists a. split; [ reflexivity | ]. now destruct a0.
    - inversion E; subst v0. repeat split; auto. left. split; [ lia | auto ]. }
  destruct Hv0 as (H1 & H2 & H3 & H4 & Hchange). clear E.
  bind_inv H. rename a into signed.
  exists v0, signed. rewrite <- H2.
  split; [ exact H1 | ]. split; [ reflexivity | ]. split; [ exact H3 | ].
  split; [ exact H4 | ]. split; [ exact E | ]. split; [ exact Hchange | ].
  simpl in H. rewrite H4 in H.
  destruct (feeForSize feeIncrement (int (SerializeSize W signed))
            <=? feeEst v) eqn:Ef.
  - left. split; [ lia | ]. inversion H; subst. reflexivity.
  - right. split; [ lia | ].
    bind_inv H. rename a into v1.
    assert (Hv1 : eligible v1 = eligible v0 /\ inputs v1 = inputs v0
                  /\ totalAdded v1 = totalAdded v0 /\ feeEst v1 = feeEst v0
                  /\ wire.TxIn (msgtx v1) = wire.TxIn signed
                  /\ ((change <= 0
                       /\ wire.TxOut (msgtx v1) = wire.TxOut signed)
                      \/ (0 < change
                          /\ removeAt (changeIdx v0) (wire.TxOut signed)
                             = Ok (wire.TxOut (msgtx v1))))).
    { destruct (change >? 0) eqn:Ec.
      - bind_inv E0. inversion E0; subst v1. simpl.
        repeat split; auto. right. split; [ lia | reflexivity ].
      - inversion E0; subst v1. simpl.
        repeat split; auto. left. split; [ lia | reflexivity ]. }
    clear E0. destruct Hv1 as (G1 & G2 & G3 & G4 & G5 & G6).
    bind_inv H. inversion H; subst p. clear H.
    exists (set_fee v1 (szEst v1) (int64 (feeEst v1 + feeIncrement))), a.
    split; [ reflexivity | ].
    split; [ unfold raisedFrom; simpl; repeat split; congruence | ].
    split; [ assumption | ]. simpl. split; assumption.
Qed.

Lemma pass_Again_spending payOuts minAmount v v' :
  spending payOuts v ->
  Z.of_nat (length payOuts) < MaxInt32 ->
  body minAmount v = Ok (Again v') ->
  spending payOuts v'.
Proof.
  intros [Hin Hout] Hlen Hbody.
  assert (Hlen' : Z.of_nat (length (wire.TxOut (msgtx v))) < MaxInt32)
    by (rewrite (Permutation_length Hout); exact Hlen).
  destruct (feeLoopBody_signed _ _ _ Hbody)
    as (v0 & signed & H1 & H2 & H3 & H4 & Hsign & Hchange & Hend).
  destruct Hend as [[_ Habs] | (_ & v1 & v'' & Hp & Hr & Hc & Hti & Hto)];
    [ discriminate | ].
  inversion Hp; subst v''. clear Hp.
  apply signMsgTx_same in Hsign.
  destruct Hsign as (_ & (_ & _ & So & Sp & _) & _).
  eapply coverFee_spending; [ | exact Hc ].
  destruct Hr as (R1 & R2 & _). unfold spending. rewrite R2, Hti, Sp.
  destruct Hchange as [[Hc0 ->] | (Hc0 & a & Ha & Hadd)].
  - destruct Hto as [[_ Hto] | [Hto _]]; [ | lia ].
    rewrite Hto, So. auto.
  - destruct Hto as [[Hto _] | [_ Hto]]; [ lia | ].
    destruct (addChange_ok W _ _ _ a _ _ Hlen' Hadd)
      as (pk & _ & Hperm & Hidx & Hat & _ & Htxin).
    rewrite Htxin. split; [ exact Hin | ].
    rewrite So in Hto.
    pose proof (removeAt_perm _ _ _ _ (proj1 Hidx) Hat Hto) as Hrm.
    rewrite Hperm in Hrm.
    apply Permutation_cons_inv with (a := wire.mkTxOut
      (int64 (int64 (int64 (totalAdded v - minAmount) - feeEst v))) pk).
    rewrite <- Hrm. rewrite <- Hout.
    symmetry. apply Permutation_cons_append.
Qed.

(** The pass that leaves the loop. *)
Lemma pass_Done payOuts minAmount v v' :
  spending payOuts v ->
  Z.of_nat (length payOuts) < MaxInt32 ->
  body minAmount v = Ok (Done v') ->
  let change := int64 (int64 (totalAdded v - minAmount) - feeEst v) in
  inputs v' = inputs v /\ eligible v' = eligible v
  /\ totalAdded v' = totalAdded v /\ feeEst v' = feeEst v
  /\ map wire.PreviousOutPoint (wire.TxIn (msgtx v'))
     = map wtxmgr.OutPoint (inputs v)
  /\ feeForSize feeIncrement (int (SerializeSize W (msgtx v'))) <= feeEst v
  /\ (change <= 0 ->
      Permutation (wire.TxOut (msgtx v')) payOuts
      /\ changeIdx v' = changeIdx v /\ changeAddr v' = changeAddr v)
  /\ (0 < change ->
      exists a pkScript,
        changeAddr v' = Some a /\ PayToAddrScript W a = inr pkScript
        /\ Permutation (wire.TxOut (msgtx v'))
                       (payOuts ++ [wire.mkTxOut (int64 change) pkScript])
        /\ 0 <= changeIdx v' < Z.of_nat (length (wire.TxOut (msgtx v')))
        /\ wire.TxOut (msgtx v') !! Z.to_nat (changeIdx v')
           = Some (wire.mkTxOut (int64 change) pkScript)).
Proof.
  intros [Hin Hout] Hlen Hbody change.
  assert (Hlen' : Z.of_nat (length (wire.TxOut (msgtx v))) < MaxInt32)
    by (rewrite (Permutation_length Hout); exact Hlen).
  destruct (feeLoopBody_signed _ _ _ Hbody)
    as (v0 & signed & H1 & H2 & H3 & H4 & Hsign & Hchange & Hend).
  fold change in Hchange.
  destruct Hend as [[Hfee Hp] | (_ & v1 & v'' & Hp & _)];
    [ | discriminate ].
  inversion Hp; subst v'. clear Hp. simpl.
  apply signMsgTx_same in Hsign.
  destruct Hsign as (_ & (_ & _ & So & Sp & _) & _).
  rewrite So, Sp.
  split; [ exact H2 | ]. split; [ exact H1 | ]. split; [ exact H3 | ].
  split; [ exact H4 | ].
  destruct Hchange as [[Hc0 ->] | (Hc0 & a & Ha & Hadd)].
  - split; [ exact Hin | ]. split; [ exact Hfee | ].
    split; [ auto | intros; lia ].
  - destruct (addChange_ok W _ _ _ a _ _ Hlen' Hadd)
      as (pk & Hpk & Hperm & Hidx & Hat & _ & Htxin).
    rewrite Htxin. split; [ exact Hin | ]. split; [ exact Hfee | ].
    split; [ intros; lia | ]. intros _.
    exists a, pk. split; [ exact Ha | ]. split; [ exact Hpk | ].
    split; [ | split; assumption ].
    rewrite Hperm. now apply Permutation_app_tail.
Qed.

(** The fee loop returns from a pass that is reached through passes
    keeping whatever the passes keep. *)
Lemma feeLoop_last (I : vars -> Prop) minAmount :
  (forall u u', I u -> body minAmount u = Ok (Again u') -> I u') ->
  forall fuel v v',
    I v -> loop fuel minAmount v = Ok v' ->
    exists u, I u /\ body minAmount u = Ok (Done v').
Proof.
  intros Hkeep. induction fuel as [| fuel IH]; intros v v' Hv H; simpl in H;
    [ discriminate | ].
  bind_inv H. destruct a as [u' | u'].
  - eapply IH; [ | exact H ]. eapply Hkeep; eauto.
  - inversion H; subst. eauto.
Qed.

Lemma selectInputs_spending credits outputs minAmount v :
  selectInputs W chainParams bs feeIncrement disallowFree credits outputs
  = Ok (minAmount, v) ->
  exists payOuts,
    paysFor W chainParams outputs payOuts /\ spending payOuts v
    /\ length payOuts = length outputs.
Proof.
  unfold selectInputs.
  destruct (addOutputs W chainParams wire.NewMsgTx outputs)
    as [[tx0 m] [e |]] eqn:Hadd; [ discriminate | ].
  destruct (addOutputs_ok W chainParams wire.NewMsgTx outputs _ _ Hadd) as (_ & Htxin & outs & Hp & Hto & Hl & _).
  intros H. exists outs. split; [ exact Hp | ]. split; [ | exact Hl ].
  bind_inv H. bind_inv H. inversion H; subst. clear H.
  eapply coverFee_spending; [ | eassumption ].
  assert (Hs : spending outs a).
  { eapply coverOutputs_spending; [ | eassumption ].
    unfold spending. simpl. rewrite Htxin, Hto. simpl. auto. }
  exact Hs.
Qed.

(** X16: what a transaction built by [createTx] is made of.  Its inputs
    spend a leading part of the credits as sorted, in that order; every
    input has passed the script engine against the script of the credit
    it spends; the fee for its serialized size is at most the final
    estimate; and its outputs are the payments of the pay-list, in some
    order, together with a change output exactly when the selected amount
    exceeds payments plus estimate, in which case the returned index
    points at that output and the output pays the returned change
    address. *)
Theorem createTx_built (fuel : nat) (credits : list wtxmgr.Credit)
  (outputs : list (string * Z)) (c : CreatedTx) :
  Z.of_nat (length outputs) < MaxInt32 ->
  createTx W chainParams mgr bs feeIncrement account changeAddress
           disallowFree fuel credits outputs = Ok c ->
  exists selected rest payOuts estimate,
    sortReverseByAmount W credits = selected ++ rest
    /\ map wire.PreviousOutPoint (wire.TxIn (MsgTx c))
       = map wtxmgr.OutPoint selected
    /\ (forall j prev, selected !! j = Some prev ->
          Execute W (wtxmgr.PkScript prev) (MsgTx c) j = None)
    /\ paysFor W chainParams outputs payOuts
    /\ feeForSize feeIncrement (int (SerializeSize W (MsgTx c))) <= estimate
    /\ let change :=
         int64 (int64 (int64 (sumAmounts selected)
                       - int64 (sumPairs outputs)) - estimate) in
       (change <= 0 -> Permutation (wire.TxOut (MsgTx c)) payOuts)
       /\ (0 < change ->
           exists a pkScript,
             ChangeAddr c = Some a /\ PayToAddrScript W a = inr pkScript
             /\ Permutation
                  (wire.TxOut (MsgTx c))
                  (payOuts ++ [wire.mkTxOut (int64 change) pkScript])
             /\ 0 <= ChangeIndex c
                < Z.of_nat (length (wire.TxOut (MsgTx c)))
             /\ wire.TxOut (MsgTx c) !! Z.to_nat (ChangeIndex c)
                = Some (wire.mkTxOut (int64 change) pkScript)).
Proof.
  intros Hlen H. unfold createTx in H.
  bind_inv H. destruct a as [minAmount v0]. simpl in H.
  pose proof (selectInputs_ok W chainParams bs feeIncrement disallowFree
                _ _ _ _ E) as (Hsel & _ & Hmin).
  assert (Hm : minAmount = int64 (sumPairs outputs)).
  { unfold selectInputs in E.
    destruct (addOutputs W chainParams wire.NewMsgTx outputs)
      as [[tx0 m] [e |]] eqn:Hadd; [ discriminate | ].
    simpl in Hmin. subst m. eapply addOutputs_total, Hadd. }
  destruct (selectInputs_spending _ _ _ _ E) as (payOuts & Hpays & Hsp & Hl).
  rewrite <- Hl in Hlen. clear E.
  bind_inv H. rename a into vend. bind_inv H. inversion H; subst c. clear H.
  simpl.
  destruct (feeLoop_last
              (fun u => selecting (sortReverseByAmount W credits) u
                        /\ spending payOuts u) minAmount) with
    (fuel := fuel) (v := v0) (v' := vend) as (u & [Hu1 Hu2] & Hdone);
    [ | auto | assumption | ].
  { intros u u' [I1 I2] Hb. split.
    - apply feeLoopBody_Again in Hb. destruct Hb as (v1 & Hr & Hc).
      apply coverFee_ok with (sorted := sortReverseByAmount W credits) in Hc;
        [ apply Hc | reflexivity | eapply selecting_raised; eauto ].
    - eapply pass_Again_spending; eauto. }
  destruct (pass_Done _ _ _ _ Hu2 Hlen Hdone)
    as (D1 & D2 & D3 & D4 & D5 & D6 & D7 & D8).
  destruct Hu1 as [Happ Htot].
  exists (inputs u), (eligible u), payOuts, (feeEst u).
  split; [ symmetry; exact Happ | ]. split; [ exact D5 | ].
  split.
  { intros j prev Hj.
    match goal with
    | Hv : validateMsgTx _ _ _ = Ok _ |- _ =>
      destruct a;
      pose proof (proj1 (validateMsgTx_ok W _ _) Hv) as Hval;
      destruct (Hval j) as (prev' & Hp' & _ & Hex)
    end.
    - apply lookup_lt_Some in Hj.
      apply (f_equal (@length _)) in D5. rewrite !length_map in D5. lia.
    - rewrite D1 in Hp'. congruence. }
  split; [ exact Hpays | ]. split; [ exact D6 | ].
  rewrite <- Hm, <- Htot.
  split; [ intros Hc; apply D7 in Hc; apply Hc | exact D8 ].
Qed.

End BuiltFacts.

(** *** The fee a built transaction pays *)

Lemma sumZ_perm l1 l2 : Permutation l1 l2 -> wire.sumZ l1 = wire.sumZ l2.
Proof. induction 1; simpl; lia. Qed.

Lemma paysFor_values W chainParams pairs outs :
  paysFor W chainParams pairs outs ->
  sumPairs pairs <= MaxInt64 ->
  wire.sumZ (map wire.Value outs) = sumPairs pairs /\ 0 <= sumPairs pairs.
Proof.
  induction 1 as [| addrStr amt addr pk pairs outs Hamt Hd Hp Hrest IH];
    intros Hfit; [ split; reflexivity || (vm_compute; discriminate) | ].
  unfold sumPairs in *. simpl in *.
  assert (Hpos : 0 <= wire.sumZ (map snd pairs)).
  { clear - Hrest. induction Hrest; simpl; lia. }
  destruct IH as [IH _]; [ lia | ].
  pose proof Hfit as Hfit'. apply is_int64_bounds in Hfit'; [ | lia ].
  rewrite int64_id by in_range. lia.
Qed.

Lemma Forall_nonNegative_sum_le l1 l2 :
  Forall nonNegative (l1 ++ l2) ->
  0 <= sumAmounts l1 <= sumAmounts (l1 ++ l2).
Proof.
  intros H. apply Forall_app in H. destruct H as [H1 H2].
  rewrite sumAmounts_app.
  pose proof (sumAmounts_nonneg _ H1). pose proof (sumAmounts_nonneg _ H2).
  lia.
Qed.

(** X17: the fee paid.  With a positive increment and amounts that do not
    overflow, a transaction built by [createTx] spends a leading part of
    the sorted credits, pays out at least the pay-list total, and leaves
    to the miner the difference between the amounts it spends and the
    values of its outputs; that difference is not negative and is at
    least the fee required for the serialized size of the transaction. *)
Theorem createTx_pays_required_fee (W : World)
  (chainParams : chaincfg.Params) (mgr : waddrmgr.Manager)
  (bs : waddrmgr.BlockStamp) (feeIncrement account : Z)
  (changeAddress : Z -> result Address) (disallowFree : bool)
  (fuel : nat) (credits : list wtxmgr.Credit)
  (outputs : list (string * Z)) (c : CreatedTx) :
  (forall l, Permutation (sortReverseByAmount W l) l) ->
  0 < feeIncrement ->
  Forall nonNegative credits ->
  sumAmounts credits + feeIncrement <= MaxInt64 ->
  sumPairs outputs + MaxSatoshi <= MaxInt64 ->
  Z.of_nat (length outputs) < MaxInt32 ->
  createTx W chainParams mgr bs feeIncrement account changeAddress
           disallowFree fuel credits outputs = Ok c ->
  exists selected rest,
    sortReverseByAmount W credits = selected ++ rest
    /\ map wire.PreviousOutPoint (wire.TxIn (MsgTx c))
       = map wtxmgr.OutPoint selected
    /\ sumPairs outputs <= wire.sumZ (outputValues (MsgTx c))
    /\ let fee := sumAmounts selected - wire.sumZ (outputValues (MsgTx c)) in
       0 <= fee
       /\ feeForSize feeIncrement (int (SerializeSize W (MsgTx c))) <= fee.
Proof.
  intros Hperm Hincr Hnn Hfit Hout Hlen H. unfold createTx in H.
  bind_inv H. destruct a as [minAmount v0]. simpl in H.
  pose proof (selectInputs_ok W chainParams bs feeIncrement disallowFree
                _ _ _ _ E) as (Hsel & _ & Hmin).
  destruct (selectInputs_loopInv _ _ _ _ _ _ _ _ _ Hperm Hincr Hnn Hfit Hout E)
    as (Hm0 & Hm1 & Hinv & _).
  assert (Hm : minAmount = sumPairs outputs).
  { unfold selectInputs in E.
    destruct (addOutputs W chainParams wire.NewMsgTx outputs)
      as [[tx0 m] [e |]] eqn:Hadd; [ discriminate | ].
    simpl in Hmin. subst m.
    pose proof (addOutputs_total _ _ _ _ _ Hadd) as Ht.
    apply addOutputs_from_positive, sumPairs_nonneg in Hadd.
    assert (0 <= MaxSatoshi) by (vm_compute; discriminate).
    pose proof Hout as Hout'. apply is_int64_bounds in Hout'; [ | lia ].
    rewrite int64_id in Ht by in_range. exact Ht. }
  destruct (selectInputs_spending _ _ _ _ _ _ _ _ _ E)
    as (payOuts & Hpays & Hsp & Hl).
  rewrite <- Hl in Hlen. clear E.
  bind_inv H. rename a into vend. bind_inv H. inversion H; subst c. clear H.
  simpl.
  set (sorted := sortReverseByAmount W credits) in *.
  set (T := sumAmounts credits) in *.
  destruct (feeLoop_last W chainParams mgr bs feeIncrement account
              changeAddress disallowFree
              (fun u => selecting sorted u /\ spending payOuts u
                        /\ loopInv T minAmount u) minAmount) with
    (fuel := fuel) (v := v0) (v' := vend) as (u & (Hu1 & Hu2 & Hu3) & Hdone);
    [ | auto | assumption | ].
  { intros u u' (I1 & I2 & I3) Hb. split; [ | split ].
    - apply feeLoopBody_Again in Hb. destruct Hb as (v1 & Hr & Hc).
      apply coverFee_ok with (sorted := sorted) in Hc;
        [ apply Hc | reflexivity | eapply selecting_raised; eauto ].
    - eapply pass_Again_spending; eauto.
    - eapply feeLoopBody_progress; eauto. }
  destruct (pass_Done _ _ _ _ _ _ _ _ _ _ _ _ Hu2 Hlen Hdone)
    as (D1 & D2 & D3 & D4 & D5 & D6 & D7 & D8).
  destruct Hu1 as [Happ Htot].
  destruct Hu3 as (Hfee & Hcov & Hsum & Hnn').
  exists (inputs u), (eligible u).
  split; [ symmetry; exact Happ | ]. split; [ exact D5 | ].
  assert (Hsorted : Forall nonNegative (inputs u ++ eligible u)).
  { rewrite Happ. eapply Permutation_Forall;
      [ apply Permutation_sym, Hperm | exact Hnn ]. }
  pose proof (Forall_nonNegative_sum_le _ _ Hsorted) as Hle.
  rewrite Happ in Hle. unfold sorted in Hle.
  rewrite (sumAmounts_perm _ _ (Hperm credits)) in Hle. fold T in Hle.
  pose proof Hfit as Hfit'. fold T in Hfit'.
  apply is_int64_bounds in Hfit'; [ | lia ].
  rewrite int64_id in Htot by in_range.
  assert (Hvals : wire.sumZ (map wire.Value payOuts) = sumPairs outputs).
  { assert (0 <= MaxSatoshi) by (vm_compute; discriminate).
    apply (paysFor_values _ _ _ _ Hpays). lia. }
  set (change := totalAdded u - minAmount - feeEst u).
  assert (Hchange : int64 (int64 (totalAdded u - minAmount) - feeEst u)
                    = change).
  { unfold change. rewrite (int64_id (totalAdded u - minAmount)) by in_range.
    apply int64_id. in_range. }
  rewrite Hchange in D7, D8. unfold outputValues.
  destruct (Z_le_gt_dec change 0) as [Hc0 | Hc0].
  - destruct (D7 Hc0) as (Hp & _).
    rewrite (sumZ_perm _ _ (Permutation_map wire.Value Hp)), Hvals.
    unfold change in *. split; [ lia | ]. split; lia.
  - destruct (D8 ltac:(lia)) as (a' & pk & _ & _ & Hp & _).
    rewrite (sumZ_perm _ _ (Permutation_map wire.Value Hp)).
    rewrite map_app, sumZ_app, Hvals. simpl.
    rewrite int64_id by (unfold change; in_range).
    unfold change in *. split; [ lia | ]. split; lia.
Qed.

(** *** The properties above at the test wallet *)

Lemma TestNet_wallet_eligible :
  findEligibleOutputs TestNet.world TestNet.wallet 0 0
                      (waddrmgr.mkBlockStamp 11111 0)
  = Ok TestNet.creditsS1.
Proof. vm_compute. reflexivity. Qed.

Lemma creditsS1_nonNegative : Forall nonNegative TestNet.creditsS1.
Proof. repeat constructor; unfold nonNegative; simpl; lia. Qed.

Lemma findEligibleOutputs_sound_witness :
  forall c, In c TestNet.creditsS1 ->
    LockedOutpoint TestNet.wallet (wtxmgr.OutPoint c) = false.
Proof.
  intros c Hc.
  apply (proj2 (findEligibleOutputs_sound TestNet.world TestNet.wallet 0 0
                  (waddrmgr.mkBlockStamp 11111 0) TestNet.creditsS1
                  TestNet_wallet_eligible) c Hc).
Defined.

Lemma findEligibleOutputs_complete_witness :
  In (TestNet.mockCredit 3 10000000) TestNet.creditsS1.
Proof.
  apply (findEligibleOutputs_complete TestNet.world TestNet.wallet 0 0
           (waddrmgr.mkBlockStamp 11111 0) TestNet.creditsS1
           TestNet.creditsS1 (TestNet.mockCredit 3 10000000)
           (AddressPubKeyHash (TestNet.hash160 "owner")) [] 1).
  - reflexivity.
  - exact TestNet_wallet_eligible.
  - simpl. auto.
  - reflexivity.
  - discriminate.
  - reflexivity.
  - reflexivity.
  - reflexivity.
Defined.

Lemma findEligibleOutputs_after_lock_witness :
  findEligibleOutputs TestNet.world
    (LockOutpoint TestNet.wallet (wire.mkOutPoint 7 2)) 0 0
    (waddrmgr.mkBlockStamp 11111 0)
  = Ok (List.filter
          (fun c => negb (bool_decide
                            (wtxmgr.OutPoint c = wire.mkOutPoint 7 2)))
          TestNet.creditsS1).
Proof.
  apply (findEligibleOutputs_after_lock TestNet.world TestNet.wallet 0 0
           (waddrmgr.mkBlockStamp 11111 0) (wire.mkOutPoint 7 2)
           TestNet.creditsS1).
  exact TestNet_wallet_eligible.
Defined.

Lemma eligible_sum_le_balance_witness :
  exists bal,
    CalculateAccountBalance TestNet.world TestNet.wallet
                            (waddrmgr.mkBlockStamp 11111 0) 0 0 = Ok bal
    /\ sumAmounts TestNet.creditsS1 <= bal <= sumAmounts TestNet.creditsS1.
Proof.
  apply (eligible_sum_le_balance TestNet.world TestNet.wallet 0 0
           (waddrmgr.mkBlockStamp 11111 0) TestNet.creditsS1
           TestNet.creditsS1).
  - reflexivity.
  - exact TestNet_wallet_eligible.
  - exact creditsS1_nonNegative.
  - vm_compute. discriminate.
Defined.

Lemma addOutputs_appends_witness :
  snd (fst (addOutputs TestNet.world chaincfg.TestNet3Params wire.NewMsgTx
                       TestNet.pairsS1))
  = int64 (sumPairs TestNet.pairsS1).
Proof.
  pose (r := addOutputs TestNet.world chaincfg.TestNet3Params wire.NewMsgTx
                        TestNet.pairsS1).
  assert (E : r = (fst (fst r), snd (fst r), None))
    by (vm_compute; reflexivity).
  exact (proj1 (proj1 (addOutputs_appends TestNet.world
                         chaincfg.TestNet3Params wire.NewMsgTx
                         TestNet.pairsS1) _ _ E)).
Defined.

Lemma addChange_places_change_witness :
  addChange TestNet.world 0 TestNet.spendFirst 5 TestNet.changeAddr0
  <> Panic.
Proof.
  refine (proj2 (addChange_places_change TestNet.world 0 TestNet.spendFirst
                   5 TestNet.changeAddr0 _) _).
  - vm_compute. reflexivity.
  - intros n Hn. simpl. lia.
Defined.

Lemma signMsgTx_changes_signatures_only_witness :
  signMsgTx TestNet.world chaincfg.TestNet3Params TestNet.manager
            TestNet.spendFirst TestNet.creditsS1
  = Err (ErrPrevOutputsMismatch 5 1).
Proof.
  refine (proj2 (signMsgTx_changes_signatures_only TestNet.world
                   chaincfg.TestNet3Params TestNet.manager
                   TestNet.spendFirst TestNet.creditsS1) _).
  simpl. discriminate.
Defined.

Lemma validateMsgTx_accepts_iff_witness :
  validateMsgTx TestNet.world TestNet.spendFirst
                [TestNet.mockCredit 1 3000000] = Ok tt.
Proof.
  refine (proj2 (proj1 (validateMsgTx_accepts_iff TestNet.world
                          TestNet.spendFirst
                          [TestNet.mockCredit 1 3000000])) _).
  intros j Hj. simpl in Hj. destruct j as [| j]; [ | lia ].
  eexists. repeat split.
Defined.

Lemma S1_runs :
  exists c, TestNet.run 11111 1000 false 2 TestNet.creditsS1 TestNet.pairsS1
            = Ok c.
Proof. vm_compute. eexists. reflexivity. Qed.

Lemma createTx_built_witness :
  exists c selected rest,
    TestNet.run 11111 1000 false 2 TestNet.creditsS1 TestNet.pairsS1 = Ok c
    /\ TestNet.sortCredits TestNet.creditsS1 = selected ++ rest
    /\ map wire.PreviousOutPoint (wire.TxIn (MsgTx c))
       = map wtxmgr.OutPoint selected.
Proof.
  destruct S1_runs as [c E].
  destruct (createTx_built TestNet.world chaincfg.TestNet3Params
              TestNet.manager (waddrmgr.mkBlockStamp 11111 0) 1000 0
              TestNet.tstChangeAddress false 2 TestNet.creditsS1
              TestNet.pairsS1 c ltac:(vm_compute; reflexivity) E)
    as (selected & rest & payOuts & estimate & H1 & H2 & _).
  exists c, selected, rest. split; [ exact E | ]. split; assumption.
Defined.

Lemma createTx_pays_required_fee_witness :
  exists c selected,
    TestNet.run 11111 1000 false 2 TestNet.creditsS1 TestNet.pairsS1 = Ok c
    /\ feeForSize 1000 (int (wire.consensusSerializeSize (MsgTx c)))
       <= sumAmounts selected - wire.sumZ (outputValues (MsgTx c)).
Proof.
  destruct S1_runs as [c E].
  destruct (createTx_pays_required_fee TestNet.world chaincfg.TestNet3Params
              TestNet.manager (waddrmgr.mkBlockStamp 11111 0) 1000 0
              TestNet.tstChangeAddress false 2 TestNet.creditsS1
              TestNet.pairsS1 c sortCredits_perm ltac:(lia)
              creditsS1_nonNegative
              ltac:(vm_compute; discriminate)
              ltac:(vm_compute; discriminate)
              ltac:(vm_compute; reflexivity) E)
    as (selected & rest & _ & _ & _ & _ & Hfee).
  exists c, selected. split; [ exact E | exact Hfee ].
Defined.

(** *** The listing of the lock set *)

(** X18: [LockedOutpoints] lists the lock set.  An entry is listed exactly
    when it is the transaction id and output index of a locked outpoint;
    the listing has one entry for each locked outpoint, so locking an
    outpoint that was not locked makes it one longer, locking one that was
    leaves its length, unlocking a locked one makes it one shorter, and
    after a reset it is empty. *)
Theorem LockedOutpoints_lists_lock_set (hashString : N -> string)
  (w : Wallet) :
  (forall e,
     In e (LockedOutpoints hashString w) <->
     exists op, LockedOutpoint w op = true
                /\ e = btcjson.mkTransactionInput
                         (hashString (wire.Hash op)) (wire.Index op))
  /\ (forall op,
        length (LockedOutpoints hashString (LockOutpoint w op))
        = if LockedOutpoint w op
          then length (LockedOutpoints hashString w)
          else S (length (LockedOutpoints hashString w)))
  /\ (forall op,
        length (LockedOutpoints hashString w)
        = if LockedOutpoint w op
          then S (length (LockedOutpoints hashString (UnlockOutpoint w op)))
          else length (LockedOutpoints hashString (UnlockOutpoint w op)))
  /\ LockedOutpoints hashString (ResetLockedOutpoints w) = [].
Proof.
  unfold LockedOutpoints, LockedOutpoint, LockOutpoint, UnlockOutpoint,
    ResetLockedOutpoints.
  simpl. split; [ | split; [ | split ] ].
  - intros e. rewrite in_map_iff. split.
    + intros ([op u] & <- & Hin). exists op. simpl.
      apply list_elem_of_In, elem_of_map_to_list in Hin.
      rewrite Hin. auto.
    + intros (op & Hl & ->).
      destruct (lockedOutpoints w !! op) as [u |] eqn:E; [ | discriminate ].
      exists (op, u). split; [ reflexivity | ].
      now apply list_elem_of_In, elem_of_map_to_list.
  - intros op. rewrite !length_map, !length_map_to_list, map_size_insert.
    destruct (lockedOutpoints w !! op); reflexivity.
  - intros op. rewrite !length_map, !length_map_to_list, map_size_delete.
    destruct (lockedOutpoints w !! op) eqn:E; [ | reflexivity ].
    assert (size (lockedOutpoints w) <> 0)%nat; [ | lia ].
    intros H0. apply map_size_empty_inv in H0. rewrite H0 in E.
    now rewrite lookup_empty in E.
  - now rewrite map_to_list_empty.
Qed.

(** *** What [txToPairs] spends *)

Lemma createTx_spends_prefix W chainParams mgr bs feeIncrement account
  changeAddress disallowFree fuel credits outputs c :
  Z.of_nat (length outputs) < MaxInt32 ->
  createTx W chainParams mgr bs feeIncrement account changeAddress
           disallowFree fuel credits outputs = Ok c ->
  exists selected rest,
    sortReverseByAmount W credits = selected ++ rest
    /\ map wire.PreviousOutPoint (wire.TxIn (MsgTx c))
       = map wtxmgr.OutPoint selected.
Proof.
  intros Hlen H. unfold createTx in H.
  bind_inv H. destruct a as [minAmount v0]. simpl in H.
  pose proof (selectInputs_ok W chainParams bs feeIncrement disallowFree
                _ _ _ _ E) as (Hsel & _ & Hmin).
  destruct (selectInputs_spending _ _ _ _ _ _ _ _ _ E)
    as (payOuts & Hpays & Hsp & Hl).
  rewrite <- Hl in Hlen. clear E.
  bind_inv H. rename a into vend. bind_inv H. inversion H; subst c. clear H.
  simpl.
  destruct (feeLoop_last W chainParams mgr bs feeIncrement account
              changeAddress disallowFree
              (fun u => selecting (sortReverseByAmount W credits) u
                        /\ spending payOuts u) minAmount) with
    (fuel := fuel) (v := v0) (v' := vend) as (u & [Hu1 Hu2] & Hdone);
    [ | auto | assumption | ].
  { intros u u' [I1 I2] Hb. split.
    - apply feeLoopBody_Again in Hb. destruct Hb as (v1 & Hr & Hc).
      apply coverFee_ok with (sorted := sortReverseByAmount W credits) in Hc;
        [ apply Hc | reflexivity | eapply selecting_raised; eauto ].
    - eapply pass_Again_spending; eauto. }
  destruct (pass_Done _ _ _ _ _ _ _ _ _ _ _ _ Hu2 Hlen Hdone)
    as (_ & _ & _ & _ & D5 & _).
  destruct Hu1 as [Happ _].
  exists (inputs u), (eligible u).
  split; [ symmetry; exact Happ | exact D5 ].
Qed.

Lemma sublist_map {A B} (f : A -> B) (l1 l2 : list A) :
  sublist l1 l2 -> sublist (map f l1) (map f l2).
Proof. induction 1; simpl; constructor; assumption. Qed.

Lemma txToPairs_built {M} mgrUnlock mgrLock mgrIsLocked mgrChangePassphrase
  W w (s s' : Locker.state M) expires blockStamp newChangeAddress fuel pairs
  account minconf out c :
  txToPairs M mgrUnlock mgrLock mgrIsLocked mgrChangePassphrase W w s
            expires blockStamp newChangeAddress fuel pairs account minconf
  = Some (s', out, Ok c) ->
  buildTx W w blockStamp newChangeAddress fuel pairs account minconf = Ok c.
Proof.
  unfold txToPairs.
  destruct (Locker.HoldUnlock M mgrUnlock mgrLock mgrIsLocked
                              mgrChangePassphrase s)
    as [[s1 [[] | e | |]] |]; try discriminate.
  match goal with
  | |- context [Locker.step _ _ _ _ _ ?s2 Locker.Release] =>
    destruct (Locker.step M mgrUnlock mgrLock mgrIsLocked
                          mgrChangePassphrase s2 Locker.Release)
      as [[s3 out'] |]; [ | discriminate ]
  end.
  intros H. now inversion H.
Qed.

(** X19: what [txToPairs] spends.  Where the sort permutes its input, a
    transaction returned by [txToPairs] spends only unspent outputs of the
    wallet that are not locked, have the confirmations asked for, are
    mature when they come from a coinbase, and pay a pubkey hash of the
    account; and where no two unspent outputs share an outpoint it spends
    no outpoint twice. *)
Theorem txToPairs_spends_eligible_only {M : Type}
  (mgrUnlock : M -> list Byte.byte -> M * option ext_error)
  (mgrLock : M -> M * option ext_error) (mgrIsLocked : M -> bool)
  (mgrChangePassphrase :
     M -> list Byte.byte -> list Byte.byte -> M * option ext_error)
  (W : World) (w : Wallet) (s s' : Locker.state M) (expires : bool)
  (blockStamp : result waddrmgr.BlockStamp)
  (newChangeAddress : Z -> result Address) (fuel : nat)
  (pairs : list (string * Z)) (account minconf : Z)
  (out : list Locker.reply) (c : CreatedTx) :
  (forall l, Permutation (sortReverseByAmount W l) l) ->
  Z.of_nat (length pairs) < MaxInt32 ->
  txToPairs M mgrUnlock mgrLock mgrIsLocked mgrChangePassphrase W w s
            expires blockStamp newChangeAddress fuel pairs account minconf
  = Some (s', out, Ok c) ->
  exists bs unspent,
    blockStamp = inr bs /\ UnspentOutputs w = inr unspent
    /\ (forall txin, In txin (wire.TxIn (MsgTx c)) ->
          LockedOutpoint w (wire.PreviousOutPoint txin) = false
          /\ exists credit,
               In credit unspent
               /\ wtxmgr.OutPoint credit = wire.PreviousOutPoint txin
               /\ confirmed minconf (wtxmgr.Height credit)
                            (waddrmgr.Height bs) = true
               /\ (wtxmgr.FromCoinBase credit = true ->
                   confirmed blockchain.CoinbaseMaturity
                             (wtxmgr.Height credit) (waddrmgr.Height bs)
                   = true)
               /\ exists addr rest n,
                    ExtractPkScriptAddrs W (wtxmgr.PkScript credit)
                                         (chainParams w)
                    = (txscript.PubKeyHashTy, addr :: rest, n, None)
                    /\ waddrmgr.AddrAccount (Manager w) addr = inr account)
    /\ (NoDup (map wtxmgr.OutPoint unspent) ->
        NoDup (map wire.PreviousOutPoint (wire.TxIn (MsgTx c)))).
Proof.
  intros Hperm Hlen H. apply txToPairs_built in H. unfold buildTx in H.
  destruct blockStamp as [e | bs]; [ discriminate | ]. simpl in H.
  bind_inv H. rename a into eligible0.
  unfold findEligibleOutputs in E.
  destruct (UnspentOutputs w) as [e | unspent] eqn:Eu; [ discriminate | ].
  simpl in E.
  destruct (createTx_spends_prefix _ _ _ _ _ _ _ _ _ _ _ _ Hlen H)
    as (selected & rest & Hsorted & Hins).
  exists bs, unspent. split; [ reflexivity | ]. split; [ reflexivity | ].
  assert (Hsel : forall credit, In credit selected -> In credit eligible0).
  { intros credit Hc. apply (Permutation_in _ (Hperm eligible0)).
    rewrite Hsorted. apply in_or_app. now left. }
  split.
  - intros txin Hin.
    apply (in_map wire.PreviousOutPoint) in Hin. rewrite Hins in Hin.
    apply in_map_iff in Hin. destruct Hin as (credit & Hop & Hc).
    apply Hsel in Hc.
    destruct (filterEligible_sound _ _ _ _ _ _ _ _ E Hc) as [Hu He].
    apply eligibleOutput_true in He.
    destruct He as (H1 & H2 & H3 & H4).
    rewrite <- Hop. split; [ exact H3 | ].
    exists credit. auto.
  - intros Hnd. rewrite Hins.
    assert (Hnd' : NoDup (map wtxmgr.OutPoint
                              (sortReverseByAmount W eligible0))).
    { rewrite (Permutation_map wtxmgr.OutPoint (Hperm eligible0)).
      eapply sublist_NoDup; [ exact Hnd | ].
      apply sublist_map. eapply filterEligible_sublist, E. }
    rewrite Hsorted, map_app in Hnd'.
    now apply NoDup_app in Hnd'.
Qed.
